(** * OpenChamber agent orchestration: message bus, registry, isolation

  A shallow embedding of
    - packages/web/server/lib/agent-messenger.js  (AgentMessenger, AgentRegistry)
    - packages/web/server/lib/agent-isolation.js  (AgentIsolation)
  together with the properties the specification states about them.

  JavaScript objects that are mutated through several references (the
  message objects held by queues, retry timers and event listeners) live
  in an explicit heap; `Map`s whose iteration order the code relies on are
  association lists in insertion order; the other `Map`s are finite maps.
  Exceptions are explicit: every operation runs in a small state monad
  whose completions are `Normal` or `Throw`, with `try_catch` for
  `try { } catch { }`. An `async` function is read as running to the end
  without another operation interleaving at its `await`s. *)

From Stdlib Require Import ZArith QArith Qround List String Ascii Lia Sorted Permutation.
From stdpp Require Import base option list sorting gmap strings pretty.
Import ListNotations.
Local Open Scope string_scope.

(** ** Effects: state and exceptions *)

Module Js.

Inductive Completion (A : Type) : Type :=
| Normal (a : A)
| Throw (e : string).
Arguments Normal {A} a.
Arguments Throw {A} e.

Definition Eff (S A : Type) : Type := S -> Completion A * S.

Definition ret {S A} (a : A) : Eff S A := fun s => (Normal a, s).

Definition bind {S A B} (c : Eff S A) (k : A -> Eff S B) : Eff S B :=
  fun s => match c s with
         | (Normal a, s') => k a s'
         | (Throw e, s') => (Throw e, s')
         end.

Definition throw {S A} (e : string) : Eff S A := fun s => (Throw e, s).

(** `try { c } catch (error) { h error.message }`: state changes made before
  the exception stay. *)
Definition try_catch {S A} (c : Eff S A) (h : string -> Eff S A) : Eff S A :=
  fun s => match c s with
         | (Normal a, s') => (Normal a, s')
         | (Throw e, s') => h e s'
         end.

Definition gets {S A} (f : S -> A) : Eff S A := fun s => (Normal (f s), s).
Definition modify {S} (f : S -> S) : Eff S unit := fun s => (Normal tt, f s).

Definition when {S} (b : bool) (c : Eff S unit) : Eff S unit :=
  if b then c else ret tt.

Definition completes {A} (r : Completion A) : bool :=
  match r with Normal _ => true | Throw _ => false end.

Declare Scope eff_scope.
Delimit Scope eff_scope with eff.
Notation "x <- c ;; k" := (bind c (fun x => k))
  (at level 100, c at next level, right associativity) : eff_scope.
Notation "c ;; k" := (bind c (fun _ => k))
  (at level 100, right associativity) : eff_scope.

(** *** `Map` in insertion order *)

Section OrderedMap.
Context {V : Type}.

Fixpoint map_get (k : string) (m : list (string * V)) : option V :=
  match m with
  | [] => None
  | (k', v) :: m' => if String.eqb k k' then Some v else map_get k m'
  end.

Definition map_has (k : string) (m : list (string * V)) : bool :=
  match map_get k m with Some _ => true | None => false end.

(** `m.set(k, v)`: an existing key keeps its place, a new key goes last. *)
Fixpoint map_set (k : string) (v : V) (m : list (string * V)) : list (string * V) :=
  match m with
  | [] => [(k, v)]
  | (k', v') :: m' =>
      if String.eqb k k' then (k, v) :: m' else (k', v') :: map_set k v m'
  end.

Definition map_keys (m : list (string * V)) : list string := map fst m.

Lemma map_get_set_eq k v m : map_get k (map_set k v m) = Some v.
Proof.
  induction m as [|[k' v'] m IH]; simpl.
  - by rewrite String.eqb_refl.
  - destruct (String.eqb k k') eqn:E; simpl.
    + by rewrite String.eqb_refl.
    + by rewrite E.
Qed.

Lemma map_get_set_ne k k' v m :
  k <> k' -> map_get k' (map_set k v m) = map_get k' m.
Proof.
  intros Hne. induction m as [|[k0 v0] m IH]; simpl.
  - destruct (String.eqb_spec k' k); congruence.
  - destruct (String.eqb_spec k k0) as [->|]; simpl.
    + destruct (String.eqb_spec k' k0); congruence.
    + destruct (String.eqb_spec k' k0); congruence.
Qed.

Lemma map_keys_set_present k v m :
  map_has k m = true -> map_keys (map_set k v m) = map_keys m.
Proof.
  unfold map_has, map_keys. induction m as [|[k0 v0] m IH]; simpl; [done|].
  destruct (String.eqb_spec k k0) as [->|]; simpl; [done|].
  intros H. by rewrite IH.
Qed.

Lemma map_set_id k v m : map_get k m = Some v -> map_set k v m = m.
Proof.
  induction m as [|[k0 v0] m IH]; simpl; [done|].
  destruct (String.eqb_spec k k0) as [->|]; [congruence|].
  intros H. by rewrite IH.
Qed.
End OrderedMap.

(** *** `Array.prototype.sort(compare)`

  ECMAScript requires the sort to be stable; for a consistent comparator
  the result is then determined. It is computed here by insertion: `x` is
  placed in front of the first element it does not compare greater than. *)

Section Sort.
Context {A : Type} (compare : A -> A -> Z).

Fixpoint sort_insert (x : A) (l : list A) : list A :=
  match l with
  | [] => [x]
  | y :: l' => if (0 <? compare x y)%Z then y :: sort_insert x l' else x :: l
  end.

Fixpoint array_sort (l : list A) : list A :=
  match l with
  | [] => []
  | x :: l' => sort_insert x (array_sort l')
  end.
End Sort.

(** The comparator [(a, b) => key(a) - key(b)], and what a stable sort by it
    guarantees: the result is a permutation, ascending in the key, and the
    elements of each key value keep their order. *)

Section SortByKey.
Context {A : Type} (key : A -> Z).

Definition byKey (a b : A) : Z := (key a - key b)%Z.
Definition keyLe (a b : A) : Prop := (key a <= key b)%Z.

Lemma sort_insert_perm x l : sort_insert byKey x l ≡ₚ x :: l.
Proof.
  induction l as [|y l IH]; simpl; [done|].
  case_match; [|done]. rewrite IH. apply Permutation_swap.
Qed.

Lemma array_sort_perm l : array_sort byKey l ≡ₚ l.
Proof.
  induction l as [|x l IH]; simpl; [done|].
  by rewrite sort_insert_perm, IH.
Qed.

Lemma sort_insert_sorted x l :
  StronglySorted keyLe l -> StronglySorted keyLe (sort_insert byKey x l).
Proof.
  induction 1 as [|y l Hs IH Hy]; simpl.
  - repeat constructor.
  - unfold byKey at 1. destruct (Z.ltb_spec 0 (key x - key y)).
    + constructor; [done|].
      rewrite sort_insert_perm. constructor; [unfold keyLe; lia|done].
    + constructor; [by constructor|].
      constructor; [unfold keyLe; lia|].
      eapply Forall_impl; [exact Hy|]. unfold keyLe. intros; lia.
Qed.

Lemma array_sort_sorted l : StronglySorted keyLe (array_sort byKey l).
Proof.
  induction l; simpl; [constructor|]. by apply sort_insert_sorted.
Qed.

Lemma sort_insert_stable p x l :
  filter (fun a => key a = p) (sort_insert byKey x l)
  = filter (fun a => key a = p) (x :: l).
Proof.
  induction l as [|y l IH]; simpl; [done|].
  unfold byKey at 1. destruct (Z.ltb_spec 0 (key x - key y)); [|done].
  rewrite !filter_cons in *.
  destruct (decide (key y = p)), (decide (key x = p)); try lia.
  all: by rewrite ?IH.
Qed.

Lemma array_sort_stable p l :
  filter (fun a => key a = p) (array_sort byKey l) = filter (fun a => key a = p) l.
Proof.
  induction l as [|x l IH]; simpl; [done|].
  rewrite sort_insert_stable, !filter_cons, IH. done.
Qed.
End SortByKey.

(** *** Framing: what an effect leaves related *)

Definition respects {S A} (R : S -> S -> Prop) (c : Eff S A) : Prop :=
  forall s, R s (snd (c s)).

Section Respects.
Context {S : Type} (R : S -> S -> Prop) `{!PreOrder R}.

Lemma respects_ret {A} (a : A) : respects R (ret a).
Proof. intros s. simpl. reflexivity. Qed.

Lemma respects_throw {A} e : respects R (@throw S A e).
Proof. intros s. simpl. reflexivity. Qed.

Lemma respects_gets {A} (f : S -> A) : respects R (gets f).
Proof. intros s. simpl. reflexivity. Qed.

Lemma respects_modify (f : S -> S) : (forall s, R s (f s)) -> respects R (modify f).
Proof. intros H s. apply H. Qed.

Lemma respects_bind {A B} (c : Eff S A) (k : A -> Eff S B) :
  respects R c -> (forall a, respects R (k a)) -> respects R (bind c k).
Proof.
  intros Hc Hk s. unfold bind. specialize (Hc s).
  destruct (c s) as [[a|e] s1]; simpl in *; [|done].
  etransitivity; [exact Hc|apply Hk].
Qed.

Lemma respects_try_catch {A} (c : Eff S A) (h : string -> Eff S A) :
  respects R c -> (forall e, respects R (h e)) -> respects R (try_catch c h).
Proof.
  intros Hc Hh s. unfold try_catch. specialize (Hc s).
  destruct (c s) as [[a|e] s1]; simpl in *; [done|].
  etransitivity; [exact Hc|apply Hh].
Qed.

Lemma respects_when (b : bool) (c : Eff S unit) :
  respects R c -> respects R (when b c).
Proof. destruct b; simpl; [done|]. intros _. apply respects_ret. Qed.
End Respects.

Ltac respects_step :=
  lazymatch goal with
  | |- respects _ (bind _ _) => apply respects_bind; [typeclasses eauto| |intros ?]
  | |- respects _ (ret _) => apply respects_ret; typeclasses eauto
  | |- respects _ (throw _) => apply respects_throw; typeclasses eauto
  | |- respects _ (gets _) => apply respects_gets; typeclasses eauto
  | |- respects _ (try_catch _ _) =>
      apply respects_try_catch; [typeclasses eauto| |intros ?]
  | |- respects _ (when _ _) => apply respects_when; [typeclasses eauto|]
  | |- respects _ (match ?x with _ => _ end) => destruct x
  end.

End Js.

(** ** The message bus: [AgentMessenger] (agent-messenger.js) *)

Module Messenger.
Import Js.
Local Open Scope eff_scope.

Definition CRITICAL : Z := 0.
Definition HIGH : Z := 1.
Definition NORMAL : Z := 2.
Definition LOW : Z := 3.

Inductive Status := PENDING | DELIVERED | FAILED | RETRYING.

Definition MAX_QUEUE_SIZE : nat := 1000.
Definition MAX_RETRIES : nat := 3.
Definition RETRY_DELAY_MS : nat := 1000.

(** [worktree] is [None] for JavaScript's [null]; the three last fields are
    absent until the code assigns them. *)
Record Message := mkMessage {
  id : string;
  type : string;
  sourceAgentId : string;
  targetAgentId : string;
  worktree : option string;
  payload : string;
  priority : Z;
  status : Status;
  createdAt : Z;
  timeout : Z;
  retryCount : nat;
  metadata : list (string * string);
  error : option string;
  deliveredAt : option Z;
  failedAt : option Z;
}.

Definition set_status (v : Status) (m : Message) : Message :=
  mkMessage (id m) (type m) (sourceAgentId m) (targetAgentId m) (worktree m)
    (payload m) (priority m) v (createdAt m) (timeout m) (retryCount m)
    (metadata m) (error m) (deliveredAt m) (failedAt m).

Definition set_retryCount (v : nat) (m : Message) : Message :=
  mkMessage (id m) (type m) (sourceAgentId m) (targetAgentId m) (worktree m)
    (payload m) (priority m) (status m) (createdAt m) (timeout m) v
    (metadata m) (error m) (deliveredAt m) (failedAt m).

Definition set_error (v : string) (m : Message) : Message :=
  mkMessage (id m) (type m) (sourceAgentId m) (targetAgentId m) (worktree m)
    (payload m) (priority m) (status m) (createdAt m) (timeout m) (retryCount m)
    (metadata m) (Some v) (deliveredAt m) (failedAt m).

Definition set_deliveredAt (v : Z) (m : Message) : Message :=
  mkMessage (id m) (type m) (sourceAgentId m) (targetAgentId m) (worktree m)
    (payload m) (priority m) (status m) (createdAt m) (timeout m) (retryCount m)
    (metadata m) (error m) (Some v) (failedAt m).

Definition set_failedAt (v : Z) (m : Message) : Message :=
  mkMessage (id m) (type m) (sourceAgentId m) (targetAgentId m) (worktree m)
    (payload m) (priority m) (status m) (createdAt m) (timeout m) (retryCount m)
    (metadata m) (error m) (deliveredAt m) (Some v).

(** A message object is a heap location; queues, timers and listeners hold
    the location, so an assignment to a field is seen through all of them. *)
Definition loc := nat.

(** A pending [setTimeout]: its delay in milliseconds and the message object
    its callback closes over. *)
Record Timer := mkTimer { delay : nat; target : loc }.

(** [emit(name, message)] and [emit(name, message, error)]: the message as it
    is when the listeners run. *)
Record Event := mkEvent {
  ev_name : string;
  ev_message : Message;
  ev_error : option string;
}.

(** What the listener of ["message:send"] does with a message: it returns a
    result with a truthy [delivered], it returns anything else, or it
    throws. [emit] drops what a listener returns, so that [deliverMessage]
    sees the first two as the same. *)
Inductive SendOutcome := Accepted | Declined | Raised (e : string).

(** The messenger and the world it acts on. [onSend] is the subscriber of
    ["message:send"]; [files] is the persistence
    directory, one entry [<id>.json] per message id, holding what
    [JSON.stringify] wrote; [fsFault name] is the error code with which the
    file system refuses to write or unlink that entry, if it does; [clock] is
    [Date.now()]; [events] is what was emitted, newest first. *)
Record State := mkState {
  heap : gmap loc Message;
  messageQueues : list (string * list loc);
  retryTimers : gmap string Timer;
  isProcessing : bool;
  onSend : Message -> SendOutcome;
  files : gmap string Message;
  fsFault : string -> option string;
  clock : Z;
  events : list Event;
}.

Definition set_heap (v : gmap loc Message) (s : State) : State :=
  mkState v (messageQueues s) (retryTimers s) (isProcessing s) (onSend s) (files s)
    (fsFault s) (clock s) (events s).
Definition set_messageQueues (v : list (string * list loc)) (s : State) : State :=
  mkState (heap s) v (retryTimers s) (isProcessing s) (onSend s) (files s)
    (fsFault s) (clock s) (events s).
Definition set_retryTimers (v : gmap string Timer) (s : State) : State :=
  mkState (heap s) (messageQueues s) v (isProcessing s) (onSend s) (files s)
    (fsFault s) (clock s) (events s).
Definition set_isProcessing (v : bool) (s : State) : State :=
  mkState (heap s) (messageQueues s) (retryTimers s) v (onSend s) (files s)
    (fsFault s) (clock s) (events s).
Definition set_files (v : gmap string Message) (s : State) : State :=
  mkState (heap s) (messageQueues s) (retryTimers s) (isProcessing s) (onSend s) v
    (fsFault s) (clock s) (events s).
Definition set_events (v : list Event) (s : State) : State :=
  mkState (heap s) (messageQueues s) (retryTimers s) (isProcessing s) (onSend s) (files s)
    (fsFault s) (clock s) v.

(** [new AgentMessenger()] in a world with the given objects and files. *)
Definition constructor (h : gmap loc Message) (subscriber : Message -> SendOutcome)
    (fs : gmap string Message) (fault : string -> option string) (now : Z) : State :=
  mkState h [] ∅ false subscriber fs fault now [].

(** *** Primitive effects *)

(** Reading a field of the object at [l]. *)
Definition deref (l : loc) : Eff State Message :=
  fun s => match heap s !! l with
           | Some m => (Normal m, s)
           | None => (Throw "TypeError", s)
           end.

(** [message.f = v] *)
Definition assign (l : loc) (f : Message -> Message) : Eff State unit :=
  modify (fun s => set_heap (alter f l (heap s)) s).

Definition emit (name : string) (l : loc) (err : option string) : Eff State unit :=
  m <- deref l ;;
  modify (fun s => set_events (mkEvent name m err :: events s) s).

Definition fs_writeFile (name : string) (data : Message) : Eff State unit :=
  fun s => match fsFault s name with
           | Some code => (Throw code, s)
           | None => (Normal tt, set_files (<[name := data]> (files s)) s)
           end.

Definition fs_unlink (name : string) : Eff State unit :=
  fun s => match fsFault s name with
           | Some code => (Throw code, s)
           | None =>
               match files s !! name with
               | Some _ => (Normal tt, set_files (delete name (files s)) s)
               | None => (Throw "ENOENT", s)
               end
           end.

(** *** The methods *)

(** An [async] method is given here as the call run to its end with nothing
    else between its awaits: what it does when no other call and no timer
    comes in between. The module [Async] below has the same methods cut at
    their awaits, for what holds however the calls overlap. *)

(** [`${worktree || "default"}:${agentId}`]; the empty string is falsy too. *)
Definition getQueueKey (agentId : string) (worktree : option string) : string :=
  match worktree with
  | Some w => if String.eqb w "" then "default" else w
  | None => "default"
  end +:+ ":" +:+ agentId.

(** [createMessage]: a new object; [uuid] is what [crypto.randomUUID()]
    returns. The options are given with their defaults applied by the
    caller: priority [NORMAL], worktree [None], timeout 30000. *)
Definition createMessage (uuid type sourceAgentId targetAgentId payload : string)
    (priority : Z) (worktree : option string) (timeout : Z)
    (metadata : list (string * string)) : Eff State loc :=
  fun s =>
    let l := fresh (dom (heap s)) in
    let m := mkMessage uuid type sourceAgentId targetAgentId worktree payload
               priority PENDING (clock s) timeout 0 metadata None None None in
    (Normal l, set_heap (<[l := m]> (heap s)) s).

(** [persistMessage]: a failed write is logged and swallowed. *)
Definition persistMessage (l : loc) : Eff State unit :=
  try_catch (m <- deref l ;; fs_writeFile (id m) m) (fun _ => ret tt).

(** [deletePersistedMessage]: a failed unlink is swallowed, logged unless it
    is [ENOENT]. *)
Definition deletePersistedMessage (messageId : string) : Eff State unit :=
  try_catch (fs_unlink messageId) (fun _ => ret tt).

(** [this.emit("message:send", message)]: the listener runs, and the call
    returns what [EventEmitter.emit] returns, whether the event had a
    listener, unless the listener throws. *)
Definition emitSend (m : Message) : Eff State bool :=
  outcome <- gets (fun s => onSend s m) ;;
  match outcome with
  | Raised e => throw e
  | Accepted | Declined => ret true
  end.

(** [result.delivered] for the boolean that [emit] returns: a boolean has no
    such property, the read gives [undefined]. *)
Definition delivered_of (result : bool) : bool := false.

(** [deliverMessage], run with nothing else between its awaits: announce,
    emit to the subscriber, and when [result && result.delivered] holds mark
    the message delivered, write it, unlink its file and announce that. *)
Definition deliverMessage (l : loc) : Eff State bool :=
  try_catch
    (emit "message:delivering" l None ;;
     m <- deref l ;;
     result <- emitSend m ;;
     if result && delivered_of result then
       assign l (set_status DELIVERED) ;;
       now <- gets clock ;;
       assign l (set_deliveredAt now) ;;
       persistMessage l ;;
       deletePersistedMessage (id m) ;;
       emit "message:delivered" l None ;;
       ret true
     else ret false)
    (fun e =>
       assign l (set_error e) ;;
       persistMessage l ;;
       emit "message:error" l (Some e) ;;
       ret false).

Definition queueOf (queueKey : string) (s : State) : list loc :=
  default [] (map_get queueKey (messageQueues s)).

(** [queue.shift()] on the array stored under [queueKey]. *)
Definition shift (queueKey : string) : Eff State unit :=
  modify (fun s =>
    set_messageQueues (map_set queueKey (tail (queueOf queueKey s)) (messageQueues s)) s).

Definition isLive (st : Status) : bool :=
  match st with PENDING | RETRYING => true | _ => false end.

(** The body of the [for] loop of [processQueue] for one entry of the map,
    with nothing else between its awaits. The result is [(progress, stop)]:
    whether [processed] was set, and whether the body left the loop with
    [break]. *)
Definition drainQueue (queueKey : string) : Eff State (bool * bool) :=
  queue <- gets (queueOf queueKey) ;;
  match queue with
  | [] => ret (false, false)
  | l :: _ =>
      m <- deref l ;;
      if negb (isLive (status m)) then
        shift queueKey ;; ret (true, false)
      else
        success <- deliverMessage l ;;
        m <- deref l ;;
        if success then
          shift queueKey ;; ret (true, false)
        else if (MAX_RETRIES <=? retryCount m)%nat then
          assign l (set_status FAILED) ;;
          assign l (set_error "Max retries exceeded") ;;
          persistMessage l ;;
          emit "message:failed" l None ;;
          shift queueKey ;;
          ret (true, false)
        else
          assign l (set_status RETRYING) ;;
          assign l (set_retryCount (S (retryCount m))) ;;
          persistMessage l ;;
          let delay := (RETRY_DELAY_MS * 2 ^ (S (retryCount m) - 1))%nat in
          armed <- gets (fun s => bool_decide (is_Some (retryTimers s !! id m))) ;;
          when (negb armed)
            (modify (fun s =>
               set_retryTimers (<[id m := mkTimer delay l]> (retryTimers s)) s)) ;;
          ret (false, true)
  end.

(** The callback of a retry timer, run when the timer [messageId] fires. *)
Definition fireTimer (messageId : string) : Eff State unit :=
  timer <- gets (fun s => retryTimers s !! messageId) ;;
  match timer with
  | None => ret tt
  | Some t =>
      m <- deref (target t) ;;
      modify (fun s => set_retryTimers (delete (id m) (retryTimers s)) s) ;;
      assign (target t) (set_status PENDING)
  end.

(** One pass of the [for] loop over the entries, in insertion order. *)
Fixpoint drainPass (keys : list string) (processed : bool) : Eff State bool :=
  match keys with
  | [] => ret processed
  | queueKey :: keys' =>
      r <- drainQueue queueKey ;;
      if snd r then ret (processed || fst r)
      else drainPass keys' (processed || fst r)
  end.

(** The [while] loop, at most [fuel] passes; the result tells whether the
    loop was left. *)
Fixpoint processLoop (fuel : nat) : Eff State bool :=
  match fuel with
  | 0 => ret false
  | S fuel' =>
      running <- gets isProcessing ;;
      if running then
        keys <- gets (fun s => map_keys (messageQueues s)) ;;
        processed <- drainPass keys false ;;
        if processed then processLoop fuel'
        else modify (set_isProcessing false) ;; ret true
      else ret true
  end.

(** The number of queued entries: every pass but the last removes one. *)
Definition backlog (s : State) : nat :=
  list_sum (map (fun e => length (snd e)) (messageQueues s)).

Definition processQueue : Eff State bool :=
  fuel <- gets (fun s => S (backlog s)) ;;
  processLoop fuel.

(** [startProcessing] together with the drain it starts, up to the end of
    that drain. The code drops the promise of [processQueue]: the method
    itself returns when the drain has come to its first await, as
    [Async.startProcessing] has it. *)
Definition startProcessing : Eff State unit :=
  running <- gets isProcessing ;;
  if running then ret tt
  else modify (set_isProcessing true) ;; processQueue ;; ret tt.

(** [(a, b) => a.priority - b.priority] on the objects of heap [h]. *)
Definition priorityOf (h : gmap loc Message) (l : loc) : Z :=
  match h !! l with Some m => priority m | None => 0 end.

Definition byPriority (h : gmap loc Message) (a b : loc) : Z :=
  (priorityOf h a - priorityOf h b)%Z.

(** [send] up to and including [emit("message:queued")]. *)
Definition enqueue (l : loc) : Eff State unit :=
  m <- deref l ;;
  let queueKey := getQueueKey (targetAgentId m) (worktree m) in
  present <- gets (fun s => map_has queueKey (messageQueues s)) ;;
  when (negb present)
    (modify (fun s => set_messageQueues (map_set queueKey [] (messageQueues s)) s)) ;;
  queue <- gets (queueOf queueKey) ;;
  if (MAX_QUEUE_SIZE <=? length queue)%nat then
    throw ("Message queue full for agent " +:+ targetAgentId m)
  else
    modify (fun s =>
      set_messageQueues
        (map_set queueKey (array_sort (byPriority (heap s)) (queue ++ [l]))
           (messageQueues s)) s) ;;
    persistMessage l ;;
    emit "message:queued" l None.

(** [send] together with the drain it starts, up to the end of that
    drain. *)
Definition send (l : loc) : Eff State loc :=
  enqueue l ;;
  startProcessing ;;
  ret l.

(** [queue.find((m) => m.id === messageId)] in the first queue that has one. *)
Definition findInQueue (h : gmap loc Message) (messageId : string) (queue : list loc)
    : option loc :=
  List.find (fun l => match h !! l with
                      | Some m => String.eqb (id m) messageId
                      | None => false
                      end) queue.

Fixpoint findMessage (h : gmap loc Message) (messageId : string)
    (queues : list (string * list loc)) : option loc :=
  match queues with
  | [] => None
  | (_, queue) :: queues' =>
      match findInQueue h messageId queue with
      | Some l => Some l
      | None => findMessage h messageId queues'
      end
  end.

Definition clearRetryTimer (messageId : string) : Eff State unit :=
  modify (fun s => set_retryTimers (delete messageId (retryTimers s)) s).

Definition markDelivered (messageId : string) : Eff State (option loc) :=
  clearRetryTimer messageId ;;
  found <- gets (fun s => findMessage (heap s) messageId (messageQueues s)) ;;
  match found with
  | Some l =>
      assign l (set_status DELIVERED) ;;
      now <- gets clock ;;
      assign l (set_deliveredAt now) ;;
      persistMessage l ;;
      deletePersistedMessage messageId ;;
      emit "message:delivered" l None ;;
      ret (Some l)
  | None => ret None
  end.

(** [error] is [error?.message]: [None] when no error or no message is given. *)
Definition markFailed (messageId : string) (error : option string)
    : Eff State (option loc) :=
  clearRetryTimer messageId ;;
  found <- gets (fun s => findMessage (heap s) messageId (messageQueues s)) ;;
  match found with
  | Some l =>
      assign l (set_status FAILED) ;;
      assign l (set_error (match error with
                           | Some e => if String.eqb e "" then "Unknown error" else e
                           | None => "Unknown error"
                           end)) ;;
      now <- gets clock ;;
      assign l (set_failedAt now) ;;
      persistMessage l ;;
      emit "message:failed" l error ;;
      ret (Some l)
  | None => ret None
  end.

(** *** Running the primitives *)

Lemma deref_Some l m s : heap s !! l = Some m -> deref l s = (Normal m, s).
Proof. unfold deref. by intros ->. Qed.

Local Arguments Nat.leb : simpl never.
Local Arguments Nat.pow : simpl never.
Local Arguments Nat.mul : simpl never.

(** *** What the operations leave alone *)

(** The fields of a message no method assigns. *)
Definition static (m : Message) : string * string * option string * Z :=
  (id m, targetAgentId m, worktree m, priority m).

Definition sameObjects (s s' : State) : Prop :=
  forall l, static <$> (heap s' !! l) = static <$> (heap s !! l).

Definition queuesShrink (s s' : State) : Prop :=
  forall k, queueOf k s' `suffix_of` queueOf k s.

(** What every step of the drain loop, every timer and both [mark] methods
    guarantee: objects keep their static fields and queues only lose heads. *)
Definition drains (s s' : State) : Prop := sameObjects s s' /\ queuesShrink s s'.

#[local] Instance drains_preorder : PreOrder drains.
Proof.
  split.
  - intros s. split; [done|]. intros k. done.
  - intros s1 s2 s3 [H1 H1'] [H2 H2']. split.
    + intros l. by rewrite H2, H1.
    + intros k. etransitivity; [apply H2'|apply H1'].
Qed.

Lemma drains_same_queues s s' :
  (forall l, static <$> (heap s' !! l) = static <$> (heap s !! l)) ->
  messageQueues s' = messageQueues s -> drains s s'.
Proof.
  intros Hh Hq. split; [done|]. intros k. unfold queueOf. by rewrite Hq.
Qed.

Lemma drains_deref l : respects drains (deref l).
Proof. intros s. unfold deref. destruct (heap s !! l); simpl; reflexivity. Qed.

Lemma drains_assign l f :
  (forall m, static (f m) = static m) -> respects drains (assign l f).
Proof.
  intros Hf s. apply drains_same_queues; [|done]. intros l'. simpl.
  destruct (decide (l = l')) as [->|Hne].
  - rewrite lookup_alter_eq. destruct (heap s !! l'); simpl; [|done]. by rewrite Hf.
  - by rewrite lookup_alter_ne.
Qed.

Lemma drains_emit name l err : respects drains (emit name l err).
Proof.
  unfold emit. respects_step; [apply drains_deref|].
  apply respects_modify. intros s. by apply drains_same_queues.
Qed.

Lemma drains_fs_writeFile name data : respects drains (fs_writeFile name data).
Proof.
  intros s. unfold fs_writeFile. destruct (fsFault s name); simpl; [reflexivity|].
  by apply drains_same_queues.
Qed.

Lemma drains_fs_unlink name : respects drains (fs_unlink name).
Proof.
  intros s. unfold fs_unlink.
  destruct (fsFault s name); simpl; [reflexivity|].
  destruct (files s !! name); simpl; [|reflexivity].
  by apply drains_same_queues.
Qed.

Lemma drains_persistMessage l : respects drains (persistMessage l).
Proof.
  unfold persistMessage. repeat respects_step.
  - apply drains_deref.
  - apply drains_fs_writeFile.
Qed.

Lemma drains_deletePersistedMessage i : respects drains (deletePersistedMessage i).
Proof. unfold deletePersistedMessage. repeat respects_step. apply drains_fs_unlink. Qed.

Lemma drains_set_retryTimers (f : State -> gmap string Timer) :
  respects drains (modify (fun s => set_retryTimers (f s) s)).
Proof. apply respects_modify. intros s. by apply drains_same_queues. Qed.

Lemma drains_set_isProcessing b : respects drains (modify (set_isProcessing b)).
Proof. apply respects_modify. intros s. by apply drains_same_queues. Qed.

Lemma queueOf_has k s :
  queueOf k s <> [] -> map_has k (messageQueues s) = true.
Proof.
  unfold queueOf, map_has. destruct (map_get k (messageQueues s)); simpl; congruence.
Qed.

Lemma queueOf_set_eq k q s :
  queueOf k (set_messageQueues (map_set k q (messageQueues s)) s) = q.
Proof. unfold queueOf. simpl. by rewrite map_get_set_eq. Qed.

Lemma queueOf_set_ne k k' q s :
  k <> k' -> queueOf k' (set_messageQueues (map_set k q (messageQueues s)) s) = queueOf k' s.
Proof. intros H. unfold queueOf. simpl. by rewrite map_get_set_ne. Qed.

Lemma drains_shift k : respects drains (shift k).
Proof.
  apply respects_modify. intros s. split; [done|]. intros k'.
  destruct (decide (k = k')) as [->|Hne].
  - rewrite queueOf_set_eq. destruct (queueOf k' s); simpl; [done|].
    by apply suffix_cons_r.
  - by rewrite queueOf_set_ne.
Qed.

Create HintDb drains.
#[local] Hint Resolve drains_deref drains_emit drains_persistMessage
  drains_deletePersistedMessage drains_set_retryTimers drains_set_isProcessing
  drains_shift drains_assign : drains.

Ltac drains_auto :=
  repeat first
    [ respects_step
    | solve [ auto with drains ]
    | apply drains_assign; intros []; reflexivity ].

Lemma drains_emitSend m : respects drains (emitSend m).
Proof. unfold emitSend. drains_auto. Qed.

Lemma drains_deliverMessage l : respects drains (deliverMessage l).
Proof. pose proof drains_emitSend. unfold deliverMessage. drains_auto. Qed.

Lemma drains_drainQueue k : respects drains (drainQueue k).
Proof.
  pose proof drains_deliverMessage. unfold drainQueue. drains_auto.
Qed.

Lemma drains_drainPass keys processed : respects drains (drainPass keys processed).
Proof.
  revert processed. induction keys as [|k keys IH]; intros processed; simpl.
  - drains_auto.
  - pose proof drains_drainQueue. drains_auto.
Qed.

Lemma drains_processLoop fuel : respects drains (processLoop fuel).
Proof.
  induction fuel as [|fuel IH]; simpl.
  - drains_auto.
  - pose proof drains_drainPass. drains_auto.
Qed.

Lemma drains_processQueue : respects drains processQueue.
Proof. pose proof drains_processLoop. unfold processQueue. drains_auto. Qed.

Lemma drains_startProcessing : respects drains startProcessing.
Proof. pose proof drains_processQueue. unfold startProcessing. drains_auto. Qed.

Lemma drains_fireTimer i : respects drains (fireTimer i).
Proof. unfold fireTimer. drains_auto. Qed.

Lemma drains_markDelivered i : respects drains (markDelivered i).
Proof. unfold markDelivered, clearRetryTimer. drains_auto. Qed.

Lemma drains_markFailed i e : respects drains (markFailed i e).
Proof. unfold markFailed, clearRetryTimer. drains_auto. Qed.

(** [enqueue] either throws and leaves the queues as they are, or puts the
    message into the queue of its key by a stable sort. *)
Definition keyOf (h : gmap loc Message) (l : loc) : option string :=
  (fun m => getQueueKey (targetAgentId m) (worktree m)) <$> h !! l.

Lemma sameObjects_priorityOf s s' l :
  sameObjects s s' -> priorityOf (heap s') l = priorityOf (heap s) l.
Proof.
  intros H. specialize (H l). unfold priorityOf.
  destruct (heap s' !! l), (heap s !! l); simpl in *; try done.
  unfold static in H. congruence.
Qed.

Lemma sameObjects_keyOf s s' l :
  sameObjects s s' -> keyOf (heap s') l = keyOf (heap s) l.
Proof.
  intros H. specialize (H l). unfold keyOf.
  destruct (heap s' !! l), (heap s !! l); simpl in *; try done.
  unfold static in H. congruence.
Qed.

Lemma queueOf_set_empty k k' s :
  map_has k (messageQueues s) = false ->
  queueOf k' (set_messageQueues (map_set k [] (messageQueues s)) s) = queueOf k' s.
Proof.
  intros H. destruct (decide (k = k')) as [->|Hne].
  - rewrite queueOf_set_eq. unfold queueOf. unfold map_has in H.
    by destruct (map_get k' (messageQueues s)).
  - by rewrite queueOf_set_ne.
Qed.


Lemma map_set_set {V} k (v v' : V) m : map_set k v (map_set k v' m) = map_set k v m.
Proof.
  induction m as [|[k0 v0] m IH]; simpl.
  - by rewrite String.eqb_refl.
  - destruct (String.eqb k k0) eqn:E; simpl.
    + by rewrite String.eqb_refl.
    + by rewrite E, IH.
Qed.

Definition persisted (l : loc) (s : State) : State :=
  match heap s !! l with
  | Some m =>
      match fsFault s (id m) with
      | None => set_files (<[id m := m]> (files s)) s
      | Some _ => s
      end
  | None => s
  end.

Lemma persistMessage_run l s : persistMessage l s = (Normal tt, persisted l s).
Proof.
  unfold persistMessage, persisted, try_catch, bind, deref, fs_writeFile.
  destruct (heap s !! l) as [m|]; [|done]. by destruct (fsFault s (id m)).
Qed.

Definition unlinked (messageId : string) (s : State) : State :=
  match fsFault s messageId with
  | None => set_files (delete messageId (files s)) s
  | Some _ => s
  end.

Lemma deletePersistedMessage_run i s :
  deletePersistedMessage i s = (Normal tt, unlinked i s).
Proof.
  unfold deletePersistedMessage, unlinked, try_catch, fs_unlink.
  destruct (fsFault s i); [done|].
  destruct (files s !! i) eqn:E; [done|].
  simpl. f_equal. destruct s; unfold set_files; simpl in *. f_equal.
  symmetry. by apply delete_id.
Qed.

Lemma emit_run name l err m s :
  heap s !! l = Some m ->
  emit name l err s = (Normal tt, set_events (mkEvent name m err :: events s) s).
Proof. intros H. unfold emit, bind. by rewrite (deref_Some _ _ _ H). Qed.

Definition enqueued (l : loc) (m : Message) (s : State) : State :=
  let key := getQueueKey (targetAgentId m) (worktree m) in
  let s1 := set_messageQueues
              (map_set key (array_sort (byPriority (heap s)) (queueOf key s ++ [l]))
                 (messageQueues s)) s in
  let s2 := persisted l s1 in
  set_events (mkEvent "message:queued" m None :: events s2) s2.

Lemma enqueue_run l m s :
  heap s !! l = Some m ->
  length (queueOf (getQueueKey (targetAgentId m) (worktree m)) s) < MAX_QUEUE_SIZE ->
  enqueue l s = (Normal tt, enqueued l m s).
Proof.
  intros Hl Hlen. unfold enqueue, enqueued.
  set (key := getQueueKey (targetAgentId m) (worktree m)) in *.
  unfold bind at 1. rewrite (deref_Some _ _ _ Hl). fold key.
  unfold bind at 1, gets at 1. unfold bind at 1.
  destruct (map_has key (messageQueues s)) eqn:Hhas; simpl negb; unfold when.
  - unfold ret at 1. unfold bind at 1, gets at 1.
    destruct (Nat.leb_spec MAX_QUEUE_SIZE (length (queueOf key s))); [lia|].
    unfold bind at 1, modify at 1. unfold bind at 1.
    rewrite persistMessage_run. apply emit_run.
    unfold persisted. simpl. rewrite Hl. by destruct (fsFault s (id m)).
  - unfold modify at 1. unfold bind at 1, gets at 1.
    rewrite queueOf_set_empty by done.
    destruct (Nat.leb_spec MAX_QUEUE_SIZE (length (queueOf key s))); [lia|].
    unfold bind at 1, modify at 1. unfold bind at 1.
    rewrite persistMessage_run.
    cbn [messageQueues set_messageQueues heap]. rewrite map_set_set.
    apply emit_run.
    unfold persisted. simpl. rewrite Hl. by destruct (fsFault s (id m)).
Qed.

Lemma enqueue_full l m s :
  heap s !! l = Some m ->
  MAX_QUEUE_SIZE <= length (queueOf (getQueueKey (targetAgentId m) (worktree m)) s) ->
  enqueue l s = (Throw ("Message queue full for agent " +:+ targetAgentId m), s).
Proof.
  intros Hl Hfull. unfold enqueue, bind.
  rewrite (deref_Some _ _ _ Hl). simpl.
  rewrite queueOf_has; simpl.
  - destruct (Nat.leb_spec MAX_QUEUE_SIZE
      (length (queueOf (getQueueKey (targetAgentId m) (worktree m)) s))); [done|lia].
  - intros E. rewrite E in Hfull. simpl in Hfull. unfold MAX_QUEUE_SIZE in Hfull. lia.
Qed.

Lemma enqueue_dangling l s :
  heap s !! l = None -> enqueue l s = (Throw "TypeError", s).
Proof. intros H. unfold enqueue, bind, deref. by rewrite H. Qed.

Lemma enqueue_queues l s :
  sameObjects s (snd (enqueue l s)) /\
  ((forall k, queueOf k (snd (enqueue l s)) = queueOf k s) \/
   exists key, keyOf (heap s) l = Some key /\
     queueOf key (snd (enqueue l s))
       = array_sort (byPriority (heap s)) (queueOf key s ++ [l]) /\
     forall k, k <> key -> queueOf k (snd (enqueue l s)) = queueOf k s).
Proof.
  destruct (heap s !! l) as [m|] eqn:Hl.
  - set (key := getQueueKey (targetAgentId m) (worktree m)).
    destruct (Nat.le_gt_cases MAX_QUEUE_SIZE (length (queueOf key s))) as [Hfull|Hroom].
    + rewrite (enqueue_full l m s Hl Hfull). simpl. split; [done|by left].
    + rewrite (enqueue_run l m s Hl Hroom). split.
      * intros l'. unfold enqueued, persisted. simpl. rewrite Hl.
        by destruct (fsFault s (id m)).
      * right. exists key. split; [unfold keyOf; by rewrite Hl|].
        assert (Hq : forall k, queueOf k (enqueued l m s)
                     = queueOf k (set_messageQueues
                         (map_set key (array_sort (byPriority (heap s)) (queueOf key s ++ [l]))
                            (messageQueues s)) s)).
        { intros k. unfold enqueued, persisted, queueOf. fold key. simpl. rewrite Hl.
          by destruct (fsFault s (id m)). }
        split.
        -- simpl. rewrite Hq. apply queueOf_set_eq.
        -- intros k Hk. simpl. rewrite Hq. by apply queueOf_set_ne.
  - rewrite (enqueue_dangling l s Hl). simpl. split; [done|by left].
Qed.

Lemma drains_send l s : drains (snd (enqueue l s)) (snd (send l s)).
Proof.
  unfold send. unfold bind at 1.
  destruct (enqueue l s) as [[[]|e] s1]; simpl; [|reflexivity].
  pose proof drains_startProcessing.
  assert (H1 : respects drains (startProcessing ;; ret l)) by drains_auto.
  apply H1.
Qed.

(** *** Histories *)

Inductive Call :=
| CallSend (l : loc)
| CallMarkDelivered (messageId : string)
| CallMarkFailed (messageId : string) (error : option string)
| TimerFires (messageId : string).

Definition perform (c : Call) (s : State) : State :=
  match c with
  | CallSend l => snd (send l s)
  | CallMarkDelivered i => snd (markDelivered i s)
  | CallMarkFailed i e => snd (markFailed i e s)
  | TimerFires i => snd (fireTimer i s)
  end.

Definition history (calls : list Call) (s : State) : State :=
  fold_left (fun s c => perform c s) calls s.

Definition byPriorityLe (h : gmap loc Message) (a b : loc) : Prop :=
  (priorityOf h a <= priorityOf h b)%Z.

Lemma byPriority_ext h h' :
  (forall l, priorityOf h' l = priorityOf h l) ->
  forall q, array_sort (byPriority h') q = array_sort (byKey (priorityOf h)) q.
Proof.
  intros H. assert (Hi : forall x q, sort_insert (byPriority h') x q
                                 = sort_insert (byKey (priorityOf h)) x q).
  { intros x q. induction q as [|y q IH]; simpl; [done|].
    rewrite IH. unfold byPriority at 1. unfold byKey at 1. by rewrite !H. }
  induction q as [|x q IH]; [done|].
  change (sort_insert (byPriority h') x (array_sort (byPriority h') q)
          = sort_insert (byKey (priorityOf h)) x (array_sort (byKey (priorityOf h)) q)).
  by rewrite Hi, IH.
Qed.

(** Three sends to one worker: the critical message overtakes, the two
    normal ones keep their order. *)
Definition exampleMessage (i target : string) (w : option string) (p : Z) : Message :=
  mkMessage i "task" "orchestrator" target w "{}" p PENDING 0 30000 0 [] None None None.

Definition exampleHeap : gmap loc Message :=
  list_to_map [(0, exampleMessage "a" "worker-1" None NORMAL);
               (1, exampleMessage "b" "worker-1" None CRITICAL);
               (2, exampleMessage "c" "worker-1" None NORMAL);
               (3, exampleMessage "d" "worker-1" (Some "default") HIGH)].

Definition exampleState : State :=
  constructor exampleHeap (fun _ => Declined) ∅ (fun _ => None) 0.

Example three_sends_order :
  queueOf "default:worker-1"
    (history [CallSend 0; CallSend 1; CallSend 2] exampleState) = [1; 0; 2].
Proof. vm_compute. reflexivity. Qed.

(** *** Capacity *)

(** C7. When the queue of the message's key already holds 1000 messages,
    [send] throws and the messenger is unchanged in every component: queues,
    persisted files, emitted events, timers and objects. *)
Theorem send_full_unchanged (s : State) (l : loc) (m : Message) :
  heap s !! l = Some m ->
  MAX_QUEUE_SIZE <= length (queueOf (getQueueKey (targetAgentId m) (worktree m)) s) ->
  send l s = (Throw ("Message queue full for agent " +:+ targetAgentId m), s).
Proof.
  intros Hl Hfull. unfold send. unfold bind at 1.
  by rewrite (enqueue_full l m s Hl Hfull).
Qed.

Definition fullState : State :=
  mkState exampleHeap [("default:worker-1", repeat 0 1000)] ∅ false
    (fun _ => Declined) ∅ (fun _ => None) 0 [].

Lemma send_full_unchanged_witness :
  send 0 fullState = (Throw "Message queue full for agent worker-1", fullState).
Proof.
  apply (send_full_unchanged fullState 0 (exampleMessage "a" "worker-1" None NORMAL)).
  - reflexivity.
  - apply Nat.leb_le. vm_compute. reflexivity.
Defined.

(** *** The default bucket *)

(** C10. A message with no worktree and a message whose worktree is the
    string "default" have the same queue key, so they share one queue: after
    the two are enqueued that queue holds both (next to what it held), it is
    their common capacity bound, and by C3 their common delivery order. *)
Theorem default_bucket_shared (s : State) (l1 l2 : loc) (m1 m2 : Message) :
  heap s !! l1 = Some m1 ->
  heap s !! l2 = Some m2 ->
  worktree m1 = None ->
  worktree m2 = Some "default" ->
  targetAgentId m2 = targetAgentId m1 ->
  let key := getQueueKey (targetAgentId m1) None in
  getQueueKey (targetAgentId m1) (Some "default") = key /\
  (length (queueOf key s) + 2 <= MAX_QUEUE_SIZE ->
   queueOf key (snd (enqueue l2 (snd (enqueue l1 s)))) ≡ₚ l1 :: l2 :: queueOf key s) /\
  (MAX_QUEUE_SIZE <= length (queueOf key s) ->
   completes (fst (send l1 s)) = false /\ completes (fst (send l2 s)) = false).
Proof.
  intros H1 H2 Hw1 Hw2 Ht key. split; [done|]. split.
  - intros Hroom.
    assert (Hk1 : getQueueKey (targetAgentId m1) (worktree m1) = key) by by rewrite Hw1.
    assert (Hk2 : getQueueKey (targetAgentId m2) (worktree m2) = key) by by rewrite Hw2, Ht.
    assert (Hq1 : queueOf key (snd (enqueue l1 s))
                  = array_sort (byPriority (heap s)) (queueOf key s ++ [l1])).
    { rewrite (enqueue_run l1 m1 s H1) by (rewrite Hk1; lia).
      unfold enqueued, persisted, queueOf. rewrite Hk1. simpl. rewrite H1.
      destruct (fsFault s (id m1)); simpl; by rewrite map_get_set_eq. }
    assert (Hh1 : heap (snd (enqueue l1 s)) = heap s).
    { rewrite (enqueue_run l1 m1 s H1) by (rewrite Hk1; lia).
      unfold enqueued, persisted. simpl. rewrite H1. by destruct (fsFault s (id m1)). }
    assert (Hlen : length (queueOf key (snd (enqueue l1 s))) = S (length (queueOf key s))).
    { rewrite Hq1. change (byPriority (heap s)) with (byKey (priorityOf (heap s))).
      rewrite array_sort_perm, length_app. simpl. lia. }
    rewrite (enqueue_run l2 m2 _) by (rewrite ?Hh1, ?Hk2; first [done|lia]).
    unfold enqueued at 1. unfold persisted, queueOf at 1. rewrite Hk2. simpl.
    rewrite Hh1, H2.
    assert (Hfin : forall q0 : list loc,
              default [] (map_get key (map_set key q0 (messageQueues (snd (enqueue l1 s))))) = q0).
    { intros q0. by rewrite map_get_set_eq. }
    destruct (fsFault (snd (enqueue l1 s)) (id m2)); simpl; rewrite Hfin.
    all: change (byPriority (heap s)) with (byKey (priorityOf (heap s))).
    all: rewrite array_sort_perm, Hq1.
    all: change (byPriority (heap s)) with (byKey (priorityOf (heap s))).
    all: rewrite array_sort_perm.
    all: rewrite <- !app_assoc; simpl; by rewrite Permutation_app_comm.
  - intros Hfull. unfold send. unfold bind at 1 3. split.
    + rewrite (enqueue_full l1 m1 s H1); [done|]. by rewrite Hw1.
    + rewrite (enqueue_full l2 m2 s H2); [done|]. by rewrite Hw2, Ht.
Qed.

Lemma default_bucket_shared_witness :
  let key := getQueueKey "worker-1" None in
  getQueueKey "worker-1" (Some "default") = key /\
  (length (queueOf key exampleState) + 2 <= MAX_QUEUE_SIZE ->
   queueOf key (snd (enqueue 3 (snd (enqueue 0 exampleState))))
     ≡ₚ 0 :: 3 :: queueOf key exampleState) /\
  (MAX_QUEUE_SIZE <= length (queueOf key exampleState) ->
   completes (fst (send 0 exampleState)) = false /\
   completes (fst (send 3 exampleState)) = false).
Proof.
  apply (default_bucket_shared exampleState 0 3
           (exampleMessage "a" "worker-1" None NORMAL)
           (exampleMessage "d" "worker-1" (Some "default") HIGH));
    reflexivity.
Defined.

(** *** The drain step in closed form *)

Definition announced (name : string) (l : loc) (err : option string) (s : State) : State :=
  match heap s !! l with
  | Some m => set_events (mkEvent name m err :: events s) s
  | None => s
  end.

Definition assigned (l : loc) (f : Message -> Message) (s : State) : State :=
  set_heap (alter f l (heap s)) s.

Definition shifted (queueKey : string) (s : State) : State :=
  set_messageQueues (map_set queueKey (tail (queueOf queueKey s)) (messageQueues s)) s.

Lemma emit_announced name l err s :
  is_Some (heap s !! l) -> emit name l err s = (Normal tt, announced name l err s).
Proof. intros [m H]. unfold announced. rewrite H. by apply emit_run. Qed.

Ltac state_cases :=
  intros; unfold announced, persisted, unlinked, assigned, shifted;
  repeat case_match; reflexivity.

Lemma heap_announced n l e s : heap (announced n l e s) = heap s.
Proof. state_cases. Qed.
Lemma heap_persisted l s : heap (persisted l s) = heap s.
Proof. state_cases. Qed.
Lemma heap_unlinked i s : heap (unlinked i s) = heap s.
Proof. state_cases. Qed.
Lemma heap_shifted k s : heap (shifted k s) = heap s.
Proof. state_cases. Qed.
Lemma heap_assigned l f s : heap (assigned l f s) = alter f l (heap s).
Proof. state_cases. Qed.

Lemma messageQueues_announced n l e s : messageQueues (announced n l e s) = messageQueues s.
Proof. state_cases. Qed.
Lemma messageQueues_persisted l s : messageQueues (persisted l s) = messageQueues s.
Proof. state_cases. Qed.
Lemma messageQueues_unlinked i s : messageQueues (unlinked i s) = messageQueues s.
Proof. state_cases. Qed.
Lemma messageQueues_assigned l f s : messageQueues (assigned l f s) = messageQueues s.
Proof. state_cases. Qed.

Lemma retryTimers_announced n l e s : retryTimers (announced n l e s) = retryTimers s.
Proof. state_cases. Qed.
Lemma retryTimers_persisted l s : retryTimers (persisted l s) = retryTimers s.
Proof. state_cases. Qed.
Lemma retryTimers_unlinked i s : retryTimers (unlinked i s) = retryTimers s.
Proof. state_cases. Qed.
Lemma retryTimers_assigned l f s : retryTimers (assigned l f s) = retryTimers s.
Proof. state_cases. Qed.
Lemma retryTimers_shifted k s : retryTimers (shifted k s) = retryTimers s.
Proof. state_cases. Qed.

Lemma fsFault_announced n l e s : fsFault (announced n l e s) = fsFault s.
Proof. state_cases. Qed.
Lemma fsFault_persisted l s : fsFault (persisted l s) = fsFault s.
Proof. state_cases. Qed.
Lemma fsFault_unlinked i s : fsFault (unlinked i s) = fsFault s.
Proof. state_cases. Qed.
Lemma fsFault_assigned l f s : fsFault (assigned l f s) = fsFault s.
Proof. state_cases. Qed.
Lemma fsFault_shifted k s : fsFault (shifted k s) = fsFault s.
Proof. state_cases. Qed.

Lemma clock_announced n l e s : clock (announced n l e s) = clock s.
Proof. state_cases. Qed.
Lemma clock_assigned l f s : clock (assigned l f s) = clock s.
Proof. state_cases. Qed.

Lemma files_announced n l e s : files (announced n l e s) = files s.
Proof. state_cases. Qed.
Lemma files_assigned l f s : files (assigned l f s) = files s.
Proof. state_cases. Qed.
Lemma files_shifted k s : files (shifted k s) = files s.
Proof. state_cases. Qed.

Lemma events_persisted l s : events (persisted l s) = events s.
Proof. state_cases. Qed.
Lemma events_unlinked i s : events (unlinked i s) = events s.
Proof. state_cases. Qed.
Lemma events_assigned l f s : events (assigned l f s) = events s.
Proof. state_cases. Qed.
Lemma events_shifted k s : events (shifted k s) = events s.
Proof. state_cases. Qed.

Lemma queueOf_eq s s' k : messageQueues s' = messageQueues s -> queueOf k s' = queueOf k s.
Proof. unfold queueOf. by intros ->. Qed.

Create Rewrite HintDb state.
#[local] Hint Rewrite heap_announced heap_persisted heap_unlinked heap_shifted heap_assigned
  messageQueues_announced messageQueues_persisted messageQueues_unlinked
  messageQueues_assigned retryTimers_announced retryTimers_persisted
  retryTimers_unlinked retryTimers_assigned retryTimers_shifted
  fsFault_announced fsFault_persisted fsFault_unlinked fsFault_assigned fsFault_shifted
  clock_announced clock_assigned files_announced files_assigned files_shifted
  events_persisted events_unlinked events_assigned events_shifted : state.

(** The state in which a delivery attempt that did not succeed leaves the
    messenger: announced, and with the error recorded if the subscriber threw. *)
Definition undelivered (l : loc) (m : Message) (s : State) : State :=
  match onSend s m with
  | Raised e =>
      announced "message:error" l (Some e)
        (persisted l (assigned l (set_error e) (announced "message:delivering" l None s)))
  | _ => announced "message:delivering" l None s
  end.

Lemma is_Some_alter (f : Message -> Message) l (h : gmap loc Message) :
  is_Some (h !! l) -> is_Some (alter f l h !! l).
Proof. intros [m H]. rewrite lookup_alter_eq, H. by eexists. Qed.

Lemma deliverMessage_run l m s :
  heap s !! l = Some m ->
  deliverMessage l s = (Normal false, undelivered l m s).
Proof.
  intros Hl. assert (Hs : is_Some (heap s !! l)) by by eexists.
  unfold deliverMessage, undelivered, try_catch.
  unfold bind at 1. rewrite emit_announced by done.
  unfold bind at 1. rewrite deref_Some with (m := m) by by rewrite heap_announced.
  unfold bind at 1, emitSend at 1. unfold bind at 1, gets at 1.
  replace (onSend (announced "message:delivering" l None s) m) with (onSend s m)
    by (unfold announced; by rewrite Hl).
  destruct (onSend s m) as [| |e].
  - done.
  - done.
  - unfold throw. unfold bind at 1. unfold assign at 1, modify at 1.
    match goal with |- context [set_heap (alter ?f l (heap ?x)) ?x] =>
      fold (assigned l f x) end.
    unfold bind at 1. rewrite persistMessage_run.
    unfold bind at 1. rewrite emit_announced; [done|].
    autorewrite with state. by apply is_Some_alter.
Qed.

Definition gaveUp (queueKey : string) (l : loc) (m : Message) (s : State) : State :=
  shifted queueKey
    (announced "message:failed" l None
       (persisted l
          (assigned l (set_error "Max retries exceeded")
             (assigned l (set_status FAILED) (undelivered l m s))))).

Definition retried (l : loc) (m : Message) (s : State) : State :=
  let s1 := persisted l
              (assigned l (set_retryCount (S (retryCount m)))
                 (assigned l (set_status RETRYING) (undelivered l m s))) in
  if bool_decide (is_Some (retryTimers s !! id m)) then s1
  else set_retryTimers
         (<[id m := mkTimer (RETRY_DELAY_MS * 2 ^ retryCount m) l]>
            (retryTimers s1)) s1.

Lemma heap_undelivered l m s :
  heap s !! l = Some m ->
  heap (undelivered l m s) !! l
  = Some (match onSend s m with Raised e => set_error e m | _ => m end).
Proof.
  intros Hl. unfold undelivered.
  destruct (onSend s m); autorewrite with state; [done|done|].
  by rewrite lookup_alter_eq, Hl.
Qed.

Lemma retryTimers_undelivered l m s : retryTimers (undelivered l m s) = retryTimers s.
Proof. unfold undelivered. destruct (onSend s m); by autorewrite with state. Qed.

Lemma messageQueues_undelivered l m s : messageQueues (undelivered l m s) = messageQueues s.
Proof. unfold undelivered. destruct (onSend s m); by autorewrite with state. Qed.

Lemma fsFault_undelivered l m s : fsFault (undelivered l m s) = fsFault s.
Proof. unfold undelivered. destruct (onSend s m); by autorewrite with state. Qed.

Ltac fold_assigned :=
  repeat match goal with
    | |- context [set_heap (alter ?f ?l (heap ?x)) ?x] => fold (assigned l f x)
    end.

Lemma drainQueue_run k l q m s :
  queueOf k s = l :: q ->
  heap s !! l = Some m ->
  drainQueue k s =
    if negb (isLive (status m)) then (Normal (true, false), shifted k s)
    else if (MAX_RETRIES <=? retryCount m)%nat
         then (Normal (true, false), gaveUp k l m s)
         else (Normal (false, true), retried l m s).
Proof.
  intros Hq Hl. unfold drainQueue.
  unfold bind at 1, gets at 1. rewrite Hq.
  unfold bind at 1. rewrite (deref_Some _ _ _ Hl).
  destruct (negb (isLive (status m))); [done|].
  unfold bind at 1. rewrite (deliverMessage_run l m s Hl).
  pose proof (heap_undelivered l m s Hl) as Hu.
  unfold bind at 1. rewrite (deref_Some _ _ _ Hu).
  set (m' := match onSend s m with Raised e => set_error e m | _ => m end) in *.
  assert (Hrc : retryCount m' = retryCount m) by (subst m'; by destruct (onSend s m)).
  assert (Hid : id m' = id m) by (subst m'; by destruct (onSend s m)).
  rewrite Hrc, Hid.
  destruct (MAX_RETRIES <=? retryCount m)%nat.
  - unfold bind at 1, assign at 1, modify at 1. fold_assigned.
    unfold bind at 1, assign at 1, modify at 1. fold_assigned.
    unfold bind at 1. rewrite persistMessage_run.
    unfold bind at 1. rewrite emit_announced.
    + unfold bind at 1, shift, modify.
      by fold (shifted k (announced "message:failed" l None
             (persisted l (assigned l (set_error "Max retries exceeded")
                (assigned l (set_status FAILED) (undelivered l m s)))))).
    + autorewrite with state. do 2 apply is_Some_alter. by eexists.
  - unfold bind at 1, assign at 1, modify at 1. fold_assigned.
    unfold bind at 1, assign at 1, modify at 1. fold_assigned.
    unfold bind at 1. rewrite persistMessage_run.
    unfold bind at 1, gets at 1. unfold retried.
    autorewrite with state. rewrite retryTimers_undelivered.
    destruct (bool_decide (is_Some (retryTimers s !! id m))); simpl; [done|].
    unfold bind, modify, ret. autorewrite with state.
    by rewrite retryTimers_undelivered, Nat.sub_0_r.
Qed.

Lemma queueOf_shifted k s s0 :
  messageQueues s = messageQueues s0 ->
  queueOf k (shifted k s) = tail (queueOf k s0).
Proof.
  intros H. unfold shifted. rewrite queueOf_set_eq. by rewrite (queueOf_eq s0 s).
Qed.

Lemma files_persisted l m s :
  heap s !! l = Some m -> fsFault s (id m) = None ->
  files (persisted l s) = <[id m := m]> (files s).
Proof. intros Hl Hf. unfold persisted. by rewrite Hl, Hf. Qed.

Lemma files_unlinked i s :
  fsFault s i = None -> files (unlinked i s) = delete i (files s).
Proof. intros Hf. unfold unlinked. by rewrite Hf. Qed.

Lemma events_announced n l e m s :
  heap s !! l = Some m -> events (announced n l e s) = mkEvent n m e :: events s.
Proof. intros Hl. unfold announced. by rewrite Hl. Qed.

Lemma markDelivered_run i l s :
  findMessage (heap s) i (messageQueues s) = Some l ->
  is_Some (heap s !! l) ->
  markDelivered i s =
    (Normal (Some l),
     announced "message:delivered" l None
       (unlinked i
          (persisted l
             (assigned l (set_deliveredAt (clock s))
                (assigned l (set_status DELIVERED)
                   (set_retryTimers (delete i (retryTimers s)) s)))))).
Proof.
  intros Hfind Hl. unfold markDelivered, clearRetryTimer.
  unfold bind at 1, modify at 1. unfold bind at 1, gets at 1.
  cbn [heap messageQueues set_retryTimers]. rewrite Hfind.
  unfold bind at 1, assign at 1, modify at 1. fold_assigned.
  unfold bind at 1, gets at 1. unfold bind at 1, assign at 1, modify at 1. fold_assigned.
  unfold bind at 1. rewrite persistMessage_run.
  unfold bind at 1. rewrite deletePersistedMessage_run.
  unfold bind at 1. rewrite emit_announced; [done|].
  autorewrite with state. by do 2 apply is_Some_alter.
Qed.

Definition errorText (error : option string) : string :=
  match error with
  | Some e => if String.eqb e "" then "Unknown error" else e
  | None => "Unknown error"
  end.

Lemma markFailed_run i e l s :
  findMessage (heap s) i (messageQueues s) = Some l ->
  is_Some (heap s !! l) ->
  markFailed i e s =
    (Normal (Some l),
     announced "message:failed" l e
       (persisted l
          (assigned l (set_failedAt (clock s))
             (assigned l (set_error (errorText e))
                (assigned l (set_status FAILED)
                   (set_retryTimers (delete i (retryTimers s)) s)))))).
Proof.
  intros Hfind Hl. unfold markFailed, clearRetryTimer.
  unfold bind at 1, modify at 1. unfold bind at 1, gets at 1.
  cbn [heap messageQueues set_retryTimers]. rewrite Hfind.
  unfold bind at 1, assign at 1, modify at 1. fold_assigned.
  unfold bind at 1, assign at 1, modify at 1. fold_assigned.
  unfold bind at 1, gets at 1. unfold bind at 1, assign at 1, modify at 1. fold_assigned.
  unfold bind at 1. rewrite persistMessage_run.
  unfold bind at 1. rewrite emit_announced; [done|].
  autorewrite with state. by do 3 apply is_Some_alter.
Qed.

(** *** The drain loop ends *)

Lemma backlog_set k (q q' : list loc) (mq : list (string * list loc)) :
  map_get k mq = Some q ->
  list_sum (map (fun e => length (snd e)) (map_set k q' mq)) + length q
  = list_sum (map (fun e => length (snd e)) mq) + length q'.
Proof.
  induction mq as [|[k0 q0] mq IH]; simpl; [done|].
  destruct (String.eqb k k0); simpl.
  - intros [= ->]. lia.
  - intros H. specialize (IH H). lia.
Qed.

Lemma queueOf_nonempty k s l q :
  queueOf k s = l :: q -> map_get k (messageQueues s) = Some (l :: q).
Proof. unfold queueOf. destruct (map_get k (messageQueues s)); simpl; congruence. Qed.

Lemma backlog_shifted k l q s s0 :
  messageQueues s = messageQueues s0 ->
  queueOf k s0 = l :: q ->
  backlog (shifted k s) + 1 = backlog s0.
Proof.
  intros Hmq Hq. unfold backlog, shifted. cbn [messageQueues set_messageQueues].
  rewrite (queueOf_eq s0 s k Hmq), Hq, Hmq. simpl tail.
  pose proof (backlog_set k (l :: q) q (messageQueues s0) (queueOf_nonempty _ _ _ _ Hq)) as H.
  simpl in H. lia.
Qed.

Lemma backlog_eq s s' : messageQueues s' = messageQueues s -> backlog s' = backlog s.
Proof. unfold backlog. by intros ->. Qed.

(** Every object in a queue exists. *)
Definition queuesAllocated (s : State) : Prop :=
  forall k l, l ∈ queueOf k s -> is_Some (heap s !! l).

Lemma queuesAllocated_drains s s' : drains s s' -> queuesAllocated s -> queuesAllocated s'.
Proof.
  intros [Hobj Hshr] Hwf k l Hin.
  destruct (Hshr k) as [pre Hpre].
  assert (Hl : is_Some (heap s !! l)).
  { apply (Hwf k). rewrite Hpre. apply elem_of_app. by right. }
  specialize (Hobj l). destruct Hl as [m Hm]. rewrite Hm in Hobj.
  destruct (heap s' !! l); [by eexists|done].
Qed.

Lemma drainQueue_progress k s :
  queuesAllocated s ->
  exists p b, fst (drainQueue k s) = Normal (p, b) /\
    backlog (snd (drainQueue k s)) + (if p then 1 else 0) = backlog s.
Proof.
  intros Hwf. destruct (queueOf k s) as [|l q] eqn:Hq.
  - exists false, false. unfold drainQueue, bind, gets. rewrite Hq. simpl. split; [done|lia].
  - destruct (Hwf k l) as [m Hl]; [rewrite Hq; by left|].
    rewrite (drainQueue_run k l q m s Hq Hl).
    destruct (negb (isLive (status m))).
    { exists true, false. cbn [fst snd]. split; [done|].
      by apply (backlog_shifted k l q). }
    destruct (MAX_RETRIES <=? retryCount m)%nat.
    + exists true, false. cbn [fst snd]. split; [done|]. unfold gaveUp.
      apply (backlog_shifted k l q); [|done].
      autorewrite with state. apply messageQueues_undelivered.
    + exists false, true. cbn [fst snd]. split; [done|]. rewrite Nat.add_0_r.
      apply backlog_eq. unfold retried.
      destruct (bool_decide _); simpl; autorewrite with state;
        apply messageQueues_undelivered.
Qed.

Lemma drainPass_progress keys processed s :
  queuesAllocated s ->
  exists p, fst (drainPass keys processed s) = Normal p /\
    backlog (snd (drainPass keys processed s)) <= backlog s /\
    (p = true -> processed = true \/ backlog (snd (drainPass keys processed s)) < backlog s).
Proof.
  revert processed s. induction keys as [|k keys IH]; intros processed s Hwf.
  - exists processed. simpl. split; [done|]. split; [done|]. by left.
  - simpl. unfold bind.
    destruct (drainQueue_progress k s Hwf) as (p & b & Hr & Hb).
    pose proof (drains_drainQueue k s) as Hd.
    destruct (drainQueue k s) as [r s1]. simpl in Hr, Hb, Hd. subst r. simpl.
    destruct b.
    + exists (processed || p). simpl. split; [done|]. split; [destruct p; lia|].
      destruct processed, p; simpl; intros; first [by left | right; lia | done].
    + destruct (IH (processed || p) s1) as (p' & Hr' & Hle & Hp').
      { by apply (queuesAllocated_drains s). }
      exists p'. split; [done|]. split; [destruct p; lia|].
      intros ->. destruct (Hp' eq_refl) as [Hor|Hlt].
      * destruct processed, p; simpl in *; first [by left | right; lia | done].
      * right. destruct p; lia.
Qed.

Lemma processLoop_exits fuel s :
  queuesAllocated s -> backlog s < fuel ->
  exists s', processLoop fuel s = (Normal true, s') /\ isProcessing s' = false.
Proof.
  revert s. induction fuel as [|fuel IH]; intros s Hwf Hlt; [lia|].
  simpl. unfold bind at 1, gets at 1.
  destruct (isProcessing s) eqn:Hrun; [|by exists s].
  unfold bind at 1, gets at 1. unfold bind at 1.
  destruct (drainPass_progress (map_keys (messageQueues s)) false s Hwf)
    as (p & Hr & Hle & Hp).
  pose proof (drains_drainPass (map_keys (messageQueues s)) false s) as Hd.
  destruct (drainPass (map_keys (messageQueues s)) false s) as [r s1].
  simpl in Hr, Hle, Hp, Hd. subst r. destruct p.
  - apply IH; [by apply (queuesAllocated_drains s)|].
    destruct (Hp eq_refl); [done|lia].
  - by eexists.
Qed.

(** With every queued object allocated, [processQueue] neither throws nor
    runs out of passes: it leaves the loop, with [isProcessing] false. *)
Lemma processQueue_exits s :
  queuesAllocated s ->
  exists s', processQueue s = (Normal true, s') /\ isProcessing s' = false.
Proof.
  intros Hwf. unfold processQueue, bind, gets. apply processLoop_exits; [done|lia].
Qed.

(** *** The theorems at work *)

(** "a" was sent to a subscriber that declines: one failed attempt, one
    retry timer of 1000 ms, the message still at the head. *)
Definition retryingState : State := snd (send 0 exampleState).

Example retryingState_shape :
  queueOf "default:worker-1" retryingState = [0] /\
  (status <$> heap retryingState !! 0) = Some RETRYING /\
  (retryCount <$> heap retryingState !! 0) = Some 1 /\
  retryTimers retryingState = {[ "a" := mkTimer 1000 0 ]} /\
  isProcessing retryingState = false.
Proof. vm_compute. repeat split; reflexivity. Qed.

(** The claim's timer is not armed when one is pending: the second attempt
    on "a", made while the first timer has not fired, is the step of C2 with
    retry count 1, and it leaves the timer of 1000 ms; no timer of
    1000 * 2^1 ms exists afterwards. The state is the one [send 2] drains. *)
Lemma retry_timer_not_rearmed :
  let k := "default:worker-1" in
  let s := snd (enqueue 2 retryingState) in
  let s' := snd (drainQueue k s) in
  queueOf k s = [0; 2] /\
  (exists m, heap s !! 0 = Some m /\ isLive (status m) = true /\
             onSend s m = Declined /\ retryCount m = 1 /\ retryCount m < MAX_RETRIES) /\
  (status <$> heap s' !! 0) = Some RETRYING /\
  (retryCount <$> heap s' !! 0) = Some 2 /\
  retryTimers s' = {[ "a" := mkTimer 1000 0 ]} /\
  forall i t, retryTimers s' !! i = Some t -> delay t <> RETRY_DELAY_MS * 2 ^ 1.
Proof.
  intros k s s'.
  assert (Ht : retryTimers s' = {[ "a" := mkTimer 1000 0 ]}) by (vm_compute; reflexivity).
  split; [vm_compute; reflexivity|]. split.
  { eexists. split; [vm_compute; reflexivity|]. vm_compute. repeat split; lia. }
  split; [vm_compute; reflexivity|]. split; [vm_compute; reflexivity|]. split; [done|].
  intros i t. rewrite Ht. intros [_ <-]%lookup_singleton_Some. vm_compute. lia.
Qed.

(** A message marked delivered out of band is terminal and its file is gone,
    but it is still in its queue when [markDelivered] returns. *)
Lemma delivered_message_stays_queued :
  let s' := snd (markDelivered "a" retryingState) in
  (status <$> heap s' !! 0) = Some DELIVERED /\
  files s' !! "a" = None /\
  0 ∈ queueOf "default:worker-1" s'.
Proof.
  intros s'. split; [vm_compute; reflexivity|]. split; [vm_compute; reflexivity|].
  assert (Hq : queueOf "default:worker-1" s' = [0]) by (vm_compute; reflexivity).
  rewrite Hq. by left.
Qed.

(** The two failing transitions write the file and leave it. *)
Example markFailed_keeps_file :
  let s' := snd (markFailed "a" (Some "boom") retryingState) in
  (status <$> heap s' !! 0) = Some FAILED /\
  (status <$> files s' !! "a") = Some FAILED /\
  queueOf "default:worker-1" s' = [0].
Proof. vm_compute. repeat split; reflexivity. Qed.

Fixpoint attempts (n : nat) (k : string) (s : State) : State :=
  match n with
  | 0 => s
  | S n' => attempts n' k (snd (drainQueue k s))
  end.

Example max_retries_keeps_file :
  let s' := attempts 4 "default:worker-1" (snd (enqueue 0 exampleState)) in
  (status <$> heap s' !! 0) = Some FAILED /\
  (retryCount <$> heap s' !! 0) = Some 3 /\
  (status <$> files s' !! "a") = Some FAILED /\
  queueOf "default:worker-1" s' = [].
Proof. vm_compute. repeat split; reflexivity. Qed.


(** ** The message bus, continued: clearing, reporting, rehydration *)

(** *** The remaining methods *)

(** [m.delete(k)] on a [Map] in insertion order. *)
Fixpoint map_delete {V} (k : string) (m : list (string * V)) : list (string * V) :=
  match m with
  | [] => []
  | (k', v) :: m' => if String.eqb k k' then m' else (k', v) :: map_delete k m'
  end.

(** The body of the loops of [clearQueue] and [clearAllQueues] for one
    message: unlink its file, clear its retry timer. *)
Definition forgetMessage (l : loc) : Eff State unit :=
  m <- deref l ;;
  deletePersistedMessage (id m) ;;
  clearRetryTimer (id m).

Fixpoint forgetQueue (queue : list loc) : Eff State unit :=
  match queue with
  | [] => ret tt
  | l :: queue' => forgetMessage l ;; forgetQueue queue'
  end.

(** [clearQueue]: the result is [cleared]. An empty queue is truthy, so only
    a missing key takes the early return. *)
Definition clearQueue (agentId : string) (worktree : option string) : Eff State nat :=
  let queueKey := getQueueKey agentId worktree in
  queue <- gets (fun s => map_get queueKey (messageQueues s)) ;;
  match queue with
  | None => ret 0
  | Some queue =>
      forgetQueue queue ;;
      modify (fun s => set_messageQueues (map_delete queueKey (messageQueues s)) s) ;;
      ret (length queue)
  end.

Fixpoint forgetQueues (queues : list (string * list loc)) (cleared : nat) : Eff State nat :=
  match queues with
  | [] => ret cleared
  | (_, queue) :: queues' =>
      forgetQueue queue ;;
      forgetQueues queues' (cleared + length queue)
  end.

Definition clearAllQueues : Eff State nat :=
  queues <- gets messageQueues ;;
  cleared <- forgetQueues queues 0 ;;
  modify (set_messageQueues []) ;;
  modify (set_isProcessing false) ;;
  ret cleared.

#[local] Instance Status_eq_dec : EqDecision Status.
Proof. solve_decision. Defined.

(** [queue.filter(...)] reads every message of the queue. *)
Fixpoint messagesOf (queue : list loc) : Eff State (list Message) :=
  match queue with
  | [] => ret []
  | l :: queue' =>
      m <- deref l ;;
      ms <- messagesOf queue' ;;
      ret (m :: ms)
  end.

Definition countStatus (st : Status) (ms : list Message) : nat :=
  length (filter (fun m => status m = st) ms).

(** The names a plain object inherits from [Object.prototype]: reading one
    of them from [{}] does not give [undefined]. *)
Definition inheritedNames : list string :=
  [ "constructor"; "hasOwnProperty"; "isPrototypeOf"; "propertyIsEnumerable";
    "toLocaleString"; "toString"; "valueOf"; "__proto__"; "__defineGetter__";
    "__defineSetter__"; "__lookupGetter__"; "__lookupSetter__" ].

(** [groupByType]: an object from message type to count. The entry of a
    type is what the object holds under that name when the name is not one
    of the [inheritedNames]; for those, [grouped[type] || 0] is not a number
    and the entry is not modelled. *)
Definition groupByType (ms : list Message) : gmap string nat :=
  foldl (fun grouped m => <[type m := S (default 0 (grouped !! type m))]> grouped) ∅ ms.

Record QueueStatus := mkQueueStatus {
  total : nat;
  pending : nat;
  retrying : nat;
  failed : nat;
  byType : gmap string nat;
}.

Definition statusOfQueue (ms : list Message) : QueueStatus :=
  mkQueueStatus (length ms) (countStatus PENDING ms) (countStatus RETRYING ms)
    (countStatus FAILED ms) (groupByType ms).

Definition getQueueStatus (agentId : string) (worktree : option string)
    : Eff State QueueStatus :=
  queue <- gets (queueOf (getQueueKey agentId worktree)) ;;
  ms <- messagesOf queue ;;
  ret (statusOfQueue ms).

Record AllQueueStatus := mkAllQueueStatus {
  totalQueues : nat;
  totalMessages : nat;
  pendingMessages : nat;
  retryingMessages : nat;
  failedMessages : nat;
  queues : gmap string QueueStatus;
}.

(** The loop of [getAllQueueStatus]. The three aggregate counters are read
    from [queueStatus], which is the grouping by message type:
    [queueStatus.pending || 0] is the number of messages of type "pending". *)
Fixpoint addQueueStatus (entries : list (string * list loc)) (acc : AllQueueStatus)
    : Eff State AllQueueStatus :=
  match entries with
  | [] => ret acc
  | (queueKey, queue) :: entries' =>
      ms <- messagesOf queue ;;
      let queueStatus := groupByType ms in
      addQueueStatus entries'
        (mkAllQueueStatus (totalQueues acc)
           (totalMessages acc + length ms)
           (pendingMessages acc + default 0 (queueStatus !! "pending"))
           (retryingMessages acc + default 0 (queueStatus !! "retrying"))
           (failedMessages acc + default 0 (queueStatus !! "failed"))
           (<[queueKey := statusOfQueue ms]> (queues acc)))
  end.

Definition getAllQueueStatus : Eff State AllQueueStatus :=
  entries <- gets messageQueues ;;
  addQueueStatus entries (mkAllQueueStatus (length entries) 0 0 0 0 ∅).

(** [getStatus]; [pendingDeliveries] is a map nothing writes to. *)
Record MessengerStatus := mkMessengerStatus {
  st_isProcessing : bool;
  st_queueCount : nat;
  st_pendingDeliveries : nat;
  st_retryCount : nat;
  st_queues : AllQueueStatus;
}.

Definition getStatus : Eff State MessengerStatus :=
  all <- getAllQueueStatus ;;
  s <- gets (fun s => s) ;;
  ret (mkMessengerStatus (isProcessing s) (length (messageQueues s)) 0
         (size (retryTimers s)) all).

(** One entry of the persistence directory in [loadPersistedMessages]: the
    file is read and parsed into a new object; a live message is pushed on
    the queue of its key, without sorting, and the file of any other message
    is unlinked by the id it holds. The result tells whether the message was
    loaded. A file that is gone by the time it is read makes the inner
    [try] fail, which is logged. *)
Definition loadEntry (entry : string) : Eff State bool :=
  try_catch
    (content <- gets (fun s => files s !! entry) ;;
     match content with
     | None => throw "ENOENT"
     | Some message =>
         if isLive (status message) then
           let queueKey := getQueueKey (targetAgentId message) (worktree message) in
           present <- gets (fun s => map_has queueKey (messageQueues s)) ;;
           when (negb present)
             (modify (fun s => set_messageQueues (map_set queueKey [] (messageQueues s)) s)) ;;
           l <- gets (fun s => fresh (dom (heap s)) : loc) ;;
           modify (fun s => set_heap (<[l := message]> (heap s)) s) ;;
           modify (fun s =>
             set_messageQueues
               (map_set queueKey (queueOf queueKey s ++ [l])%list (messageQueues s)) s) ;;
           ret true
         else
           deletePersistedMessage (id message) ;;
           ret false
     end)
    (fun _ => ret false).

Fixpoint loadEntries (entries : list string) (loadedCount : nat) : Eff State nat :=
  match entries with
  | [] => ret loadedCount
  | entry :: entries' =>
      loaded <- loadEntry entry ;;
      loadEntries entries' (if loaded then S loadedCount else loadedCount)
  end.

(** [loadPersistedMessages]. The directory holds the files the messenger
    wrote, one per key of [files], each ending in [.json]; they are listed
    in the order of the finite map. *)
Definition loadPersistedMessages : Eff State unit :=
  try_catch
    (entries <- gets (fun s => map fst (map_to_list (files s))) ;;
     loadedCount <- loadEntries entries 0 ;;
     when (0 <? loadedCount)%nat startProcessing)
    (fun _ => ret tt).

(** *** Queue keys *)

Lemma append_cancel_l (p a b : string) : p +:+ a = p +:+ b -> a = b.
Proof. induction p as [|c p IH]; simpl; [done|]. intros [= H]. by apply IH. Qed.

(** Two agents of one worktree never share a queue. *)
Theorem getQueueKey_agent_inj (agentId agentId' : string) (worktree : option string) :
  getQueueKey agentId worktree = getQueueKey agentId' worktree -> agentId = agentId'.
Proof.
  unfold getQueueKey. intros H.
  apply append_cancel_l in H. by apply (append_cancel_l ":") in H.
Qed.

Lemma getQueueKey_agent_inj_witness :
  "worker-1" = "worker-1".
Proof. apply (getQueueKey_agent_inj "worker-1" "worker-1" (Some "/repo/wt")). reflexivity. Defined.

(** *** Clearing *)

Definition forgotten (messageId : string) (s : State) : State :=
  set_retryTimers (delete messageId (retryTimers (unlinked messageId s)))
    (unlinked messageId s).

Lemma forgetMessage_run l m s :
  heap s !! l = Some m -> forgetMessage l s = (Normal tt, forgotten (id m) s).
Proof.
  intros H. unfold forgetMessage. unfold bind at 1. rewrite (deref_Some _ _ _ H).
  unfold bind at 1. by rewrite deletePersistedMessage_run.
Qed.

Definition idsOf (h : gmap loc Message) (queue : list loc) : list string :=
  omap (fun l => id <$> h !! l) queue.

Lemma heap_forgotten i s : heap (forgotten i s) = heap s.
Proof. unfold forgotten, unlinked. by destruct (fsFault s i). Qed.

Lemma forgetQueue_run queue s :
  (forall l, l ∈ queue -> is_Some (heap s !! l)) ->
  forgetQueue queue s = (Normal tt, foldl (fun s i => forgotten i s) s (idsOf (heap s) queue)).
Proof.
  revert s. induction queue as [|l queue IH]; intros s Hall; [done|].
  destruct (Hall l) as [m Hm]; [by left|].
  simpl. unfold bind at 1. rewrite (forgetMessage_run l m s Hm).
  unfold idsOf. simpl. rewrite Hm. simpl.
  rewrite IH.
  - by rewrite heap_forgotten.
  - intros l' Hl'. rewrite heap_forgotten. apply Hall. by right.
Qed.

(** What forgetting a list of message ids does to the messenger. *)
Lemma forgotten_all (ids : list string) (s : State) :
  let s' := foldl (fun s i => forgotten i s) s ids in
  heap s' = heap s /\ messageQueues s' = messageQueues s /\ events s' = events s /\
  fsFault s' = fsFault s /\ isProcessing s' = isProcessing s /\ onSend s' = onSend s /\
  (forall i, i ∈ ids -> retryTimers s' !! i = None /\
                        (fsFault s i = None -> files s' !! i = None)) /\
  (forall i, i ∉ ids -> retryTimers s' !! i = retryTimers s !! i /\
                        files s' !! i = files s !! i).
Proof.
  revert s. induction ids as [|j ids IH]; intros s; simpl.
  - split_and!; try done. intros i Hi. by apply elem_of_nil in Hi.
  - destruct (IH (forgotten j s)) as (Hh & Hq & He & Hf & Hp & Hs & Hin & Hout).
    assert (Hfj : fsFault (forgotten j s) = fsFault s)
      by (unfold forgotten, unlinked; by destruct (fsFault s j)).
    rewrite Hh, Hq, He, Hf, Hp, Hs, Hfj.
    assert (Hbase : heap (forgotten j s) = heap s /\
                    messageQueues (forgotten j s) = messageQueues s /\
                    events (forgotten j s) = events s /\
                    isProcessing (forgotten j s) = isProcessing s /\
                    onSend (forgotten j s) = onSend s)
      by (unfold forgotten, unlinked; by destruct (fsFault s j)).
    destruct Hbase as (-> & -> & -> & -> & ->).
    split_and!; try done.
    + intros i Hi. split.
      * destruct (decide (i = j)) as [->|Hne].
        -- destruct (decide (j ∈ ids)) as [Hj|Hj]; [by apply Hin|].
           rewrite (proj1 (Hout j Hj)). unfold forgotten. simpl. apply lookup_delete_eq.
        -- apply Hin. apply elem_of_cons in Hi as [?|?]; [done|done].
      * intros Hfi. destruct (decide (i = j)) as [->|Hne].
        -- destruct (decide (j ∈ ids)) as [Hj|Hj]; [apply Hin; [done|by rewrite Hfj]|].
           rewrite (proj2 (Hout j Hj)). unfold forgotten, unlinked. rewrite Hfi. simpl.
           apply lookup_delete_eq.
        -- apply Hin; [|by rewrite Hfj]. apply elem_of_cons in Hi as [?|?]; [done|done].
    + intros i Hi. apply not_elem_of_cons in Hi as [Hne Hi]. split.
      * rewrite (proj1 (Hout i Hi)). unfold forgotten. simpl.
        rewrite lookup_delete_ne by done.
        unfold unlinked. by destruct (fsFault s j).
      * rewrite (proj2 (Hout i Hi)). unfold forgotten, unlinked.
        destruct (fsFault s j); simpl; [done|]. by rewrite lookup_delete_ne.
Qed.

Lemma map_get_delete_eq {V} k (m : list (string * V)) :
  NoDup (map_keys m) -> map_get k (map_delete k m) = None.
Proof.
  unfold map_keys. induction m as [|[k0 v0] m IH]; simpl; [done|].
  intros [Hk0 Hnd]%NoDup_cons.
  destruct (String.eqb_spec k k0) as [->|Hne]; simpl.
  - clear IH. induction m as [|[k1 v1] m IH]; simpl; [done|].
    simpl in Hk0. apply not_elem_of_cons in Hk0 as [Hne Hk0].
    apply NoDup_cons in Hnd as [_ Hnd].
    destruct (String.eqb_spec k0 k1); [done|]. by apply IH.
  - destruct (String.eqb_spec k k0); [done|]. by apply IH.
Qed.

Lemma map_get_delete_ne {V} k k' (m : list (string * V)) :
  k <> k' -> map_get k' (map_delete k m) = map_get k' m.
Proof.
  intros Hne. induction m as [|[k0 v0] m IH]; simpl; [done|].
  destruct (String.eqb_spec k k0) as [->|Hne0]; simpl.
  - destruct (String.eqb_spec k' k0); congruence.
  - destruct (String.eqb_spec k' k0); congruence.
Qed.

Lemma clearQueue_run agentId worktree queue s :
  map_get (getQueueKey agentId worktree) (messageQueues s) = Some queue ->
  (forall l, l ∈ queue -> is_Some (heap s !! l)) ->
  clearQueue agentId worktree s =
    (Normal (length queue),
     let s1 := foldl (fun s i => forgotten i s) s (idsOf (heap s) queue) in
     set_messageQueues (map_delete (getQueueKey agentId worktree) (messageQueues s1)) s1).
Proof.
  intros Hq Hall. unfold clearQueue. unfold bind at 1, gets at 1. rewrite Hq.
  unfold bind at 1. by rewrite forgetQueue_run.
Qed.

(** [clearQueue]: for a key that has no queue nothing happens and 0 is
    returned. Otherwise the queue's length is returned, the key is gone, the
    other queues stay, every message of the queue loses its retry timer and
    (if the file system takes the unlink) its file, and no message object and
    no event log changes. *)
Theorem clearQueue_clears (s : State) (agentId : string) (worktree : option string) :
  NoDup (map_keys (messageQueues s)) ->
  (forall l, l ∈ queueOf (getQueueKey agentId worktree) s -> is_Some (heap s !! l)) ->
  let key := getQueueKey agentId worktree in
  let s' := snd (clearQueue agentId worktree s) in
  (map_get key (messageQueues s) = None ->
     clearQueue agentId worktree s = (Normal 0, s)) /\
  (forall queue, map_get key (messageQueues s) = Some queue ->
     fst (clearQueue agentId worktree s) = Normal (length queue) /\
     map_get key (messageQueues s') = None /\
     (forall k, k <> key -> map_get k (messageQueues s') = map_get k (messageQueues s)) /\
     (forall l m, l ∈ queue -> heap s !! l = Some m ->
        retryTimers s' !! id m = None /\
        (fsFault s (id m) = None -> files s' !! id m = None)) /\
     heap s' = heap s /\ events s' = events s).
Proof.
  intros Hnd Hall key s'. split.
  - intros Hnone. unfold clearQueue, bind, gets. fold key. by rewrite Hnone.
  - intros queue Hq. subst s'.
    assert (Hqo : queueOf key s = queue) by (unfold queueOf; by rewrite Hq).
    rewrite (clearQueue_run agentId worktree queue s Hq) by by rewrite <- Hqo.
    fold key. cbv zeta.
    destruct (forgotten_all (idsOf (heap s) queue) s) as (Hh & Hmq & He & _ & _ & _ & Hin & _).
    set (s1 := foldl (fun s i => forgotten i s) s (idsOf (heap s) queue)) in *.
    cbn [fst snd messageQueues set_messageQueues heap events retryTimers files].
    split_and!.
    + done.
    + rewrite Hmq. by apply map_get_delete_eq.
    + intros k Hk. rewrite Hmq. by apply map_get_delete_ne.
    + intros l m Hl Hm. apply Hin. unfold idsOf. apply list_elem_of_omap.
      exists l. split; [done|]. by rewrite Hm.
    + done.
    + done.
Qed.

Lemma clearQueue_clears_witness :
  let key := getQueueKey "worker-1" None in
  let s' := snd (clearQueue "worker-1" None retryingState) in
  (map_get key (messageQueues retryingState) = None ->
     clearQueue "worker-1" None retryingState = (Normal 0, retryingState)) /\
  (forall queue, map_get key (messageQueues retryingState) = Some queue ->
     fst (clearQueue "worker-1" None retryingState) = Normal (length queue) /\
     map_get key (messageQueues s') = None /\
     (forall k, k <> key ->
        map_get k (messageQueues s') = map_get k (messageQueues retryingState)) /\
     (forall l m, l ∈ queue -> heap retryingState !! l = Some m ->
        retryTimers s' !! id m = None /\
        (fsFault retryingState (id m) = None -> files s' !! id m = None)) /\
     heap s' = heap retryingState /\ events s' = events retryingState).
Proof.
  apply (clearQueue_clears retryingState "worker-1" None).
  - assert (Hk : map_keys (messageQueues retryingState) = ["default:worker-1"])
      by (vm_compute; reflexivity).
    rewrite Hk. apply NoDup_singleton.
  - assert (Hq : queueOf (getQueueKey "worker-1" None) retryingState = [0])
      by (vm_compute; reflexivity).
    rewrite Hq. intros l Hl. apply list_elem_of_singleton in Hl as ->.
    vm_compute. by eexists.
Defined.

Definition allQueued (s : State) : list loc := concat (map snd (messageQueues s)).

Lemma forgetQueues_run queues cleared s :
  (forall l, l ∈ concat (map snd queues) -> is_Some (heap s !! l)) ->
  forgetQueues queues cleared s =
    (Normal (cleared + list_sum (map (fun e => length (snd e)) queues)),
     foldl (fun s i => forgotten i s) s (idsOf (heap s) (concat (map snd queues)))).
Proof.
  revert cleared s. induction queues as [|[k q] queues IH]; intros cleared s Hall; simpl.
  - by rewrite Nat.add_0_r.
  - unfold bind at 1. rewrite forgetQueue_run
      by (intros l Hl; apply Hall; simpl; apply elem_of_app; by left).
    destruct (forgotten_all (idsOf (heap s) q) s) as (Hh & _).
    rewrite IH.
    + rewrite Hh. unfold idsOf. rewrite omap_app, foldl_app. f_equal. f_equal. lia.
    + intros l Hl. rewrite Hh. apply Hall. simpl. apply elem_of_app. by right.
Qed.

(** [clearAllQueues] returns the number of queued messages, leaves no queue,
    stops the drain loop, and takes the retry timer and (if the file system
    takes the unlink) the file of every queued message. *)
Theorem clearAllQueues_clears (s : State) :
  (forall l, l ∈ allQueued s -> is_Some (heap s !! l)) ->
  let s' := snd (clearAllQueues s) in
  fst (clearAllQueues s) = Normal (backlog s) /\
  messageQueues s' = [] /\
  isProcessing s' = false /\
  (forall l m, l ∈ allQueued s -> heap s !! l = Some m ->
     retryTimers s' !! id m = None /\
     (fsFault s (id m) = None -> files s' !! id m = None)) /\
  heap s' = heap s.
Proof.
  intros Hall s'. subst s'.
  assert (Hrun : clearAllQueues s =
            (Normal (backlog s),
             set_isProcessing false
               (set_messageQueues []
                  (foldl (fun s i => forgotten i s) s (idsOf (heap s) (allQueued s)))))).
  { unfold clearAllQueues. unfold bind at 1, gets at 1. unfold bind at 1.
    by rewrite forgetQueues_run. }
  rewrite Hrun.
  destruct (forgotten_all (idsOf (heap s) (allQueued s)) s) as (Hh & _ & _ & _ & _ & _ & Hin & _).
  cbn [fst snd messageQueues isProcessing set_isProcessing set_messageQueues heap
       retryTimers files].
  split_and!; try done.
  intros l m Hl Hm. apply Hin. unfold idsOf. apply list_elem_of_omap.
  exists l. split; [done|]. by rewrite Hm.
Qed.

Lemma clearAllQueues_clears_witness :
  let s' := snd (clearAllQueues retryingState) in
  fst (clearAllQueues retryingState) = Normal (backlog retryingState) /\
  messageQueues s' = [] /\
  isProcessing s' = false /\
  (forall l m, l ∈ allQueued retryingState -> heap retryingState !! l = Some m ->
     retryTimers s' !! id m = None /\
     (fsFault retryingState (id m) = None -> files s' !! id m = None)) /\
  heap s' = heap retryingState.
Proof.
  apply (clearAllQueues_clears retryingState).
  assert (Hq : allQueued retryingState = [0]) by (vm_compute; reflexivity).
  rewrite Hq. intros l Hl. apply list_elem_of_singleton in Hl as ->.
  vm_compute. by eexists.
Defined.

(** *** Reporting *)

(** The messages a queue holds, read through the heap. *)
Definition contents (h : gmap loc Message) (queue : list loc) : list Message :=
  omap (fun l => h !! l) queue.

Lemma messagesOf_run queue s :
  (forall l, l ∈ queue -> is_Some (heap s !! l)) ->
  messagesOf queue s = (Normal (contents (heap s) queue), s).
Proof.
  induction queue as [|l queue IH]; intros Hall; [done|].
  destruct (Hall l) as [m Hm]; [by left|].
  simpl. unfold bind at 1. rewrite (deref_Some _ _ _ Hm).
  unfold bind at 1. rewrite IH by (intros l' Hl'; apply Hall; by right).
  unfold contents. simpl. by rewrite Hm.
Qed.

Lemma contents_length h queue :
  (forall l, l ∈ queue -> is_Some (h !! l)) -> length (contents h queue) = length queue.
Proof.
  induction queue as [|l queue IH]; intros Hall; [done|].
  destruct (Hall l) as [m Hm]; [by left|].
  unfold contents in *. simpl. rewrite Hm. simpl. f_equal. apply IH.
  intros l' Hl'. apply Hall. by right.
Qed.

Definition countType (t : string) (ms : list Message) : nat :=
  length (filter (fun m => type m = t) ms).

Lemma groupByType_from (g : gmap string nat) (ms : list Message) (t : string) :
  foldl (fun grouped m => <[type m := S (default 0 (grouped !! type m))]> grouped) g ms !! t
  = match countType t ms with
    | 0 => g !! t
    | S n => Some (default 0 (g !! t) + S n)
    end.
Proof.
  revert g. induction ms as [|m ms IH]; intros g; [done|].
  simpl. rewrite IH. unfold countType. rewrite filter_cons.
  destruct (decide (type m = t)) as [<-|Hne]; simpl.
  - rewrite lookup_insert_eq. simpl.
    destruct (length (filter _ ms)); f_equal; lia.
  - rewrite lookup_insert_ne by done. done.
Qed.

Lemma groupByType_lookup (ms : list Message) (t : string) :
  groupByType ms !! t = match countType t ms with 0 => None | n => Some n end.
Proof.
  unfold groupByType. rewrite groupByType_from, lookup_empty.
  by destruct (countType t ms).
Qed.

Lemma groupByType_default (ms : list Message) (t : string) :
  default 0 (groupByType ms !! t) = countType t ms.
Proof. rewrite groupByType_lookup. by destruct (countType t ms). Qed.

Lemma countStatus_total (ms : list Message) :
  countStatus PENDING ms + countStatus RETRYING ms + countStatus FAILED ms
  + countStatus DELIVERED ms = length ms.
Proof.
  unfold countStatus. induction ms as [|m ms IH]; [done|].
  rewrite !filter_cons. destruct (status m);
    repeat (case_decide; try done); simpl in *; lia.
Qed.

(** [getQueueStatus] reads without changing anything. [total] is the length
    of the queue; the pending, retrying and failed counts fall short of it by
    the delivered messages still queued; and [byType] holds for every
    message type that is no inherited property name the number of queued
    messages of that type, with no entry for a type that does not occur. *)
Theorem getQueueStatus_counts (s : State) (agentId : string) (worktree : option string) :
  (forall l, l ∈ queueOf (getQueueKey agentId worktree) s -> is_Some (heap s !! l)) ->
  let queue := queueOf (getQueueKey agentId worktree) s in
  let ms := contents (heap s) queue in
  exists r, getQueueStatus agentId worktree s = (Normal r, s) /\
    total r = length queue /\
    pending r + retrying r + failed r + countStatus DELIVERED ms = total r /\
    pending r = countStatus PENDING ms /\
    (forall t, t ∉ inheritedNames ->
       byType r !! t = match countType t ms with 0 => None | n => Some n end).
Proof.
  intros Hall queue ms. exists (statusOfQueue ms). split_and!.
  - unfold getQueueStatus. unfold bind at 1, gets at 1. fold queue.
    unfold bind at 1. by rewrite messagesOf_run.
  - simpl. by apply contents_length.
  - simpl. apply countStatus_total.
  - done.
  - intros t _. simpl. apply groupByType_lookup.
Qed.

Lemma getQueueStatus_counts_witness :
  let s := snd (enqueue 2 retryingState) in
  let queue := queueOf (getQueueKey "worker-1" None) s in
  let ms := contents (heap s) queue in
  exists r, getQueueStatus "worker-1" None s = (Normal r, s) /\
    total r = length queue /\
    pending r + retrying r + failed r + countStatus DELIVERED ms = total r /\
    pending r = countStatus PENDING ms /\
    (forall t, t ∉ inheritedNames ->
       byType r !! t = match countType t ms with 0 => None | n => Some n end).
Proof.
  apply (getQueueStatus_counts (snd (enqueue 2 retryingState)) "worker-1" None).
  assert (Hq : queueOf (getQueueKey "worker-1" None) (snd (enqueue 2 retryingState)) = [0; 2])
    by (vm_compute; reflexivity).
  rewrite Hq. intros l Hl.
  apply elem_of_cons in Hl as [->|Hl]; [vm_compute; by eexists|].
  apply list_elem_of_singleton in Hl as ->. vm_compute. by eexists.
Defined.

Definition summed (h : gmap loc Message) (entries : list (string * list loc))
    (acc : AllQueueStatus) : AllQueueStatus :=
  let ms := contents h (concat (map snd entries)) in
  mkAllQueueStatus (totalQueues acc)
    (totalMessages acc + length ms)
    (pendingMessages acc + countType "pending" ms)
    (retryingMessages acc + countType "retrying" ms)
    (failedMessages acc + countType "failed" ms)
    (foldl (fun g e => <[fst e := statusOfQueue (contents h (snd e))]> g) (queues acc) entries).

Lemma countType_app t ms ms' : countType t (ms ++ ms') = countType t ms + countType t ms'.
Proof. unfold countType. by rewrite filter_app, length_app. Qed.

Lemma contents_app h (q q' : list loc) :
  contents h (q ++ q') = (contents h q ++ contents h q')%list.
Proof. unfold contents. apply omap_app. Qed.

Lemma summed_cons h k q entries acc :
  summed h ((k, q) :: entries) acc
  = summed h entries
      (mkAllQueueStatus (totalQueues acc)
         (totalMessages acc + length (contents h q))
         (pendingMessages acc + default 0 (groupByType (contents h q) !! "pending"))
         (retryingMessages acc + default 0 (groupByType (contents h q) !! "retrying"))
         (failedMessages acc + default 0 (groupByType (contents h q) !! "failed"))
         (<[k := statusOfQueue (contents h q)]> (queues acc))).
Proof.
  unfold summed. cbn [map snd fst concat totalQueues totalMessages pendingMessages
    retryingMessages failedMessages queues foldl].
  rewrite contents_app, !countType_app, length_app, !groupByType_default.
  f_equal; lia.
Qed.

Lemma addQueueStatus_run entries acc s :
  (forall l, l ∈ concat (map snd entries) -> is_Some (heap s !! l)) ->
  addQueueStatus entries acc s = (Normal (summed (heap s) entries acc), s).
Proof.
  revert acc. induction entries as [|[k q] entries IH]; intros acc Hall.
  - simpl. unfold summed, ret. simpl. do 2 f_equal. destruct acc; simpl.
    unfold countType. simpl. by rewrite !Nat.add_0_r.
  - simpl. unfold bind at 1.
    rewrite messagesOf_run by (intros l Hl; apply Hall; simpl; apply elem_of_app; by left).
    rewrite IH by (intros l Hl; apply Hall; simpl; apply elem_of_app; by right).
    by rewrite summed_cons.
Qed.

Lemma foldl_insert_notin {V} (f : list loc -> V) (es : list (string * list loc))
    (g : gmap string V) k :
  k ∉ map fst es -> foldl (fun g e => <[fst e := f (snd e)]> g) g es !! k = g !! k.
Proof.
  revert g. induction es as [|[k0 q0] es IH]; intros g Hk; [done|].
  simpl in *. apply not_elem_of_cons in Hk as [Hne Hk].
  rewrite IH by done. by rewrite lookup_insert_ne.
Qed.

Lemma foldl_insert_get {V} (f : list loc -> V) (es : list (string * list loc))
    (g : gmap string V) k q :
  NoDup (map fst es) -> map_get k es = Some q ->
  foldl (fun g e => <[fst e := f (snd e)]> g) g es !! k = Some (f q).
Proof.
  revert g. induction es as [|[k0 q0] es IH]; intros g Hnd Hget; [done|].
  simpl in *. apply NoDup_cons in Hnd as [Hk0 Hnd].
  destruct (String.eqb_spec k k0) as [->|Hne].
  - injection Hget as ->. rewrite foldl_insert_notin by done. apply lookup_insert_eq.
  - by apply IH.
Qed.

(** [getAllQueueStatus] reads without changing anything. [totalQueues] is
    the number of queues, [totalMessages] the number of queued messages, and
    the entry of a queue key (that is no inherited property name, as no key
    made by [getQueueKey] is) is what [getQueueStatus] reports for that queue.
    The aggregate [pendingMessages], [retryingMessages] and [failedMessages]
    are taken from the grouping by type: they count the queued messages
    whose type is "pending", "retrying" or "failed", whatever their status. *)
Theorem getAllQueueStatus_counts (s : State) :
  (forall l, l ∈ allQueued s -> is_Some (heap s !! l)) ->
  let ms := contents (heap s) (allQueued s) in
  exists r, getAllQueueStatus s = (Normal r, s) /\
    totalQueues r = length (messageQueues s) /\
    totalMessages r = backlog s /\
    pendingMessages r = countType "pending" ms /\
    retryingMessages r = countType "retrying" ms /\
    failedMessages r = countType "failed" ms /\
    (NoDup (map_keys (messageQueues s)) ->
     forall k q, k ∉ inheritedNames -> map_get k (messageQueues s) = Some q ->
       queues r !! k = Some (statusOfQueue (contents (heap s) q))).
Proof.
  intros Hall ms. eexists. split.
  - unfold getAllQueueStatus, bind, gets. by rewrite addQueueStatus_run.
  - unfold summed. cbn [totalQueues totalMessages pendingMessages retryingMessages
      failedMessages queues]. fold (allQueued s). fold ms. split_and!; try done.
    + subst ms. rewrite contents_length by done. unfold backlog, allQueued.
      generalize (messageQueues s). intros es. induction es as [|[k q] es IH]; [done|].
      simpl. rewrite length_app. lia.
    + intros Hnd k q _ Hq.
      by apply (foldl_insert_get (fun q => statusOfQueue (contents (heap s) q))).
Qed.

Lemma getAllQueueStatus_counts_witness :
  let s := snd (enqueue 2 retryingState) in
  let ms := contents (heap s) (allQueued s) in
  exists r, getAllQueueStatus s = (Normal r, s) /\
    totalQueues r = length (messageQueues s) /\
    totalMessages r = backlog s /\
    pendingMessages r = countType "pending" ms /\
    retryingMessages r = countType "retrying" ms /\
    failedMessages r = countType "failed" ms /\
    (NoDup (map_keys (messageQueues s)) ->
     forall k q, k ∉ inheritedNames -> map_get k (messageQueues s) = Some q ->
       queues r !! k = Some (statusOfQueue (contents (heap s) q))).
Proof.
  apply (getAllQueueStatus_counts (snd (enqueue 2 retryingState))).
  assert (Hq : allQueued (snd (enqueue 2 retryingState)) = [0; 2]) by (vm_compute; reflexivity).
  rewrite Hq. intros l Hl.
  apply elem_of_cons in Hl as [->|Hl]; [vm_compute; by eexists|].
  apply list_elem_of_singleton in Hl as ->. vm_compute. by eexists.
Defined.

(** One retrying and one pending message of type "task": the queue's own
    entry counts them, the aggregate counters stay at 0. *)
Example aggregate_counts_by_type :
  match fst (getAllQueueStatus (snd (enqueue 2 retryingState))) with
  | Normal r => (pendingMessages r, retryingMessages r,
                 pending <$> queues r !! "default:worker-1",
                 retrying <$> queues r !! "default:worker-1")
  | Throw _ => (0, 0, None, None)
  end = (0, 0, Some 1, Some 1).
Proof. vm_compute. reflexivity. Qed.

(** *** The retry ceiling *)

(** No object's retry count rises above the larger of what it was and the
    ceiling. *)
Definition retriesCapped (s s' : State) : Prop :=
  forall l m', heap s' !! l = Some m' ->
    exists m, heap s !! l = Some m /\ retryCount m' <= retryCount m `max` MAX_RETRIES.

#[local] Instance retriesCapped_preorder : PreOrder retriesCapped.
Proof.
  split.
  - intros s l m Hm. exists m. split; [done|lia].
  - intros s1 s2 s3 H12 H23 l m3 H3.
    destruct (H23 l m3 H3) as (m2 & H2 & Hle2).
    destruct (H12 l m2 H2) as (m1 & H1 & Hle1).
    exists m1. split; [done|lia].
Qed.

Lemma capped_same_heap s s' : heap s' = heap s -> retriesCapped s s'.
Proof. intros H l m Hm. rewrite H in Hm. exists m. split; [done|lia]. Qed.

Lemma capped_modify (f : State -> State) :
  (forall s, heap (f s) = heap s) -> respects retriesCapped (modify f).
Proof. intros H. apply respects_modify. intros s. by apply capped_same_heap. Qed.

Lemma capped_deref l : respects retriesCapped (deref l).
Proof. intros s. unfold deref. destruct (heap s !! l); simpl; reflexivity. Qed.

Lemma capped_assign l f :
  (forall m, retryCount (f m) <= retryCount m `max` MAX_RETRIES) ->
  respects retriesCapped (assign l f).
Proof.
  intros Hf s l' m'. simpl. destruct (decide (l = l')) as [->|Hne].
  - rewrite lookup_alter_eq. destruct (heap s !! l') as [m|] eqn:E; simpl; [|done].
    intros [= <-]. by exists m.
  - rewrite lookup_alter_ne by done. intros Hm. exists m'. split; [done|lia].
Qed.

Lemma capped_emit name l err : respects retriesCapped (emit name l err).
Proof.
  unfold emit. respects_step; [apply capped_deref|]. by apply capped_modify.
Qed.

Lemma capped_persistMessage l : respects retriesCapped (persistMessage l).
Proof.
  intros s. rewrite persistMessage_run. apply capped_same_heap. apply heap_persisted.
Qed.

Lemma capped_deletePersistedMessage i : respects retriesCapped (deletePersistedMessage i).
Proof.
  intros s. rewrite deletePersistedMessage_run. apply capped_same_heap. apply heap_unlinked.
Qed.

Lemma capped_shift k : respects retriesCapped (shift k).
Proof. by apply capped_modify. Qed.

Create HintDb capped.
#[local] Hint Resolve capped_deref capped_emit capped_persistMessage
  capped_deletePersistedMessage capped_shift : capped.

Ltac capped_auto :=
  repeat first
    [ match goal with
      | |- respects _ (if (MAX_RETRIES <=? ?n)%nat then _ else _) =>
          destruct (Nat.leb_spec MAX_RETRIES n)
      end
    | respects_step
    | solve [ auto with capped ]
    | apply capped_modify; intros; reflexivity
    | apply capped_assign; intros []; simpl; lia ].

Lemma capped_emitSend m : respects retriesCapped (emitSend m).
Proof. unfold emitSend. capped_auto. Qed.

Lemma capped_deliverMessage l : respects retriesCapped (deliverMessage l).
Proof. pose proof capped_emitSend. unfold deliverMessage. capped_auto. Qed.

Lemma capped_drainQueue k : respects retriesCapped (drainQueue k).
Proof. pose proof capped_deliverMessage. unfold drainQueue. capped_auto. Qed.

Lemma capped_drainPass keys processed : respects retriesCapped (drainPass keys processed).
Proof.
  pose proof capped_drainQueue.
  revert processed. induction keys as [|k keys IH]; intros processed; simpl; capped_auto.
Qed.

Lemma capped_processLoop fuel : respects retriesCapped (processLoop fuel).
Proof.
  pose proof capped_drainPass. induction fuel as [|fuel IH]; simpl; capped_auto.
Qed.

Lemma capped_startProcessing : respects retriesCapped startProcessing.
Proof.
  pose proof capped_processLoop. unfold startProcessing, processQueue. capped_auto.
Qed.

Lemma capped_send l : respects retriesCapped (send l).
Proof.
  pose proof capped_startProcessing. unfold send, enqueue. capped_auto.
Qed.

Lemma capped_perform c s : retriesCapped s (perform c s).
Proof.
  destruct c as [l|i|i e|i]; simpl.
  - apply capped_send.
  - assert (H : respects retriesCapped (markDelivered i)); [|apply H].
    unfold markDelivered, clearRetryTimer. capped_auto.
  - assert (H : respects retriesCapped (markFailed i e)); [|apply H].
    unfold markFailed, clearRetryTimer. capped_auto.
  - assert (H : respects retriesCapped (fireTimer i)); [|apply H].
    unfold fireTimer. capped_auto.
Qed.

(** Whatever is sent, marked delivered or failed, and whichever retry
    timers fire: when no message has a retry count above the ceiling of 3 to
    begin with, none has afterwards. *)
Theorem retryCount_capped (s : State) (calls : list Call) :
  map_Forall (fun _ m => retryCount m <= MAX_RETRIES) (heap s) ->
  map_Forall (fun _ m => retryCount m <= MAX_RETRIES) (heap (history calls s)).
Proof.
  intros Hs. assert (Hc : retriesCapped s (history calls s)).
  { induction calls as [|c calls IH] using rev_ind; [reflexivity|].
    unfold history in *. rewrite fold_left_app. simpl.
    etransitivity; [exact IH|apply capped_perform]. }
  intros l m' Hm'. destruct (Hc l m' Hm') as (m & Hm & Hle).
  specialize (Hs l m Hm). simpl in Hs. lia.
Qed.

Lemma retryCount_capped_witness :
  map_Forall (fun _ m => retryCount m <= MAX_RETRIES)
    (heap (history [CallSend 0; CallSend 1; CallSend 2; CallSend 0; CallSend 0; TimerFires "a"]
             exampleState)).
Proof.
  apply (retryCount_capped exampleState).
  apply (bool_decide_eq_true_1 _). vm_compute. reflexivity.
Defined.

(** *** A failing head holds up the later queues *)

(** When the head of the first queue is live, its delivery fails and it is
    below the retry ceiling, the pass ends at that queue and the drain loop
    stops: the message stays at its head, and no queue behind it and no other
    message is touched. *)
Theorem failing_head_ends_the_drain (s : State) (k : string) (l : loc) (q : list loc)
    (rest : list (string * list loc)) (m : Message) :
  messageQueues s = (k, l :: q) :: rest ->
  heap s !! l = Some m ->
  isLive (status m) = true ->
  onSend s m <> Accepted ->
  retryCount m < MAX_RETRIES ->
  isProcessing s = true ->
  exists s', processQueue s = (Normal true, s') /\
    isProcessing s' = false /\
    messageQueues s' = messageQueues s /\
    (forall l', l' <> l -> heap s' !! l' = heap s !! l') /\
    (forall e, e ∈ events s' -> e ∈ events s \/ id (ev_message e) = id m).
Proof.
  intros Hmq Hl Hlive Hna Hlt Hrun.
  assert (Hq : queueOf k s = l :: q).
  { unfold queueOf. rewrite Hmq. simpl. by rewrite String.eqb_refl. }
  assert (Hd : drainQueue k s = (Normal (false, true), retried l m s)).
  { rewrite (drainQueue_run k l q m s Hq Hl), Hlive. simpl negb. cbv iota.
    by destruct (Nat.leb_spec MAX_RETRIES (retryCount m)); [lia|]. }
  exists (set_isProcessing false (retried l m s)). split.
  - unfold processQueue. unfold bind at 1, gets at 1.
    change (processLoop (S (backlog s)) s) with
      ((running <- gets isProcessing ;;
        if running then
          keys <- gets (fun s => map_keys (messageQueues s)) ;;
          processed <- drainPass keys false ;;
          if processed then processLoop (backlog s)
          else modify (set_isProcessing false) ;; ret true
        else ret true) s).
    unfold bind at 1, gets at 1. rewrite Hrun.
    unfold bind at 1, gets at 1. rewrite Hmq. unfold map_keys. simpl map.
    unfold bind at 1. simpl drainPass. unfold bind at 1. rewrite Hd. done.
  - assert (Hu_h : forall l', l' <> l -> heap (undelivered l m s) !! l' = heap s !! l').
    { intros l' Hne. unfold undelivered. destruct (onSend s m); autorewrite with state;
        try done. by rewrite lookup_alter_ne. }
    assert (Hu_e : forall e, e ∈ events (undelivered l m s) ->
                     e ∈ events s \/ id (ev_message e) = id m).
    { intros e. unfold undelivered, announced.
      destruct (onSend s m) as [| |err]; autorewrite with state.
      - rewrite Hl. simpl. intros [->|?]%elem_of_cons; [by right|by left].
      - rewrite Hl. simpl. intros [->|?]%elem_of_cons; [by right|by left].
      - rewrite lookup_alter_eq. rewrite Hl. simpl.
        unfold announced. rewrite Hl. simpl.
        intros [->|[->|?]%elem_of_cons]%elem_of_cons; [by right|by right|by left]. }
    assert (Hcore : forall s1, s1 = persisted l
                (assigned l (set_retryCount (S (retryCount m)))
                   (assigned l (set_status RETRYING) (undelivered l m s))) ->
              messageQueues s1 = messageQueues s /\
              (forall l', l' <> l -> heap s1 !! l' = heap s !! l') /\
              events s1 = events (undelivered l m s)).
    { intros s1 ->. autorewrite with state. split; [apply messageQueues_undelivered|].
      split; [|done]. intros l' Hne. rewrite !lookup_alter_ne by done. by apply Hu_h. }
    destruct (Hcore _ eq_refl) as (Hq1 & Hh1 & He1).
    unfold retried. destruct (bool_decide _); simpl.
    + split; [done|]. split; [done|]. split; [done|]. intros e. rewrite He1. apply Hu_e.
    + split; [done|]. split; [done|]. split; [done|]. intros e. rewrite He1. apply Hu_e.
Qed.

(** Two queues; the subscriber declines everything. *)
Definition twoQueues : State :=
  mkState (list_to_map [(0, exampleMessage "a" "worker-1" None NORMAL);
                        (1, exampleMessage "b" "worker-2" None CRITICAL)])
    [("default:worker-1", [0]); ("default:worker-2", [1])] ∅ true
    (fun _ => Declined) ∅ (fun _ => None) 0 [].

Lemma failing_head_ends_the_drain_witness :
  exists s', processQueue twoQueues = (Normal true, s') /\
    isProcessing s' = false /\
    messageQueues s' = messageQueues twoQueues /\
    (forall l', l' <> 0 -> heap s' !! l' = heap twoQueues !! l') /\
    (forall e, e ∈ events s' ->
       e ∈ events twoQueues \/ id (ev_message e) = id (exampleMessage "a" "worker-1" None NORMAL)).
Proof.
  apply (failing_head_ends_the_drain twoQueues "default:worker-1" 0 []
           [("default:worker-2", [1])] (exampleMessage "a" "worker-1" None NORMAL)).
  - reflexivity.
  - reflexivity.
  - reflexivity.
  - discriminate.
  - vm_compute. lia.
  - reflexivity.
Defined.

Definition keyOfMessage (m : Message) : string :=
  getQueueKey (targetAgentId m) (worktree m).

(** A live message taken from its file: a new object at the end of the
    queue of its key. *)
Definition rehydrated (m : Message) (s : State) : State :=
  let l : loc := fresh (dom (heap s)) in
  set_messageQueues
    (map_set (keyOfMessage m) (queueOf (keyOfMessage m) s ++ [l])%list (messageQueues s))
    (set_heap (<[l := m]> (heap s)) s).

Lemma loadEntry_run entry s :
  loadEntry entry s =
    match files s !! entry with
    | None => (Normal false, s)
    | Some m =>
        if isLive (status m) then (Normal true, rehydrated m s)
        else (Normal false, unlinked (id m) s)
    end.
Proof.
  unfold loadEntry, try_catch. unfold bind at 1, gets at 1.
  destruct (files s !! entry) as [m|]; [|done].
  destruct (isLive (status m)).
  - fold (keyOfMessage m). unfold rehydrated.
    unfold bind at 1, gets at 1. unfold bind at 1.
    destruct (map_has (keyOfMessage m) (messageQueues s)) eqn:Hhas; simpl negb; unfold when.
    + by cbv beta iota zeta delta [bind gets modify ret].
    + cbv beta iota zeta delta [bind gets modify ret].
      cbn [heap set_heap messageQueues set_messageQueues].
      change (queueOf (keyOfMessage m)
                (set_heap (<[fresh (dom (heap s)):=m]> (heap s))
                   (set_messageQueues (map_set (keyOfMessage m) [] (messageQueues s)) s)))
        with (queueOf (keyOfMessage m)
                (set_messageQueues (map_set (keyOfMessage m) [] (messageQueues s)) s)).
      rewrite queueOf_set_empty by done. rewrite map_set_set. by destruct s.
  - unfold bind at 1. by rewrite deletePersistedMessage_run.
Qed.

(** Every file on disk is [<id>.json] of the message it holds, as
    [persistMessage] writes them. *)
Definition consistentFiles (s : State) : Prop :=
  map_Forall (fun name m => id m = name) (files s).

Lemma loadEntries_spec names n s :
  NoDup names -> consistentFiles s ->
  exists n' s', loadEntries names n s = (Normal n', s') /\
    heap s ⊆ heap s' /\
    (forall k, queueOf k s `prefix_of` queueOf k s') /\
    fsFault s' = fsFault s /\ events s' = events s /\ retryTimers s' = retryTimers s /\
    (forall name m, name ∈ names -> files s !! name = Some m -> isLive (status m) = true ->
       files s' !! name = Some m /\
       exists l, heap s !! l = None /\ heap s' !! l = Some m /\ l ∈ queueOf (keyOfMessage m) s') /\
    (forall name m, name ∈ names -> files s !! name = Some m -> isLive (status m) = false ->
       fsFault s name = None -> files s' !! name = None) /\
    (forall name, name ∉ names -> files s' !! name = files s !! name) /\
    (forall k l, l ∈ queueOf k s' ->
       l ∈ queueOf k s \/
       exists m, heap s' !! l = Some m /\ isLive (status m) = true /\ k = keyOfMessage m).
Proof.
  revert n s. induction names as [|name names IH]; intros n s Hnd Hcons.
  - exists n, s. split_and!; try done.
    + intros name m Hin. by apply elem_of_nil in Hin.
    + intros name m Hin. by apply elem_of_nil in Hin.
    + intros k l Hin. by left.
  - apply NoDup_cons in Hnd as [Hname Hnd].
    simpl. unfold bind at 1. rewrite loadEntry_run.
    destruct (files s !! name) as [m|] eqn:Hfile.
    2:{ destruct (IH n s Hnd Hcons) as (n' & s' & -> & Hh & Hq & Hf & He & Ht & Hlive & Hterm & Hout & Hconv).
        exists n', s'. split_and!; try done.
        - intros name' m' [->|Hin]%elem_of_cons; [congruence|by apply Hlive].
        - intros name' m' [->|Hin]%elem_of_cons; [congruence|by apply Hterm].
        - intros name' [Hne Hnin]%not_elem_of_cons. by apply Hout. }
    pose proof (Hcons name m Hfile) as Hid.
    destruct (isLive (status m)) eqn:Hlv.
    + set (l0 := fresh (dom (heap s))).
      assert (Hfresh : heap s !! l0 = None).
      { apply not_elem_of_dom. apply is_fresh. }
      assert (Hcons1 : consistentFiles (rehydrated m s)) by exact Hcons.
      destruct (IH (S n) (rehydrated m s) Hnd Hcons1)
        as (n' & s' & -> & Hh & Hq & Hf & He & Ht & Hlive & Hterm & Hout & Hconv).
      assert (Hh0 : heap s ⊆ heap (rehydrated m s)).
      { unfold rehydrated. simpl. by apply insert_subseteq. }
      assert (Hq0 : forall k, queueOf k s `prefix_of` queueOf k (rehydrated m s)).
      { intros k. unfold rehydrated.
        change (queueOf k (set_messageQueues ?q (set_heap ?h s)))
          with (queueOf k (set_messageQueues q s)).
        destruct (decide (keyOfMessage m = k)) as [<-|Hne].
        - rewrite queueOf_set_eq. by apply prefix_app_r.
        - by rewrite queueOf_set_ne. }
      assert (Hl0 : l0 ∈ queueOf (keyOfMessage m) (rehydrated m s)).
      { unfold rehydrated.
        change (queueOf ?k (set_messageQueues ?q (set_heap ?h s)))
          with (queueOf k (set_messageQueues q s)).
        rewrite queueOf_set_eq. apply elem_of_app. right. by left. }
      exists n', s'. split_and!; try done.
      * etransitivity; [exact Hh0|exact Hh].
      * intros k. etransitivity; [apply Hq0|apply Hq].
      * intros name' m' [->|Hin]%elem_of_cons Hf' Hl'.
        -- rewrite Hfile in Hf'. injection Hf' as <-. split.
           ++ by rewrite (Hout name Hname).
           ++ exists l0. split; [done|]. split.
              ** apply (lookup_weaken _ _ _ _ (lookup_insert_eq (heap s) l0 m)) in Hh.
                 exact Hh.
              ** destruct (Hq (keyOfMessage m)) as [suf ->]. apply elem_of_app. by left.
        -- destruct (Hlive name' m' Hin Hf' Hl') as (Hkeep & l & Hnone & Hsome & Hinq).
           split; [done|]. exists l. split; [|done].
           destruct (heap s !! l) eqn:E; [|done].
           apply (lookup_weaken _ _ _ _ E) in Hh0. congruence.
      * intros name' m' [->|Hin]%elem_of_cons Hf' Hl' Hfault; [congruence|].
        by apply (Hterm name' m').
      * intros name' [Hne Hnin]%not_elem_of_cons. by rewrite Hout.
      * intros k l Hin. destruct (Hconv k l Hin) as [Hold|Hnew]; [|by right].
        unfold rehydrated in Hold.
        change (queueOf k (set_messageQueues ?q (set_heap ?h s)))
          with (queueOf k (set_messageQueues q s)) in Hold.
        destruct (decide (keyOfMessage m = k)) as [<-|Hne].
        -- rewrite queueOf_set_eq in Hold. apply elem_of_app in Hold as [?|Hl]; [by left|].
           apply list_elem_of_singleton in Hl as ->. right. exists m. split; [|done].
           apply (lookup_weaken _ _ _ _ (lookup_insert_eq (heap s) l0 m)) in Hh. exact Hh.
        -- rewrite queueOf_set_ne in Hold by done. by left.
    + assert (Hcons1 : consistentFiles (unlinked (id m) s)).
      { intros name' m'. unfold unlinked. destruct (fsFault s (id m)); simpl; [apply Hcons|].
        intros H. apply lookup_delete_Some in H as [_ H]. by apply Hcons. }
      destruct (IH n (unlinked (id m) s) Hnd Hcons1)
        as (n' & s' & -> & Hh & Hq & Hf & He & Ht & Hlive & Hterm & Hout & Hconv).
      assert (Hbase : heap (unlinked (id m) s) = heap s /\
                      messageQueues (unlinked (id m) s) = messageQueues s /\
                      fsFault (unlinked (id m) s) = fsFault s /\
                      events (unlinked (id m) s) = events s /\
                      retryTimers (unlinked (id m) s) = retryTimers s).
      { unfold unlinked. by destruct (fsFault s (id m)). }
      destruct Hbase as (Hh0 & Hq0 & Hf0 & He0 & Ht0).
      assert (Hother : forall name', name' <> name ->
                files (unlinked (id m) s) !! name' = files s !! name').
      { intros name' Hne. unfold unlinked. destruct (fsFault s (id m)); simpl; [done|].
        rewrite lookup_delete_ne; [done|congruence]. }
      rewrite Hh0 in Hh. rewrite Hf0 in Hf. rewrite He0 in He. rewrite Ht0 in Ht.
      exists n', s'. split_and!; try done.
      * intros k. rewrite <- (queueOf_eq s (unlinked (id m) s) k Hq0). apply Hq.
      * intros name' m' [->|Hin]%elem_of_cons Hf' Hl'; [congruence|].
        assert (name' <> name) by (intros ->; done).
        destruct (Hlive name' m' Hin) as (Hkeep & l & Hnone & Hsome & Hinq);
          [by rewrite Hother|done|].
        split; [done|]. exists l. by rewrite <- Hh0.
      * intros name' m' [->|Hin]%elem_of_cons Hf' Hl' Hfault.
        -- rewrite Hfile in Hf'. injection Hf' as <-.
           rewrite (Hout name Hname). unfold unlinked. rewrite Hid, Hfault. simpl.
           apply lookup_delete_eq.
        -- assert (name' <> name) by (intros ->; done).
           apply (Hterm name' m' Hin); [by rewrite Hother|done|by rewrite Hf0].
      * intros name' [Hne Hnin]%not_elem_of_cons. rewrite Hout by done. by apply Hother.
      * intros k l Hin. destruct (Hconv k l Hin) as [Hold|Hnew]; [|by right].
        left. by rewrite <- (queueOf_eq s (unlinked (id m) s) k Hq0).
Qed.

Lemma loadEntries_none_live names n s :
  (forall name m, files s !! name = Some m -> isLive (status m) = false) ->
  exists s', loadEntries names n s = (Normal n, s') /\
    isProcessing s' = isProcessing s /\ messageQueues s' = messageQueues s /\
    heap s' = heap s.
Proof.
  revert s. induction names as [|name names IH]; intros s Hdead; [by exists s|].
  simpl. unfold bind at 1. rewrite loadEntry_run.
  destruct (files s !! name) as [m|] eqn:Hfile; [|by apply IH].
  rewrite (Hdead name m Hfile).
  assert (Hbase : isProcessing (unlinked (id m) s) = isProcessing s /\
                  messageQueues (unlinked (id m) s) = messageQueues s /\
                  heap (unlinked (id m) s) = heap s).
  { unfold unlinked. by destruct (fsFault s (id m)). }
  destruct Hbase as (Hp & Hq & Hh).
  destruct (IH (unlinked (id m) s)) as (s' & -> & Hp' & Hq' & Hh').
  { intros name' m'. unfold unlinked. destruct (fsFault s (id m)); simpl; [apply Hdead|].
    intros H. apply lookup_delete_Some in H as [_ H]. by apply (Hdead name'). }
  exists s'. split_and!; [done|congruence..].
Qed.

Definition directory (s : State) : list string := map fst (map_to_list (files s)).

Lemma directory_NoDup s : NoDup (directory s).
Proof. apply NoDup_fst_map_to_list. Qed.

Lemma directory_elem name m s : files s !! name = Some m -> name ∈ directory s.
Proof.
  intros H. apply list_elem_of_fmap. exists (name, m). split; [done|].
  by apply elem_of_map_to_list.
Qed.

(** The loop of [loadPersistedMessages] over the directory listing returns
    and it rebuilds the queues from the files: every pending or retrying
    message on disk becomes a new object queued under its key, its file
    kept; every delivered or failed one has its file removed (when the
    unlink succeeds); what the queues held stays in front, and nothing
    else is queued. *)
Theorem rehydration_requeues_live_files (s : State) :
  consistentFiles s ->
  exists n s', loadEntries (directory s) 0 s = (Normal n, s') /\
    (forall name m, files s !! name = Some m -> isLive (status m) = true ->
       files s' !! name = Some m /\
       exists l, heap s !! l = None /\ heap s' !! l = Some m /\
                 l ∈ queueOf (getQueueKey (targetAgentId m) (worktree m)) s') /\
    (forall name m, files s !! name = Some m -> isLive (status m) = false ->
       fsFault s name = None -> files s' !! name = None) /\
    (forall k, queueOf k s `prefix_of` queueOf k s') /\
    (forall k l, l ∈ queueOf k s' ->
       l ∈ queueOf k s \/
       exists m, heap s' !! l = Some m /\ isLive (status m) = true /\
                 k = getQueueKey (targetAgentId m) (worktree m)).
Proof.
  intros Hcons.
  destruct (loadEntries_spec (directory s) 0 s (directory_NoDup s) Hcons)
    as (n & s' & Hrun & _ & Hq & _ & _ & _ & Hlive & Hterm & _ & Hconv).
  exists n, s'. split_and!; try done.
  - intros name m Hf Hl. apply (Hlive name m); [by eapply directory_elem|done..].
  - intros name m Hf Hl Hfault. apply (Hterm name m); [by eapply directory_elem|done..].
Qed.

Definition diskState : State :=
  constructor ∅ (fun _ => Declined)
    (list_to_map [("a", exampleMessage "a" "worker-1" None NORMAL);
                  ("b", set_status DELIVERED (exampleMessage "b" "worker-1" None NORMAL))])
    (fun _ => None) 0.

Lemma rehydration_requeues_live_files_witness :
  exists n s', loadEntries (directory diskState) 0 diskState = (Normal n, s') /\
    (forall name m, files diskState !! name = Some m -> isLive (status m) = true ->
       files s' !! name = Some m /\
       exists l, heap diskState !! l = None /\ heap s' !! l = Some m /\
                 l ∈ queueOf (getQueueKey (targetAgentId m) (worktree m)) s') /\
    (forall name m, files diskState !! name = Some m -> isLive (status m) = false ->
       fsFault diskState name = None -> files s' !! name = None) /\
    (forall k, queueOf k diskState `prefix_of` queueOf k s') /\
    (forall k l, l ∈ queueOf k s' ->
       l ∈ queueOf k diskState \/
       exists m, heap s' !! l = Some m /\ isLive (status m) = true /\
                 k = getQueueKey (targetAgentId m) (worktree m)).
Proof.
  apply (rehydration_requeues_live_files diskState).
  apply (bool_decide_eq_true_1 _). vm_compute. reflexivity.
Defined.

(** With nothing but delivered or failed messages on disk,
    [loadPersistedMessages] starts no processing and leaves the queues and
    the objects as they were. *)
Theorem loadPersistedMessages_nothing_live (s : State) :
  map_Forall (fun _ m => isLive (status m) = false) (files s) ->
  exists s', loadPersistedMessages s = (Normal tt, s') /\
    isProcessing s' = isProcessing s /\ messageQueues s' = messageQueues s /\
    heap s' = heap s.
Proof.
  intros Hdead. unfold loadPersistedMessages, try_catch.
  unfold bind at 1, gets at 1. unfold bind at 1.
  destruct (loadEntries_none_live (map fst (map_to_list (files s))) 0 s Hdead)
    as (s' & -> & H).
  by exists s'.
Qed.

Definition deadDisk : State :=
  constructor ∅ (fun _ => Declined)
    (list_to_map [("b", set_status DELIVERED (exampleMessage "b" "worker-1" None NORMAL))])
    (fun _ => None) 0.

Lemma loadPersistedMessages_nothing_live_witness :
  exists s', loadPersistedMessages deadDisk = (Normal tt, s') /\
    isProcessing s' = isProcessing deadDisk /\
    messageQueues s' = messageQueues deadDisk /\ heap s' = heap deadDisk.
Proof.
  apply (loadPersistedMessages_nothing_live deadDisk).
  apply (bool_decide_eq_true_1 _). vm_compute. reflexivity.
Defined.

(** ** The message bus between its awaits *)

(** The methods above are each [async] method run with nothing else between
    its awaits. A call in fact runs up to its first [await] and hands control
    back; what is left of it runs later, one stretch at a time, and other
    calls and timer callbacks run in between. This module has the methods as
    the code has them, cut at their awaits: every stretch from one await to
    the next is one synchronous step on the messenger, and a call that has
    not come to its end is a suspended task. A listener of ["message:send"]
    that calls the messenger acts like that call made as the next step,
    since [deliverMessage] suspends right after the [emit]. *)
Module Async.

(** What [processQueue] holds across an await in the body of its [for]
    loop: the entry the iterator of the map stands at, by its key and its
    position in insertion order, the object [message] and the flag
    [processed]. The array [queue] is the one stored under the key. *)
Record Frame := mkFrame {
  queueKey : string;
  position : nat;
  message : loc;
  processed : bool;
}.

(** A suspended call, by the await it stands at. [data] is what
    [JSON.stringify] made of the message when [persistMessage] was called,
    if it made anything, on its way to the disk. *)
Inductive Task :=
| SendWriting (l : loc) (data : option Message)
| Delivering (frame : Frame) (result : bool)
| DeliveryWriting (frame : Frame) (data : option Message)
| DeliveryUnlinking (frame : Frame) (messageId : string)
| ErrorWriting (frame : Frame) (data : option Message) (e : string)
| Returned (frame : Frame) (success : bool)
| FailedWriting (frame : Frame) (data : option Message)
| RetryWriting (frame : Frame) (data : option Message)
| DeliveredWriting (l : loc) (messageId : string) (data : option Message)
| DeliveredUnlinking (l : loc) (messageId : string)
| MarkFailedWriting (l : loc) (data : option Message) (error : option string).

(** [persistMessage] up to its await: the text of the message as it is now. *)
Definition snapshot (l : loc) : Eff State (option Message) :=
  gets (fun s => heap s !! l).

(** [persistMessage] from its await: the write is made, or fails and is
    logged. *)
Definition land (data : option Message) : Eff State unit :=
  match data with
  | Some m => try_catch (fs_writeFile (id m) m) (fun _ => ret tt)
  | None => ret tt
  end.

(** The [catch] block of [deliverMessage] up to its await. *)
Definition failDelivery (frame : Frame) (e : string) : Eff State Task :=
  assign (message frame) (set_error e) ;;
  data <- snapshot (message frame) ;;
  ret (ErrorWriting frame data e).

(** [deliverMessage] up to its first await, which every call reaches. *)
Definition deliverMessage (frame : Frame) : Eff State Task :=
  try_catch
    (emit "message:delivering" (message frame) None ;;
     m <- deref (message frame) ;;
     result <- emitSend m ;;
     ret (Delivering frame result))
    (failDelivery frame).

(** The body of the [for] loop for one entry, up to its await if it comes to
    one: otherwise the result is the flag [processed] after it. *)
Definition visit (queueKey : string) (position : nat) (processed : bool)
    : Eff State (bool + Task) :=
  queue <- gets (queueOf queueKey) ;;
  match queue with
  | [] => ret (inl processed)
  | l :: _ =>
      m <- deref l ;;
      if negb (isLive (status m)) then
        shift queueKey ;; ret (inl true)
      else
        t <- deliverMessage (mkFrame queueKey position l processed) ;;
        ret (inr t)
  end.

(** The [for] loop over the entries from [position] on. *)
Fixpoint forLoop (keys : list string) (position : nat) (processed : bool)
    : Eff State (bool + Task) :=
  match keys with
  | [] => ret (inl processed)
  | queueKey :: keys' =>
      r <- visit queueKey position processed ;;
      match r with
      | inl processed' => forLoop keys' (S position) processed'
      | inr t => ret (inr t)
      end
  end.

(** The [while] loop up to an await, at most [fuel] passes. *)
Fixpoint whileLoop (fuel : nat) : Eff State (option Task) :=
  match fuel with
  | 0 => ret None
  | S fuel' =>
      running <- gets isProcessing ;;
      if running then
        keys <- gets (fun s => map_keys (messageQueues s)) ;;
        r <- forLoop keys 0 false ;;
        match r with
        | inr t => ret (Some t)
        | inl true => whileLoop fuel'
        | inl false => modify (set_isProcessing false) ;; ret None
        end
      else ret None
  end.

(** [processQueue] up to its first await. A pass that comes to no await and
    sets [processed] has removed a message, so that one pass more than there
    are messages is enough. *)
Definition processQueue : Eff State (option Task) :=
  fuel <- gets (fun s => S (backlog s)) ;;
  whileLoop fuel.

(** From the end of the [for] loop on. *)
Definition endPass (processed : bool) : Eff State (option Task) :=
  if processed then processQueue
  else modify (set_isProcessing false) ;; ret None.

(** From the end of the loop body for the entry of [frame] on: the iterator
    moves on over the map as it is now. *)
Definition resumeLoop (frame : Frame) (processed : bool) : Eff State (option Task) :=
  keys <- gets (fun s => drop (S (position frame)) (map_keys (messageQueues s))) ;;
  r <- forLoop keys (S (position frame)) processed ;;
  match r with
  | inr t => ret (Some t)
  | inl processed' => endPass processed'
  end.

(** [processQueue] from the point where [deliverMessage] has returned. *)
Definition afterDelivery (frame : Frame) (success : bool) : Eff State (option Task) :=
  if success then
    shift (queueKey frame) ;; resumeLoop frame true
  else
    m <- deref (message frame) ;;
    if (MAX_RETRIES <=? retryCount m)%nat then
      assign (message frame) (set_status FAILED) ;;
      assign (message frame) (set_error "Max retries exceeded") ;;
      data <- snapshot (message frame) ;;
      ret (Some (FailedWriting frame data))
    else
      assign (message frame) (set_status RETRYING) ;;
      assign (message frame) (set_retryCount (S (retryCount m))) ;;
      data <- snapshot (message frame) ;;
      ret (Some (RetryWriting frame data)).

(** The retry timer: [RETRY_DELAY_MS * Math.pow(2, message.retryCount - 1)]
    for the count the message has now, armed unless the message id has a
    timer. *)
Definition scheduleRetry (l : loc) : Eff State unit :=
  m <- deref l ;;
  let delay := match retryCount m with
               | 0 => RETRY_DELAY_MS / 2
               | S n => RETRY_DELAY_MS * 2 ^ n
               end in
  armed <- gets (fun s => bool_decide (is_Some (retryTimers s !! id m))) ;;
  when (negb armed)
    (modify (fun s => set_retryTimers (<[id m := mkTimer delay l]> (retryTimers s)) s)).

(** [startProcessing]: the promise of [processQueue] is dropped, also when
    it is rejected. *)
Definition startProcessing : Eff State (option Task) :=
  running <- gets isProcessing ;;
  if running then ret None
  else
    modify (set_isProcessing true) ;;
    try_catch processQueue (fun _ => ret None).

(** [send] up to its await. *)
Definition send (l : loc) : Eff State Task :=
  m <- deref l ;;
  let queueKey := getQueueKey (targetAgentId m) (worktree m) in
  present <- gets (fun s => map_has queueKey (messageQueues s)) ;;
  when (negb present)
    (modify (fun s => set_messageQueues (map_set queueKey [] (messageQueues s)) s)) ;;
  queue <- gets (queueOf queueKey) ;;
  if (MAX_QUEUE_SIZE <=? length queue)%nat then
    throw ("Message queue full for agent " +:+ targetAgentId m)
  else
    modify (fun s =>
      set_messageQueues
        (map_set queueKey (array_sort (byPriority (heap s)) (queue ++ [l]))
           (messageQueues s)) s) ;;
    data <- snapshot l ;;
    ret (SendWriting l data).

(** [markDelivered] up to its first await, if it comes to one. *)
Definition markDelivered (messageId : string) : Eff State (option Task) :=
  clearRetryTimer messageId ;;
  found <- gets (fun s => findMessage (heap s) messageId (messageQueues s)) ;;
  match found with
  | Some l =>
      assign l (set_status DELIVERED) ;;
      now <- gets clock ;;
      assign l (set_deliveredAt now) ;;
      data <- snapshot l ;;
      ret (Some (DeliveredWriting l messageId data))
  | None => ret None
  end.

(** [markFailed] up to its await, if it comes to it. *)
Definition markFailed (messageId : string) (error : option string)
    : Eff State (option Task) :=
  clearRetryTimer messageId ;;
  found <- gets (fun s => findMessage (heap s) messageId (messageQueues s)) ;;
  match found with
  | Some l =>
      assign l (set_status FAILED) ;;
      assign l (set_error (errorText error)) ;;
      now <- gets clock ;;
      assign l (set_failedAt now) ;;
      data <- snapshot l ;;
      ret (Some (MarkFailedWriting l data error))
  | None => ret None
  end.

(** A suspended call goes on, up to its next await or to its end: the
    result is the call that is suspended afterwards, if one is. For [send]
    that is the [processQueue] it has started. *)
Definition resume (t : Task) : Eff State (option Task) :=
  match t with
  | SendWriting l data =>
      land data ;;
      emit "message:queued" l None ;;
      startProcessing
  | Delivering frame result =>
      try_catch
        (if result && delivered_of result then
           assign (message frame) (set_status DELIVERED) ;;
           now <- gets clock ;;
           assign (message frame) (set_deliveredAt now) ;;
           data <- snapshot (message frame) ;;
           ret (Some (DeliveryWriting frame data))
         else ret (Some (Returned frame false)))
        (fun e => t' <- failDelivery frame e ;; ret (Some t'))
  | DeliveryWriting frame data =>
      try_catch
        (land data ;;
         m <- deref (message frame) ;;
         ret (Some (DeliveryUnlinking frame (id m))))
        (fun e => t' <- failDelivery frame e ;; ret (Some t'))
  | DeliveryUnlinking frame messageId =>
      try_catch
        (deletePersistedMessage messageId ;;
         emit "message:delivered" (message frame) None ;;
         ret (Some (Returned frame true)))
        (fun e => t' <- failDelivery frame e ;; ret (Some t'))
  | ErrorWriting frame data e =>
      land data ;;
      emit "message:error" (message frame) (Some e) ;;
      ret (Some (Returned frame false))
  | Returned frame success => afterDelivery frame success
  | FailedWriting frame data =>
      land data ;;
      emit "message:failed" (message frame) None ;;
      shift (queueKey frame) ;;
      resumeLoop frame true
  | RetryWriting frame data =>
      land data ;;
      scheduleRetry (message frame) ;;
      endPass (processed frame)
  | DeliveredWriting l messageId data =>
      land data ;;
      ret (Some (DeliveredUnlinking l messageId))
  | DeliveredUnlinking l messageId =>
      deletePersistedMessage messageId ;;
      emit "message:delivered" l None ;;
      ret None
  | MarkFailedWriting l data error =>
      land data ;;
      emit "message:failed" l error ;;
      ret None
  end.

(** The messenger and the calls that are under way. *)
Record System := mkSystem {
  world : State;
  suspended : list Task;
}.

Definition idle (s : State) : System := mkSystem s [].

(** What can happen next: a call from outside, a retry timer firing, or
    one of the suspended calls going on. *)
Inductive Action :=
| Send (l : loc)
| MarkDelivered (messageId : string)
| MarkFailed (messageId : string) (error : option string)
| Fire (messageId : string)
| Resume (n : nat).

(** The state a step leaves, with the call it has suspended, if it has:
    a call that throws is over. *)
Definition settle {A} (tasks : list Task) (next : A -> list Task)
    (r : Completion A * State) : System :=
  mkSystem (snd r)
    (tasks ++ match fst r with
              | Normal a => next a
              | Throw _ => []
              end).

Definition step (a : Action) (sys : System) : System :=
  match a with
  | Send l => settle (suspended sys) (fun t => [t]) (send l (world sys))
  | MarkDelivered i => settle (suspended sys) option_list (markDelivered i (world sys))
  | MarkFailed i e => settle (suspended sys) option_list (markFailed i e (world sys))
  | Fire i => settle (suspended sys) (fun _ => []) (fireTimer i (world sys))
  | Resume n =>
      match suspended sys !! n with
      | Some t => settle (delete n (suspended sys)) option_list (resume t (world sys))
      | None => sys
      end
  end.

Definition run (actions : list Action) (sys : System) : System :=
  fold_left (fun sys a => step a sys) actions sys.

(** *** A call and its stretches *)

(** [persistMessage] is its two stretches, one after the other. *)
Lemma persistMessage_cut l s :
  persistMessage l s = (data <- snapshot l ;; land data) s.
Proof.
  unfold persistMessage, snapshot, land, try_catch, bind, gets, deref.
  by destruct (heap s !! l).
Qed.

Lemma land_run m s :
  land (Some m) s
  = (Normal tt, match fsFault s (id m) with
                | None => set_files (<[id m := m]> (files s)) s
                | Some _ => s
                end).
Proof. unfold land, try_catch, fs_writeFile. by destruct (fsFault s (id m)). Qed.

(** *** Every stretch but the first of a [send] only drains *)

Lemma drains_snapshot l : respects drains (snapshot l).
Proof. apply respects_gets. typeclasses eauto. Qed.

Lemma drains_land data : respects drains (land data).
Proof.
  destruct data; simpl; repeat respects_step. apply drains_fs_writeFile.
Qed.

#[local] Hint Resolve drains_snapshot drains_land drains_emitSend : drains.

Lemma drains_failDelivery frame e : respects drains (failDelivery frame e).
Proof. unfold failDelivery. drains_auto. Qed.

#[local] Hint Resolve drains_failDelivery : drains.

Lemma drains_deliver frame : respects drains (deliverMessage frame).
Proof. unfold deliverMessage. drains_auto. Qed.

#[local] Hint Resolve drains_deliver : drains.

Lemma drains_visit k position processed : respects drains (visit k position processed).
Proof. unfold visit. drains_auto. Qed.

Lemma drains_forLoop keys position processed :
  respects drains (forLoop keys position processed).
Proof.
  revert position processed. induction keys as [|k keys IH]; intros position processed; simpl.
  - drains_auto.
  - respects_step; [apply drains_visit|]. destruct a; [apply IH|drains_auto].
Qed.

#[local] Hint Resolve drains_forLoop : drains.

Lemma drains_whileLoop fuel : respects drains (whileLoop fuel).
Proof.
  induction fuel as [|fuel IH]; simpl; [drains_auto|].
  respects_step; [drains_auto|]. destruct a; [|drains_auto].
  respects_step; [drains_auto|]. respects_step; [drains_auto|].
  destruct a0 as [[]|]; [apply IH|drains_auto|drains_auto].
Qed.

Lemma drains_process : respects drains processQueue.
Proof. unfold processQueue. respects_step; [drains_auto|]. apply drains_whileLoop. Qed.

#[local] Hint Resolve drains_process : drains.

Lemma drains_endPass processed : respects drains (endPass processed).
Proof. unfold endPass. drains_auto. Qed.

#[local] Hint Resolve drains_endPass : drains.

Lemma drains_resumeLoop frame processed : respects drains (resumeLoop frame processed).
Proof. unfold resumeLoop. drains_auto. Qed.

#[local] Hint Resolve drains_resumeLoop : drains.

Lemma drains_afterDelivery frame success : respects drains (afterDelivery frame success).
Proof. unfold afterDelivery. drains_auto. Qed.

Lemma drains_scheduleRetry l : respects drains (scheduleRetry l).
Proof. unfold scheduleRetry. drains_auto. Qed.

Lemma drains_start : respects drains startProcessing.
Proof. unfold startProcessing. drains_auto. Qed.

#[local] Hint Resolve drains_afterDelivery drains_scheduleRetry drains_start : drains.

Lemma drains_resume t : respects drains (resume t).
Proof. destruct t; simpl; drains_auto. Qed.

Lemma drains_delivered i : respects drains (markDelivered i).
Proof. unfold markDelivered, clearRetryTimer. drains_auto. Qed.

Lemma drains_failed i e : respects drains (markFailed i e).
Proof. unfold markFailed, clearRetryTimer. drains_auto. Qed.

(** Every step but a [send] leaves the objects their static fields and
    takes messages from the heads of queues only. *)
Lemma drains_step a sys :
  (forall l, a <> Send l) -> drains (world sys) (world (step a sys)).
Proof.
  intros Ha. destruct a as [l|i|i e|i|n]; simpl.
  - by destruct (Ha l).
  - apply drains_delivered.
  - apply drains_failed.
  - apply drains_fireTimer.
  - destruct (suspended sys !! n); [apply drains_resume|reflexivity].
Qed.

(** *** The first stretch of a [send] *)

Lemma send_run l m s :
  heap s !! l = Some m ->
  length (queueOf (getQueueKey (targetAgentId m) (worktree m)) s) < MAX_QUEUE_SIZE ->
  send l s
  = (Normal (SendWriting l (Some m)),
     set_messageQueues
       (map_set (getQueueKey (targetAgentId m) (worktree m))
          (array_sort (byPriority (heap s))
             (queueOf (getQueueKey (targetAgentId m) (worktree m)) s ++ [l]))
          (messageQueues s)) s).
Proof.
  intros Hl Hlen. unfold send.
  set (key := getQueueKey (targetAgentId m) (worktree m)) in *.
  unfold bind at 1. rewrite (deref_Some _ _ _ Hl). fold key.
  unfold bind at 1, gets at 1. unfold bind at 1.
  destruct (map_has key (messageQueues s)) eqn:Hhas; simpl negb; unfold when.
  - unfold ret at 1. unfold bind at 1, gets at 1.
    destruct (Nat.leb_spec MAX_QUEUE_SIZE (length (queueOf key s))); [lia|].
    unfold bind at 1, modify at 1. unfold bind, snapshot, gets, ret. simpl. by rewrite Hl.
  - unfold modify at 1. unfold bind at 1, gets at 1.
    rewrite queueOf_set_empty by done.
    destruct (Nat.leb_spec MAX_QUEUE_SIZE (length (queueOf key s))); [lia|].
    unfold bind at 1, modify at 1. unfold bind, snapshot, gets, ret.
    cbn [messageQueues set_messageQueues heap]. by rewrite map_set_set, Hl.
Qed.

Lemma send_full l m s :
  heap s !! l = Some m ->
  MAX_QUEUE_SIZE <= length (queueOf (getQueueKey (targetAgentId m) (worktree m)) s) ->
  send l s = (Throw ("Message queue full for agent " +:+ targetAgentId m), s).
Proof.
  intros Hl Hfull. unfold send, bind.
  rewrite (deref_Some _ _ _ Hl). simpl.
  rewrite queueOf_has; simpl.
  - destruct (Nat.leb_spec MAX_QUEUE_SIZE
      (length (queueOf (getQueueKey (targetAgentId m) (worktree m)) s))); [done|lia].
  - intros E. rewrite E in Hfull. simpl in Hfull. unfold MAX_QUEUE_SIZE in Hfull. lia.
Qed.

Lemma send_dangling l s : heap s !! l = None -> send l s = (Throw "TypeError", s).
Proof. intros H. unfold send, bind, deref. by rewrite H. Qed.

(** The first stretch of [send] either throws and leaves the queues as they
    are, or puts the message into the queue of its key by a stable sort. *)
Lemma send_queues l s :
  sameObjects s (snd (send l s)) /\
  ((forall k, queueOf k (snd (send l s)) = queueOf k s) \/
   exists key, keyOf (heap s) l = Some key /\
     queueOf key (snd (send l s))
       = array_sort (byPriority (heap s)) (queueOf key s ++ [l]) /\
     forall k, k <> key -> queueOf k (snd (send l s)) = queueOf k s).
Proof.
  destruct (heap s !! l) as [m|] eqn:Hl.
  - set (key := getQueueKey (targetAgentId m) (worktree m)).
    destruct (Nat.le_gt_cases MAX_QUEUE_SIZE (length (queueOf key s))) as [Hfull|Hroom].
    + rewrite (send_full l m s Hl Hfull). simpl. split; [done|by left].
    + rewrite (send_run l m s Hl Hroom). split; [done|].
      right. exists key. split; [unfold keyOf; by rewrite Hl|].
      fold key. simpl. split.
      * apply queueOf_set_eq.
      * intros k Hk. by apply queueOf_set_ne.
  - rewrite (send_dangling l s Hl). simpl. split; [done|by left].
Qed.

(** *** Queues that are sorted stay sorted *)

(** The objects passed to [send] for the queue [key], in the order of the calls. *)
Definition sentTo (h : gmap loc Message) (key : string) (actions : list Action) : list loc :=
  flat_map (fun a => match a with
                     | Send l => if decide (keyOf h l = Some key) then [l] else []
                     | _ => []
                     end) actions.

Lemma run_snoc actions a sys : run (actions ++ [a]) sys = step a (run actions sys).
Proof. unfold run. by rewrite fold_left_app. Qed.

(** A queue that is ascending in the numeric priority is so after any
    calls of [send], [markDelivered] and [markFailed], any timers firing,
    and the suspended calls going on in any order in between; and its
    messages of any one priority are the ones it had, followed by the ones
    passed to [send] since, in that order, less the ones removed. The
    stability of the sort is what keeps the second part. *)
Theorem sorted_queue_stays_sorted (sys : System) (actions : list Action) (key : string) :
  let s0 := world sys in
  let s := world (run actions sys) in
  StronglySorted (byPriorityLe (heap s0)) (queueOf key s0) ->
  StronglySorted (byPriorityLe (heap s)) (queueOf key s) /\
  forall p : Z,
    filter (fun l => priorityOf (heap s) l = p) (queueOf key s)
    `sublist_of` filter (fun l => priorityOf (heap s) l = p)
                   (queueOf key s0 ++ sentTo (heap s) key actions)%list.
Proof.
  intros s0 s Hsorted0. subst s.
  set (h := heap s0) in *.
  assert (Hinv : sameObjects s0 (world (run actions sys)) /\
                 StronglySorted (byPriorityLe h) (queueOf key (world (run actions sys))) /\
                 forall p, filter (fun l => priorityOf h l = p)
                             (queueOf key (world (run actions sys)))
                           `sublist_of` filter (fun l => priorityOf h l = p)
                                          (queueOf key s0 ++ sentTo h key actions)%list).
  { induction actions as [|a actions IH] using rev_ind.
    - split; [done|]. split; [done|]. intros p. simpl. by rewrite app_nil_r.
    - rewrite run_snoc. destruct IH as (Hobj & Hs & Hf).
      set (sys1 := run actions sys) in *.
      assert (Hsent : forall a', (forall l, a' <> Send l) ->
                sentTo h key (actions ++ [a']) = sentTo h key actions).
      { intros a' Ha. unfold sentTo. rewrite flat_map_app. simpl.
        destruct a'; try by rewrite !app_nil_r. by destruct (Ha l). }
      assert (Hother : forall a', (forall l, a' <> Send l) ->
                sameObjects s0 (world (step a' sys1)) /\
                StronglySorted (byPriorityLe h) (queueOf key (world (step a' sys1))) /\
                forall p, filter (fun l => priorityOf h l = p)
                            (queueOf key (world (step a' sys1)))
                          `sublist_of` filter (fun l => priorityOf h l = p)
                                         (queueOf key s0 ++ sentTo h key (actions ++ [a']))%list).
      { intros a' Ha. destruct (drains_step a' sys1 Ha) as [H1 H2].
        split; [intros l; by rewrite H1|]. rewrite Hsent by done.
        destruct (H2 key) as [pre Hpre]. rewrite Hpre in Hs, Hf. split.
        * by apply StronglySorted_app_1_r in Hs.
        * intros p. specialize (Hf p). rewrite filter_app in Hf.
          etransitivity; [|exact Hf]. by apply sublist_inserts_l. }
      destruct a as [l|i|i e|i|n]; [|by apply Hother..].
      simpl. destruct (send_queues l (world sys1)) as [He1 He2].
      split; [intros l'; by rewrite He1, Hobj|].
      unfold sentTo. rewrite flat_map_app. simpl. rewrite app_nil_r.
      fold (sentTo h key actions).
      destruct He2 as [Hsame|(key' & Hkey & Hq & Hrest)].
      + rewrite Hsame. split; [done|]. intros p. rewrite app_assoc, filter_app.
        by apply sublist_inserts_r.
      + assert (keyOf h l = Some key') as Hkey0.
        { rewrite <- Hkey. symmetry. by apply (sameObjects_keyOf s0 (world sys1)). }
        rewrite Hkey0. destruct (decide (key = key')) as [->|Hne].
        * rewrite decide_True by done. rewrite Hq.
          rewrite (byPriority_ext h (heap (world sys1)))
            by (intros; by apply (sameObjects_priorityOf s0 (world sys1))).
          split; [apply array_sort_sorted|].
          intros p. rewrite array_sort_stable, app_assoc, !filter_app.
          apply sublist_app; [|done]. rewrite <- filter_app. apply Hf.
        * rewrite decide_False by congruence. rewrite app_nil_r, Hrest by done.
          done. }
  destruct Hinv as (Hobj & Hs & Hf).
  set (s := world (run actions sys)) in *.
  assert (Hp : forall l, priorityOf (heap s) l = priorityOf h l).
  { intros l. by apply (sameObjects_priorityOf s0 s). }
  assert (Hk : forall l, keyOf (heap s) l = keyOf h l).
  { intros l. by apply (sameObjects_keyOf s0 s). }
  split.
  - clear Hf. induction Hs as [|a q Hs IH Ha]; constructor; [done|].
    eapply Forall_impl; [exact Ha|]. intros b. unfold byPriorityLe. by rewrite !Hp.
  - intros p.
    assert (Hsent : sentTo (heap s) key actions = sentTo h key actions).
    { unfold sentTo. apply flat_map_ext. intros [l| | | |]; try done. by rewrite Hk. }
    rewrite Hsent.
    rewrite (list_filter_iff _ (fun l => priorityOf h l = p) (queueOf key s))
      by (intros; by rewrite Hp).
    rewrite (list_filter_iff _ (fun l => priorityOf h l = p)
               (queueOf key s0 ++ sentTo h key actions)%list)
      by (intros; by rewrite Hp).
    apply Hf.
Qed.

Lemma assigned_insert l f m s :
  heap s !! l = Some m -> assigned l f s = set_heap (<[l := f m]> (heap s)) s.
Proof.
  intros Hl. unfold assigned. f_equal. apply map_eq. intros i.
  destruct (decide (i = l)) as [->|Hne].
  - by rewrite lookup_alter_eq, lookup_insert_eq, Hl.
  - by rewrite lookup_alter_ne, lookup_insert_ne.
Qed.

Lemma assign_run l f m s :
  heap s !! l = Some m ->
  assign l f s = (Normal tt, set_heap (<[l := f m]> (heap s)) s).
Proof.
  intros Hl. unfold assign, modify. fold (assigned l f s). by rewrite (assigned_insert l f m).
Qed.

Lemma visit_terminal key position processed l q m s :
  queueOf key s = l :: q -> heap s !! l = Some m -> isLive (status m) = false ->
  visit key position processed s
  = (Normal (inl true), set_messageQueues (map_set key q (messageQueues s)) s).
Proof.
  intros Hq Hl Hdead. unfold visit. unfold bind at 1, gets at 1. rewrite Hq.
  unfold bind at 1. rewrite (deref_Some _ _ _ Hl). rewrite Hdead.
  unfold bind, shift, modify, ret. cbn [negb]. cbv beta iota. by rewrite Hq.
Qed.

Lemma afterDelivery_retry frame m s :
  heap s !! message frame = Some m -> retryCount m < MAX_RETRIES ->
  afterDelivery frame false s
  = (Normal (Some (RetryWriting frame
                     (Some (set_retryCount (S (retryCount m)) (set_status RETRYING m))))),
     set_heap (<[message frame := set_retryCount (S (retryCount m)) (set_status RETRYING m)]>
                 (heap s)) s).
Proof.
  intros Hl Hlt. unfold afterDelivery. unfold bind at 1. rewrite (deref_Some _ _ _ Hl).
  destruct (Nat.leb_spec MAX_RETRIES (retryCount m)); [lia|].
  unfold bind at 1. rewrite (assign_run _ _ m) by done.
  unfold bind at 1. rewrite (assign_run _ _ (set_status RETRYING m))
    by (simpl; apply lookup_insert_eq).
  unfold bind, snapshot, gets, ret. simpl. rewrite insert_insert_eq, lookup_insert_eq. done.
Qed.

Lemma afterDelivery_giveUp frame m s :
  heap s !! message frame = Some m -> MAX_RETRIES <= retryCount m ->
  afterDelivery frame false s
  = (Normal (Some (FailedWriting frame
                     (Some (set_error "Max retries exceeded" (set_status FAILED m))))),
     set_heap (<[message frame := set_error "Max retries exceeded" (set_status FAILED m)]>
                 (heap s)) s).
Proof.
  intros Hl Hge. unfold afterDelivery. unfold bind at 1. rewrite (deref_Some _ _ _ Hl).
  destruct (Nat.leb_spec MAX_RETRIES (retryCount m)); [|lia].
  unfold bind at 1. rewrite (assign_run _ _ m) by done.
  unfold bind at 1. rewrite (assign_run _ _ (set_status FAILED m))
    by (simpl; apply lookup_insert_eq).
  unfold bind, snapshot, gets, ret. simpl. rewrite insert_insert_eq, lookup_insert_eq. done.
Qed.

(** What a write that has come back leaves. *)
Definition written (data : option Message) (s : State) : State :=
  match data with
  | Some d =>
      match fsFault s (id d) with
      | None => set_files (<[id d := d]> (files s)) s
      | Some _ => s
      end
  | None => s
  end.

Lemma land_written data s : land data s = (Normal tt, written data s).
Proof. destruct data as [d|]; [|done]. apply land_run. Qed.

Lemma written_fields data s :
  heap (written data s) = heap s /\ messageQueues (written data s) = messageQueues s /\
  retryTimers (written data s) = retryTimers s /\ events (written data s) = events s /\
  fsFault (written data s) = fsFault s /\
  forall d, data = Some d -> fsFault s (id d) = None ->
            files (written data s) = <[id d := d]> (files s).
Proof.
  unfold written. destruct data as [d|]; [|by repeat split].
  destruct (fsFault s (id d)) eqn:E; repeat split; try done.
  - intros d' [= <-]. congruence.
  - intros d' [= <-]. done.
Qed.

Lemma scheduleRetry_run l m s :
  heap s !! l = Some m ->
  scheduleRetry l s
  = (Normal tt,
     if bool_decide (is_Some (retryTimers s !! id m)) then s
     else set_retryTimers
            (<[id m := mkTimer (match retryCount m with
                                | 0 => RETRY_DELAY_MS / 2
                                | S n => RETRY_DELAY_MS * 2 ^ n
                                end) l]> (retryTimers s)) s).
Proof.
  intros Hl. unfold scheduleRetry. unfold bind at 1. rewrite (deref_Some _ _ _ Hl).
  unfold bind, gets. by destruct (bool_decide (is_Some (retryTimers s !! id m))).
Qed.

Lemma retry_written frame data m s :
  heap s !! message frame = Some m ->
  exists s',
    resume (RetryWriting frame data) s = endPass (processed frame) s' /\
    heap s' = heap s /\ messageQueues s' = messageQueues s /\ events s' = events s /\
    (forall d, data = Some d -> fsFault s (id d) = None ->
               files s' = <[id d := d]> (files s)) /\
    (forall n, retryCount m = S n -> retryTimers s !! id m = None ->
       retryTimers s'
       = <[id m := mkTimer (RETRY_DELAY_MS * 2 ^ n) (message frame)]> (retryTimers s) /\
       let s'' := snd (fireTimer (id m) s') in
       status <$> heap s'' !! message frame = Some PENDING /\
       retryTimers s'' !! id m = None) /\
    (is_Some (retryTimers s !! id m) -> retryTimers s' = retryTimers s).
Proof.
  intros Hl. destruct (written_fields data s) as (Hh & Hq & Ht & He & _ & Hf).
  assert (Hl' : heap (written data s) !! message frame = Some m) by by rewrite Hh.
  eexists. split.
  { simpl. unfold bind at 1. rewrite land_written.
    unfold bind at 1. rewrite (scheduleRetry_run _ m) by done. reflexivity. }
  rewrite Ht. destruct (retryTimers s !! id m) as [t|] eqn:Etimer.
  - rewrite bool_decide_eq_true_2 by by eexists.
    repeat split; try done.
  - rewrite bool_decide_eq_false_2 by (intros [? ?]; congruence).
    split; [done|]. split; [done|]. split; [done|]. split; [exact Hf|].
    split; [|by intros [? ?]].
    intros n Hn _. rewrite Hn. simpl. split; [done|].
    unfold fireTimer, bind, gets. simpl. rewrite lookup_insert_eq. simpl.
    rewrite (deref_Some _ m) by done. unfold modify, assign, modify. simpl.
    rewrite lookup_alter_eq, Hl'. split; [done|]. apply lookup_delete_eq.
Qed.

Lemma failure_written frame data m s :
  heap s !! message frame = Some m ->
  exists s',
    resume (FailedWriting frame data) s = resumeLoop frame true s' /\
    heap s' = heap s /\ retryTimers s' = retryTimers s /\
    (forall d, data = Some d -> fsFault s (id d) = None ->
               files s' = <[id d := d]> (files s)) /\
    events s' = mkEvent "message:failed" m None :: events s /\
    queueOf (queueKey frame) s' = tail (queueOf (queueKey frame) s) /\
    forall k, k <> queueKey frame -> queueOf k s' = queueOf k s.
Proof.
  intros Hl. destruct (written_fields data s) as (Hh & Hq & Ht & He & _ & Hf).
  assert (Hl' : heap (written data s) !! message frame = Some m) by by rewrite Hh.
  eexists. split.
  { simpl. unfold bind at 1. rewrite land_written.
    unfold bind at 1. rewrite (emit_run _ _ _ m) by done.
    unfold bind at 1, shift at 1, modify at 1. reflexivity. }
  split; [done|]. split; [done|]. split; [exact Hf|].
  split; [simpl; by rewrite He|]. split.
  - rewrite queueOf_set_eq. f_equal. by apply queueOf_eq.
  - intros k Hk. rewrite queueOf_set_ne by done. by apply queueOf_eq.
Qed.

Lemma markDelivered_start i l m s :
  findMessage (heap s) i (messageQueues s) = Some l -> heap s !! l = Some m ->
  markDelivered i s
  = (Normal (Some (DeliveredWriting l i
                     (Some (set_deliveredAt (clock s) (set_status DELIVERED m))))),
     set_heap (<[l := set_deliveredAt (clock s) (set_status DELIVERED m)]> (heap s))
       (set_retryTimers (delete i (retryTimers s)) s)).
Proof.
  intros Hfind Hl. unfold markDelivered, clearRetryTimer.
  unfold bind at 1, modify at 1. unfold bind at 1, gets at 1.
  cbn [heap messageQueues set_retryTimers]. rewrite Hfind.
  unfold bind at 1. rewrite (assign_run _ _ m) by done.
  unfold bind at 1, gets at 1.
  unfold bind at 1. rewrite (assign_run _ _ (set_status DELIVERED m))
    by (simpl; apply lookup_insert_eq).
  unfold bind, snapshot, gets, ret. simpl. rewrite insert_insert_eq, lookup_insert_eq. done.
Qed.

Lemma markFailed_start i e l m s :
  findMessage (heap s) i (messageQueues s) = Some l -> heap s !! l = Some m ->
  markFailed i e s
  = (Normal (Some (MarkFailedWriting l
                     (Some (set_failedAt (clock s) (set_error (errorText e) (set_status FAILED m))))
                     e)),
     set_heap (<[l := set_failedAt (clock s) (set_error (errorText e) (set_status FAILED m))]>
                 (heap s))
       (set_retryTimers (delete i (retryTimers s)) s)).
Proof.
  intros Hfind Hl. unfold markFailed, clearRetryTimer.
  unfold bind at 1, modify at 1. unfold bind at 1, gets at 1.
  cbn [heap messageQueues set_retryTimers]. rewrite Hfind.
  unfold bind at 1. rewrite (assign_run _ _ m) by done.
  unfold bind at 1. rewrite (assign_run _ _ (set_status FAILED m))
    by (simpl; apply lookup_insert_eq).
  unfold bind at 1, gets at 1.
  unfold bind at 1. rewrite (assign_run _ _ (set_error (errorText e) (set_status FAILED m)))
    by (simpl; apply lookup_insert_eq).
  unfold bind, snapshot, gets, ret. simpl.
  rewrite !insert_insert_eq, lookup_insert_eq. done.
Qed.

Lemma delivered_written l i data s :
  exists s',
    resume (DeliveredWriting l i data) s = (Normal (Some (DeliveredUnlinking l i)), s') /\
    heap s' = heap s /\ messageQueues s' = messageQueues s.
Proof.
  destruct (written_fields data s) as (Hh & Hq & _).
  eexists. split; [simpl; unfold bind; rewrite land_written; reflexivity|done].
Qed.

Lemma delivered_unlinked l i m s :
  heap s !! l = Some m ->
  exists s',
    resume (DeliveredUnlinking l i) s = (Normal None, s') /\
    heap s' = heap s /\ messageQueues s' = messageQueues s /\
    events s' = mkEvent "message:delivered" m None :: events s /\
    (fsFault s i = None -> files s' !! i = None).
Proof.
  intros Hl. eexists. split.
  { simpl. unfold bind at 1. rewrite deletePersistedMessage_run.
    unfold bind at 1. rewrite (emit_run _ _ _ m) by by rewrite heap_unlinked.
    reflexivity. }
  simpl. rewrite heap_unlinked, messageQueues_unlinked, events_unlinked.
  repeat split; try done.
  intros Hf. rewrite files_unlinked by done. apply lookup_delete_eq.
Qed.

Lemma failed_written l data e m s :
  heap s !! l = Some m ->
  exists s',
    resume (MarkFailedWriting l data e) s = (Normal None, s') /\
    heap s' = heap s /\ messageQueues s' = messageQueues s /\
    events s' = mkEvent "message:failed" m e :: events s /\
    forall d, data = Some d -> fsFault s (id d) = None ->
              files s' = <[id d := d]> (files s).
Proof.
  intros Hl. destruct (written_fields data s) as (Hh & Hq & Ht & He & _ & Hf).
  eexists. split.
  { simpl. unfold bind at 1. rewrite land_written.
    unfold bind at 1. rewrite (emit_run _ _ _ m) by by rewrite Hh. reflexivity. }
  simpl. rewrite He. repeat split; try done.
Qed.

(** C2, as the code has it. [s] is the messenger at the point in question,
    whatever has run before, and [m] the message object of the drain loop
    as it is then.
    - When [deliverMessage] has returned false and the retry count is below
      3, the message is marked retrying, its retry count goes up by one and
      its write is started, with nothing else changed; from 3 on it is
      marked failed with the error "Max retries exceeded" and its write is
      started.
    - When the write of the retrying message has come back, made if the
      file system takes it, the queues are as they were, the message still
      in its queue; a timer of 1000 ms times 2 to the power of the retry
      count less one (the count before the increment, when nothing else has
      changed it) is armed only if no retry timer is pending for the message
      id, and its firing sets the message back to pending and drops the
      timer; a pending timer is left as it is. The pass over the queues
      ends there.
    - When the write of the failed message has come back, "message:failed"
      is emitted and the head of the queue is removed, which is that message
      when it is still at the head; the pass goes on with the next queue. *)
Theorem drain_failure (s : State) (frame : Frame) (m : Message) (data : option Message) :
  heap s !! message frame = Some m ->
  (retryCount m < MAX_RETRIES ->
     let m' := set_retryCount (S (retryCount m)) (set_status RETRYING m) in
     afterDelivery frame false s
     = (Normal (Some (RetryWriting frame (Some m'))),
        set_heap (<[message frame := m']> (heap s)) s))
  /\
  (MAX_RETRIES <= retryCount m ->
     let m' := set_error "Max retries exceeded" (set_status FAILED m) in
     afterDelivery frame false s
     = (Normal (Some (FailedWriting frame (Some m'))),
        set_heap (<[message frame := m']> (heap s)) s))
  /\
  (exists s',
     resume (RetryWriting frame data) s = endPass (processed frame) s' /\
     heap s' = heap s /\ messageQueues s' = messageQueues s /\ events s' = events s /\
     (forall d, data = Some d -> fsFault s (id d) = None ->
                files s' = <[id d := d]> (files s)) /\
     (forall n, retryCount m = S n -> retryTimers s !! id m = None ->
        retryTimers s'
        = <[id m := mkTimer (RETRY_DELAY_MS * 2 ^ n) (message frame)]> (retryTimers s) /\
        let s'' := snd (fireTimer (id m) s') in
        status <$> heap s'' !! message frame = Some PENDING /\
        retryTimers s'' !! id m = None) /\
     (is_Some (retryTimers s !! id m) -> retryTimers s' = retryTimers s))
  /\
  (exists s',
     resume (FailedWriting frame data) s = resumeLoop frame true s' /\
     heap s' = heap s /\ retryTimers s' = retryTimers s /\
     (forall d, data = Some d -> fsFault s (id d) = None ->
                files s' = <[id d := d]> (files s)) /\
     events s' = mkEvent "message:failed" m None :: events s /\
     queueOf (queueKey frame) s' = tail (queueOf (queueKey frame) s) /\
     forall k, k <> queueKey frame -> queueOf k s' = queueOf k s).
Proof.
  intros Hl. split; [|split; [|split]].
  - intros Hlt. by apply afterDelivery_retry.
  - intros Hge. by apply afterDelivery_giveUp.
  - by apply retry_written.
  - by apply failure_written.
Qed.


(** *** The loop comes to an await or to its end *)

Lemma visit_settles k position processed s :
  match visit k position processed s with
  | (Normal (inl p), s1) =>
      backlog s1 <= backlog s /\ (p = true -> processed = true \/ backlog s1 < backlog s)
  | _ => True
  end.
Proof.
  unfold visit. unfold bind at 1, gets at 1.
  destruct (queueOf k s) as [|l q] eqn:Hq.
  - simpl. split; [done|]. by left.
  - unfold bind at 1, deref at 1. destruct (heap s !! l) as [m|]; [|done].
    destruct (negb (isLive (status m))).
    + unfold bind, shift, modify, ret. cbv beta iota.
      pose proof (backlog_shifted k l q s s eq_refl Hq) as H. unfold shifted in H.
      split; [lia|]. intros _. right. lia.
    + unfold bind. by destruct (deliverMessage _ s) as [[t|e] s1].
Qed.

Lemma forLoop_settles keys position processed s :
  match forLoop keys position processed s with
  | (Normal (inl p), s1) =>
      backlog s1 <= backlog s /\ (p = true -> processed = true \/ backlog s1 < backlog s)
  | _ => True
  end.
Proof.
  revert position processed s. induction keys as [|k keys IH]; intros position processed s.
  - simpl. split; [done|]. by left.
  - simpl. unfold bind. pose proof (visit_settles k position processed s) as Hv.
    destruct (visit k position processed s) as [[[p|t]|e] s1]; [|done|done].
    specialize (IH (S position) p s1).
    destruct (forLoop keys (S position) p s1) as [[[p'|t']|e'] s2]; [|done|done].
    destruct Hv as [Hle Hp], IH as [Hle' Hp']. split; [lia|].
    intros ->. destruct (Hp' eq_refl) as [->|Hlt]; [|right; lia].
    destruct (Hp eq_refl) as [->|Hlt]; [by left|right; lia].
Qed.

Lemma whileLoop_S n s :
  whileLoop (S n) s
  = if isProcessing s then
      match forLoop (map_keys (messageQueues s)) 0 false s with
      | (Normal (inr t), s1) => (Normal (Some t), s1)
      | (Normal (inl true), s1) => whileLoop n s1
      | (Normal (inl false), s1) => (Normal None, set_isProcessing false s1)
      | (Throw e, s1) => (Throw e, s1)
      end
    else (Normal None, s).
Proof.
  simpl. unfold bind, gets. destruct (isProcessing s); [|done].
  by destruct (forLoop _ 0 false s) as [[[[]|t]|e] s1].
Qed.

(** One pass more than there are messages is enough: with more passes
    allowed the loop does the same. *)
Lemma whileLoop_fuel n n' s :
  backlog s < n -> backlog s < n' -> whileLoop n s = whileLoop n' s.
Proof.
  revert n' s. induction n as [|n IH]; intros n' s Hn Hn'; [lia|].
  destruct n' as [|n']; [lia|]. rewrite !whileLoop_S.
  destruct (isProcessing s); [|done].
  pose proof (forLoop_settles (map_keys (messageQueues s)) 0 false s) as Hf.
  destruct (forLoop (map_keys (messageQueues s)) 0 false s) as [[[[]|t]|e] s1]; try done.
  destruct Hf as [_ Hp]. destruct (Hp eq_refl) as [?|Hlt]; [done|].
  apply IH; lia.
Qed.

Lemma processQueue_fuel n s : backlog s < n -> whileLoop n s = processQueue s.
Proof.
  intros Hn. unfold processQueue, bind, gets. apply whileLoop_fuel; [done|lia].
Qed.

(** *** The theorems at work *)

(** "a" and the critical "e" for worker-1, and three messages for
    worker-2; the subscriber returns without throwing. *)
Definition fiveMessages : State :=
  constructor (list_to_map [(0, exampleMessage "a" "worker-1" None NORMAL);
                            (1, exampleMessage "b" "worker-2" None NORMAL);
                            (2, exampleMessage "c" "worker-2" None NORMAL);
                            (3, exampleMessage "d" "worker-2" None NORMAL);
                            (4, exampleMessage "e" "worker-1" None CRITICAL)])
    (fun _ => Declined) ∅ (fun _ => None) 0.

(** A [send] with nothing else under way, up to the point where
    [deliverMessage] has returned for the head of the first queue, and from
    there to the end of the drain that the [send] has started. *)
Definition attempt (l : loc) : list Action := [Send l; Resume 0; Resume 0].
Definition conclude : list Action := [Resume 0; Resume 0].

Definition firstAttempt : System := run (attempt 0) (idle fiveMessages).
Definition fourthAttempt : System :=
  run (attempt 0 ++ conclude ++ attempt 1 ++ conclude ++ attempt 2 ++ conclude ++ attempt 3)
    (idle fiveMessages).

Example attempts_shape :
  let frame := mkFrame "default:worker-1" 0 0 false in
  suspended firstAttempt = [Returned frame false] /\
  (retryCount <$> heap (world firstAttempt) !! 0) = Some 0 /\
  suspended fourthAttempt = [Returned frame false] /\
  (retryCount <$> heap (world fourthAttempt) !! 0) = Some 3 /\
  messageQueues (world fourthAttempt)
  = [("default:worker-1", [0]); ("default:worker-2", [1; 2; 3])].
Proof. vm_compute. repeat split; reflexivity. Qed.

Lemma drain_failure_witness :
  let frame := mkFrame "default:worker-1" 0 0 false in
  let a := exampleMessage "a" "worker-1" None NORMAL in
  let a1 := set_retryCount 1 (set_status RETRYING a) in
  let a3 := set_retryCount 3 (set_status RETRYING a) in
  let a4 := set_error "Max retries exceeded" (set_status FAILED a3) in
  let s1 := world firstAttempt in
  let s2 := world (step (Resume 0) firstAttempt) in
  let s3 := world fourthAttempt in
  let s4 := world (step (Resume 0) fourthAttempt) in
  afterDelivery frame false s1
  = (Normal (Some (RetryWriting frame (Some a1))), set_heap (<[0 := a1]> (heap s1)) s1) /\
  (exists s',
     resume (RetryWriting frame (Some a1)) s2 = endPass false s' /\
     messageQueues s' = messageQueues s2 /\
     files s' = <["a" := a1]> (files s2) /\
     retryTimers s' = <["a" := mkTimer (RETRY_DELAY_MS * 2 ^ 0) 0]> (retryTimers s2) /\
     status <$> heap (snd (fireTimer "a" s')) !! 0 = Some PENDING) /\
  afterDelivery frame false s3
  = (Normal (Some (FailedWriting frame (Some a4))), set_heap (<[0 := a4]> (heap s3)) s3) /\
  (exists s',
     resume (FailedWriting frame (Some a4)) s4 = resumeLoop frame true s' /\
     files s' = <["a" := a4]> (files s4) /\
     events s' = mkEvent "message:failed" a4 None :: events s4 /\
     queueOf "default:worker-1" s' = []).
Proof.
  intros frame a a1 a3 a4 s1 s2 s3 s4.
  assert (H1 : heap s1 !! message frame = Some a) by (vm_compute; reflexivity).
  assert (H2 : heap s2 !! message frame = Some a1) by (vm_compute; reflexivity).
  assert (H3 : heap s3 !! message frame = Some a3) by (vm_compute; reflexivity).
  assert (H4 : heap s4 !! message frame = Some a4) by (vm_compute; reflexivity).
  split; [|split; [|split]].
  - apply (proj1 (drain_failure s1 frame a None H1)). vm_compute. lia.
  - destruct (proj1 (proj2 (proj2 (drain_failure s2 frame a1 (Some a1) H2))))
      as (s' & Hr & _ & Hq & _ & Hf & Ht & _).
    exists s'. split; [exact Hr|]. split; [exact Hq|].
    split; [apply (Hf a1 eq_refl); vm_compute; reflexivity|].
    destruct (Ht 0 eq_refl) as (Ht' & Hfire & _); [vm_compute; reflexivity|].
    split; [exact Ht'|exact Hfire].
  - apply (proj1 (proj2 (drain_failure s3 frame a3 None H3))). vm_compute. lia.
  - destruct (proj2 (proj2 (proj2 (drain_failure s4 frame a4 (Some a4) H4))))
      as (s' & Hr & _ & _ & Hf & He & Hq & _).
    exists s'. split; [exact Hr|].
    split; [apply (Hf a4 eq_refl); vm_compute; reflexivity|].
    split; [exact He|]. etransitivity; [exact Hq|]. vm_compute. reflexivity.
Defined.

(** The first attempt on "a" is over and its timer is pending; the
    subscriber then reports the delivery. *)
Definition retrying : System := run (attempt 0 ++ conclude) (idle fiveMessages).
Definition reported : System := step (MarkDelivered "a") retrying.


Lemma sorted_queue_stays_sorted_witness :
  let actions := [Send 0; Send 2; Resume 0; Send 1; Resume 0; Resume 1; Send 3; Resume 2;
                  Fire "a"; MarkDelivered "b"; Resume 0; Resume 0] in
  let s := world (run actions (idle exampleState)) in
  StronglySorted (byPriorityLe (heap s)) (queueOf "default:worker-1" s) /\
  forall p : Z,
    filter (fun l => priorityOf (heap s) l = p) (queueOf "default:worker-1" s)
    `sublist_of` filter (fun l => priorityOf (heap s) l = p)
                   (queueOf "default:worker-1" (world (idle exampleState))
                    ++ sentTo (heap s) "default:worker-1" actions)%list.
Proof.
  apply (sorted_queue_stays_sorted (idle exampleState)). constructor.
Defined.

Example interleaved_sends_order :
  let actions := [Send 0; Send 2; Resume 0; Send 1; Resume 0; Resume 1; Send 3; Resume 2;
                  Fire "a"; MarkDelivered "b"; Resume 0; Resume 0] in
  queueOf "default:worker-1" (world (run actions (idle exampleState))) = [1; 3; 0; 2].
Proof. vm_compute. reflexivity. Qed.

(** *** A call run alone *)

(** A call with nothing else in between: its stretches, one after the
    other, at most [fuel] of them. *)
Fixpoint finish (fuel : nat) (task : option Task) : Eff State unit :=
  match task, fuel with
  | Some t, S fuel' => next <- resume t ;; finish fuel' next
  | _, _ => ret tt
  end.

(** [Messenger.markDelivered] and [Messenger.markFailed] are these calls
    run alone. *)
Lemma findMessage_allocated h i queues l :
  findMessage h i queues = Some l -> is_Some (h !! l).
Proof.
  induction queues as [|[k queue] queues IH]; simpl; [done|].
  destruct (findInQueue h i queue) as [l'|] eqn:E; [|done].
  intros [= ->]. apply find_some in E as [_ E]. by destruct (h !! l).
Qed.

Lemma persisted_written l m s :
  heap s !! l = Some m -> persisted l s = written (Some m) s.
Proof. intros Hl. unfold persisted, written. by rewrite Hl. Qed.

(** [Messenger.markDelivered] and [Messenger.markFailed] are these calls
    run alone. *)
Lemma markDelivered_alone i s :
  (t <- markDelivered i ;; finish 2 t) s = (Normal tt, snd (Messenger.markDelivered i s)).
Proof.
  destruct (findMessage (heap s) i (messageQueues s)) as [l|] eqn:Hfind.
  - destruct (findMessage_allocated _ _ _ _ Hfind) as [m Hl].
    rewrite (markDelivered_run i l s Hfind) by by eexists.
    unfold bind at 1. rewrite (markDelivered_start i l m s Hfind Hl).
    set (m' := set_deliveredAt (clock s) (set_status DELIVERED m)).
    set (s1 := set_heap (<[l := m']> (heap s)) (set_retryTimers (delete i (retryTimers s)) s)).
    assert (Hs1 : assigned l (set_deliveredAt (clock s))
                    (assigned l (set_status DELIVERED)
                       (set_retryTimers (delete i (retryTimers s)) s)) = s1).
    { rewrite (assigned_insert l (set_status DELIVERED) m
                 (set_retryTimers (delete i (retryTimers s)) s)) by exact Hl.
      rewrite (assigned_insert l _ (set_status DELIVERED m)) by apply lookup_insert_eq.
      subst s1. cbn [heap set_heap]. by rewrite insert_insert_eq. }
    rewrite Hs1.
    assert (Hl1 : heap s1 !! l = Some m') by (subst s1; simpl; apply lookup_insert_eq).
    cbv [finish resume bind ret].
    rewrite land_written, deletePersistedMessage_run, emit_announced.
    + simpl. by rewrite (persisted_written l m').
    + rewrite heap_unlinked. destruct (written_fields (Some m') s1) as [-> _]. by eexists.
  - unfold Messenger.markDelivered, markDelivered, clearRetryTimer, bind, modify, gets.
    cbn [heap messageQueues set_retryTimers]. by rewrite Hfind.
Qed.

Lemma markFailed_alone i e s :
  (t <- markFailed i e ;; finish 1 t) s = (Normal tt, snd (Messenger.markFailed i e s)).
Proof.
  destruct (findMessage (heap s) i (messageQueues s)) as [l|] eqn:Hfind.
  - destruct (findMessage_allocated _ _ _ _ Hfind) as [m Hl].
    rewrite (markFailed_run i e l s Hfind) by by eexists.
    unfold bind at 1. rewrite (markFailed_start i e l m s Hfind Hl).
    set (m' := set_failedAt (clock s) (set_error (errorText e) (set_status FAILED m))).
    set (s1 := set_heap (<[l := m']> (heap s)) (set_retryTimers (delete i (retryTimers s)) s)).
    assert (Hs1 : assigned l (set_failedAt (clock s))
                    (assigned l (set_error (errorText e))
                       (assigned l (set_status FAILED)
                          (set_retryTimers (delete i (retryTimers s)) s))) = s1).
    { rewrite (assigned_insert l (set_status FAILED) m
                 (set_retryTimers (delete i (retryTimers s)) s)) by exact Hl.
      rewrite (assigned_insert l (set_error (errorText e)) (set_status FAILED m))
        by apply lookup_insert_eq.
      rewrite (assigned_insert l _ (set_error (errorText e) (set_status FAILED m)))
        by apply lookup_insert_eq.
      subst s1. cbn [heap set_heap]. by rewrite !insert_insert_eq. }
    rewrite Hs1.
    assert (Hl1 : heap s1 !! l = Some m') by (subst s1; simpl; apply lookup_insert_eq).
    cbv [finish resume bind ret].
    rewrite land_written, emit_announced.
    + simpl. by rewrite (persisted_written l m').
    + destruct (written_fields (Some m') s1) as [-> _]. by eexists.
  - unfold Messenger.markFailed, markFailed, clearRetryTimer, bind, modify, gets.
    cbn [heap messageQueues set_retryTimers]. by rewrite Hfind.
Qed.

(** *** Where the claims fail *)

(** The claim's timer is not armed when one is pending: a second attempt
    on "a", started by the next [send] while the timer of the first has not
    fired, leaves the timer of 1000 ms and arms none of 1000 * 2^1 ms. And
    the claim's removal takes another message when one was sent in between:
    "e" is sent while the write of the failed "a" is under way, the sort puts
    it in front, and the [shift] that follows the write removes "e", which
    was never attempted, and leaves "a" queued. *)
Lemma retry_differs :
  let second := run (attempt 0 ++ conclude ++ attempt 1 ++ conclude) (idle fiveMessages) in
  let raced := run [Resume 0; Send 4; Resume 0] fourthAttempt in
  (suspended second = [] /\
   (status <$> heap (world second) !! 0) = Some RETRYING /\
   (retryCount <$> heap (world second) !! 0) = Some 2 /\
   retryTimers (world second) = {[ "a" := mkTimer 1000 0 ]} /\
   forall i t, retryTimers (world second) !! i = Some t -> delay t <> RETRY_DELAY_MS * 2 ^ 1)
  /\
  ((status <$> heap (world raced) !! 0) = Some FAILED /\
   (error <$> heap (world raced) !! 0) = Some (Some "Max retries exceeded") /\
   queueOf "default:worker-1" (world raced) = [0] /\
   (status <$> heap (world raced) !! 4) = Some PENDING /\
   map (fun e => (ev_name e, id (ev_message e))) (events (world raced))
   = [("message:delivering", "b"); ("message:failed", "a"); ("message:delivering", "a");
      ("message:queued", "d"); ("message:delivering", "a"); ("message:queued", "c");
      ("message:delivering", "a"); ("message:queued", "b"); ("message:delivering", "a");
      ("message:queued", "a")]).
Proof.
  intros second raced. split.
  - assert (Ht : retryTimers (world second) = {[ "a" := mkTimer 1000 0 ]})
      by (vm_compute; reflexivity).
    split; [vm_compute; reflexivity|]. split; [vm_compute; reflexivity|].
    split; [vm_compute; reflexivity|]. split; [exact Ht|].
    intros i t. rewrite Ht. intros [_ <-]%lookup_singleton_Some. vm_compute. lia.
  - vm_compute. repeat split; reflexivity.
Qed.


(** A subscriber that reports the delivery from inside its listener, or
    before [deliverMessage] has gone on: the drain loop then marks the
    message retrying over the delivered status, and arms a timer for it. *)
Example report_during_attempt_is_overwritten :
  let sys := run [Send 0; Resume 0; MarkDelivered "a"; Resume 0; Resume 1; Resume 0; Resume 0;
                  Resume 0] (idle fiveMessages) in
  suspended sys = [] /\
  (status <$> heap (world sys) !! 0) = Some RETRYING /\
  (retryCount <$> heap (world sys) !! 0) = Some 1 /\
  retryTimers (world sys) = {[ "a" := mkTimer 1000 0 ]} /\
  queueOf "default:worker-1" (world sys) = [0].
Proof. vm_compute. repeat split; reflexivity. Qed.

(** [Messenger.send] is the call run alone, up to the end of the drain it
    starts. *)
Example send_alone :
  world (run [Send 0; Resume 0; Resume 0; Resume 0; Resume 0] (idle exampleState))
  = snd (Messenger.send 0 exampleState) /\
  world (run [Send 2; Resume 0; Resume 0; Resume 0; Resume 0] (idle retryingState))
  = snd (Messenger.send 2 retryingState).
Proof. vm_compute. split; reflexivity. Qed.

(** *** Starting over a directory of messages *)

(** [loadPersistedMessages], which [initialize] awaits before the factory
    hands the messenger out: no call runs between its awaits. The result is
    the [processQueue] it has started. *)
Definition loadPersistedMessages : Eff State (option Task) :=
  try_catch
    (entries <- gets directory ;;
     loadedCount <- loadEntries entries 0 ;;
     if (0 <? loadedCount)%nat then startProcessing else ret None)
    (fun _ => ret None).

Definition initialize (s : State) : System :=
  settle [] option_list (loadPersistedMessages s).

(** The files of two pending messages for worker-1, written by a messenger
    before: "a" of low priority, listed first, and the critical "b". The
    message "c" for worker-2 is made after the start. *)
Definition unsortedDisk : State :=
  constructor {[ 7 := exampleMessage "c" "worker-2" None NORMAL ]} (fun _ => Declined)
    (list_to_map [("a", exampleMessage "a" "worker-1" None LOW);
                  ("b", exampleMessage "b" "worker-1" None CRITICAL)])
    (fun _ => None) 0.

(** C3 fails on a messenger that starts over the files of pending messages:
    they are pushed on their queue in the order of the directory listing and
    the queue is not sorted, as [send] sorts it. Here the queue of worker-1
    holds the low "a" in front of the critical "b" and the drain loop
    attempts "a" first; the queue is as unsorted after a [send] to worker-2,
    made while the write of that attempt is under way, and at the end of all
    that was started, when "a" has been attempted twice and "b" not at
    all. *)
Theorem rehydrated_queue_unsorted :
  let started := initialize unsortedDisk in
  let later := run [Resume 0; Resume 0; Send 7; Resume 0; Resume 0; Resume 0; Resume 0;
                    Resume 0] started in
  directory unsortedDisk = ["a"; "b"] /\
  queueOf "default:worker-1" (world started) = [8; 9] /\
  priorityOf (heap (world started)) 8 = LOW /\
  priorityOf (heap (world started)) 9 = CRITICAL /\
  suspended started = [Delivering (mkFrame "default:worker-1" 0 8 false) true] /\
  ~ StronglySorted (byPriorityLe (heap (world started)))
      (queueOf "default:worker-1" (world started)) /\
  suspended later = [] /\
  queueOf "default:worker-1" (world later) = [8; 9] /\
  ~ StronglySorted (byPriorityLe (heap (world later)))
      (queueOf "default:worker-1" (world later)) /\
  map (fun e => (ev_name e, id (ev_message e))) (events (world later))
  = [("message:delivering", "a"); ("message:queued", "c"); ("message:delivering", "a")].
Proof.
  intros started later.
  assert (Hq : queueOf "default:worker-1" (world started) = [8; 9]) by (vm_compute; reflexivity).
  assert (Hq' : queueOf "default:worker-1" (world later) = [8; 9]) by (vm_compute; reflexivity).
  assert (H8 : priorityOf (heap (world started)) 8 = LOW) by (vm_compute; reflexivity).
  assert (H9 : priorityOf (heap (world started)) 9 = CRITICAL) by (vm_compute; reflexivity).
  assert (H8' : priorityOf (heap (world later)) 8 = LOW) by (vm_compute; reflexivity).
  assert (H9' : priorityOf (heap (world later)) 9 = CRITICAL) by (vm_compute; reflexivity).
  split; [vm_compute; reflexivity|]. split; [exact Hq|]. split; [exact H8|].
  split; [exact H9|]. split; [vm_compute; reflexivity|]. split; [|split; [|split]].
  - rewrite Hq. intros [_ H]%StronglySorted_inv. apply Forall_cons in H as [H _].
    unfold byPriorityLe in H. rewrite H8, H9 in H. unfold LOW, CRITICAL in H. lia.
  - vm_compute. reflexivity.
  - exact Hq'.
  - split; [|vm_compute; reflexivity].
    rewrite Hq'. intros [_ H]%StronglySorted_inv. apply Forall_cons in H as [H _].
    unfold byPriorityLe in H. rewrite H8', H9' in H. unfold LOW, CRITICAL in H. lia.
Qed.

(** The next [send] to the queue sorts it. *)
Example send_sorts_rehydrated_queue :
  let heap' := <[5 := exampleMessage "d" "worker-1" None NORMAL]> (heap unsortedDisk) in
  let started := initialize (set_heap heap' unsortedDisk) in
  queueOf "default:worker-1" (world started) = [8; 9] /\
  queueOf "default:worker-1" (world (step (Send 5) started)) = [9; 5; 8].
Proof. vm_compute. split; reflexivity. Qed.

End Async.

End Messenger.

(** ** The registry: [AgentRegistry] (agent-messenger.js, second part) *)

Module Registry.
Import Js.
Local Open Scope eff_scope.

(** A JavaScript value as [register] and [JSON.parse] hand it over. Numbers
    are the integers: process ids, epoch milliseconds and exit codes. An
    object is its list of own properties. *)
#[warnings="-register-all"]
Inductive Value :=
| VUndefined
| VNull
| VBool (b : bool)
| VNumber (n : Z)
| VString (s : string)
| VArray (items : list Value)
| VObject (fields : list (string * Value)).

(** [raw.name]: [undefined] when [raw] has no such property. *)
Definition prop (name : string) (raw : Value) : Value :=
  match raw with
  | VObject fields => default VUndefined (map_get name fields)
  | _ => VUndefined
  end.

(** The white space of [String.prototype.trim] and [parseInt]: the white
    space and the line terminators of ECMAScript. A string is the UTF-8 text
    of the JavaScript string, so that a character is one to three bytes
    here. In one byte: tab, line feed, vertical tab, form feed, carriage
    return and space. *)
Definition isWhiteSpace (c : ascii) : bool :=
  match nat_of_ascii c with
  | 9 | 10 | 11 | 12 | 13 | 32 => true
  | _ => false
  end.

(** In two bytes: the no-break space U+00A0. *)
Definition isWhiteSpace2 (a b : ascii) : bool :=
  match nat_of_ascii a, nat_of_ascii b with
  | 194, 160 => true
  | _, _ => false
  end.

(** In three bytes: U+1680, U+2000 to U+200A, the line and paragraph
    separators U+2028 and U+2029, U+202F, U+205F, U+3000, and the byte order
    mark U+FEFF. *)
Definition isWhiteSpace3 (a b c : ascii) : bool :=
  match nat_of_ascii a, nat_of_ascii b with
  | 225, 154 => Nat.eqb (nat_of_ascii c) 128
  | 226, 128 =>
      (128 <=? nat_of_ascii c)%nat && (nat_of_ascii c <=? 138)%nat
      || Nat.eqb (nat_of_ascii c) 168 || Nat.eqb (nat_of_ascii c) 169
      || Nat.eqb (nat_of_ascii c) 175
  | 226, 129 => Nat.eqb (nat_of_ascii c) 159
  | 227, 128 => Nat.eqb (nat_of_ascii c) 128
  | 239, 187 => Nat.eqb (nat_of_ascii c) 191
  | _, _ => false
  end.

(** What follows the first character of [s] when that is white space. *)
Definition afterWhiteSpace (s : string) : option string :=
  match s with
  | EmptyString => None
  | String a s1 =>
      if isWhiteSpace a then Some s1
      else match s1 with
           | EmptyString => None
           | String b s2 =>
               if isWhiteSpace2 a b then Some s2
               else match s2 with
                    | EmptyString => None
                    | String c s3 => if isWhiteSpace3 a b c then Some s3 else None
                    end
           end
  end.

Fixpoint trimStart (s : string) : string :=
  match s with
  | EmptyString => EmptyString
  | String a s1 =>
      if isWhiteSpace a then trimStart s1
      else match s1 with
           | EmptyString => s
           | String b s2 =>
               if isWhiteSpace2 a b then trimStart s2
               else match s2 with
                    | EmptyString => s
                    | String c s3 => if isWhiteSpace3 a b c then trimStart s3 else s
                    end
           end
  end.

(** [s] is cut where what follows is white space up to its end. *)
Fixpoint trimEnd (s : string) : string :=
  match s with
  | EmptyString => EmptyString
  | String c s' =>
      match trimStart s with
      | EmptyString => EmptyString
      | _ => String c (trimEnd s')
      end
  end.

Definition trim (s : string) : string := trimEnd (trimStart s).

Example trim_unicode :
  let nbsp := String (ascii_of_nat 194) (String (ascii_of_nat 160) "") in
  let bom := String (ascii_of_nat 239) (String (ascii_of_nat 187) (String (ascii_of_nat 191) "")) in
  trim (bom +:+ " a b" +:+ nbsp +:+ " ") = "a b".
Proof. vm_compute. reflexivity. Qed.

Definition MAX_REGISTRY_SIZE : nat := 1000.

Definition VALID_STATUSES : gset string :=
  {[ "pending"; "active"; "completed"; "failed"; "terminating" ]}.

Record Agent := mkAgent {
  id : string;
  worktree : string;
  branch : string;
  status : string;
  skillset : list string;
  persona : string;
  pid : option Z;
  startTime : option Z;
  endTime : option Z;
  exitCode : option Z;
  exitSignal : option string;
  metadata : Value;
}.

Definition set_startTime (v : option Z) (a : Agent) : Agent :=
  mkAgent (id a) (worktree a) (branch a) (status a) (skillset a) (persona a)
    (pid a) v (endTime a) (exitCode a) (exitSignal a) (metadata a).

(** [typeof v === "string" ? v.trim() : ""] *)
Definition trimmedString (v : Value) : string :=
  match v with VString s => trim s | _ => "" end.

(** [typeof v === "number" && v > 0 ? v : null] *)
Definition positiveNumber (v : Value) : option Z :=
  match v with
  | VNumber n => if (0 <? n)%Z then Some n else None
  | _ => None
  end.

Definition stringItems (items : list Value) : option (list string) :=
  mapM (fun v => match v with VString s => Some s | _ => None end) items.

Definition normalizeAgentData (raw : Value) : option Agent :=
  match raw with
  | VArray _ | VObject _ =>
      let id := trimmedString (prop "id" raw) in
      let worktree := trimmedString (prop "worktree" raw) in
      let branch := trimmedString (prop "branch" raw) in
      let status := trimmedString (prop "status" raw) in
      let skillset :=
        match prop "skillset" raw with
        | VArray items =>
            match stringItems items with
            | Some ss => map trim ss
            | None => []
            end
        | _ => []
        end in
      let persona := trimmedString (prop "persona" raw) in
      if String.eqb id "" || String.eqb worktree ""
         || negb (bool_decide (status ∈ VALID_STATUSES))
      then None
      else Some (mkAgent id worktree branch status skillset persona
                   (positiveNumber (prop "pid" raw))
                   (positiveNumber (prop "startTime" raw))
                   (positiveNumber (prop "endTime" raw))
                   (match prop "exitCode" raw with VNumber n => Some n | _ => None end)
                   (match prop "exitSignal" raw with VString s => Some s | _ => None end)
                   (match prop "metadata" raw with
                    | VArray items => VArray items
                    | VObject fields => VObject fields
                    | _ => VObject []
                    end))
  | _ => None
  end.

(** What [JSON.stringify] makes of a record. *)
Definition nullable {A} (f : A -> Value) (v : option A) : Value :=
  match v with Some x => f x | None => VNull end.

Definition toValue (a : Agent) : Value :=
  VObject [("id", VString (id a)); ("worktree", VString (worktree a));
           ("branch", VString (branch a)); ("status", VString (status a));
           ("skillset", VArray (map VString (skillset a)));
           ("persona", VString (persona a));
           ("pid", nullable VNumber (pid a));
           ("startTime", nullable VNumber (startTime a));
           ("endTime", nullable VNumber (endTime a));
           ("exitCode", nullable VNumber (exitCode a));
           ("exitSignal", nullable VString (exitSignal a));
           ("metadata", metadata a)].

(** The registry file: missing, unreadable for the given reason, text that
    is not JSON, or JSON text, which stands for the value it parses to. *)
Inductive File :=
| Missing
| Unreadable (code : string)
| Malformed
| Json (v : Value).

Record Event := mkEvent { ev_name : string; ev_agent : Agent }.

(** [persistenceLock] is the promise of the last write: [None] when it is
    fulfilled, as the constructor leaves it, or the error it is rejected
    with. [writeFault] is the error with which [mkdir] or [writeFile] fails,
    if they do; [events] is newest first. *)
Record State := mkState {
  agents : gmap string Agent;
  isDirty : bool;
  persistenceLock : option string;
  file : File;
  writeFault : option string;
  clock : Z;
  events : list Event;
}.

Definition set_agents (v : gmap string Agent) (s : State) : State :=
  mkState v (isDirty s) (persistenceLock s) (file s) (writeFault s) (clock s) (events s).
Definition set_isDirty (v : bool) (s : State) : State :=
  mkState (agents s) v (persistenceLock s) (file s) (writeFault s) (clock s) (events s).
Definition set_persistenceLock (v : option string) (s : State) : State :=
  mkState (agents s) (isDirty s) v (file s) (writeFault s) (clock s) (events s).
Definition set_file (v : File) (s : State) : State :=
  mkState (agents s) (isDirty s) (persistenceLock s) v (writeFault s) (clock s) (events s).
Definition set_events (v : list Event) (s : State) : State :=
  mkState (agents s) (isDirty s) (persistenceLock s) (file s) (writeFault s) (clock s) v.

Definition emit (name : string) (a : Agent) : Eff State unit :=
  modify (fun s => set_events (mkEvent name a :: events s) s).

(** [JSON.parse(await fs.readFile(registryPath, "utf8"))] *)
Definition readJson : Eff State Value :=
  fun s => match file s with
           | Missing => (Throw "ENOENT", s)
           | Unreadable code => (Throw code, s)
           | Malformed => (Throw "SyntaxError", s)
           | Json v => (Normal v, s)
           end.

Fixpoint loadEntries (entries : list Value) : Eff State unit :=
  match entries with
  | [] => ret tt
  | entry :: entries' =>
      match normalizeAgentData entry with
      | Some normalized =>
          modify (fun s => set_agents (<[id normalized := normalized]> (agents s)) s)
      | None => ret tt
      end ;;
      loadEntries entries'
  end.

Definition clear : Eff State unit := modify (set_agents ∅).

Definition loadFromDisk : Eff State unit :=
  try_catch
    (parsed <- readJson ;;
     match parsed with
     | VArray entries => clear ;; loadEntries entries
     | _ => clear
     end)
    (fun code => if String.eqb code "ENOENT" then clear else clear).

(** [persistToDisk] first awaits the promise of the write before it: when
    that one is rejected the await throws its error, and nothing is written
    and the promise stays as it is. Otherwise the write is made, and the
    promise of a write that fails is the new [persistenceLock]. *)
Definition persistToDisk : Eff State unit :=
  lock <- gets persistenceLock ;;
  match lock with
  | Some error => throw error
  | None =>
      fault <- gets writeFault ;;
      match fault with
      | Some code => modify (set_persistenceLock (Some code)) ;; throw code
      | None =>
          entries <- gets (fun s => map snd (map_to_list (agents s))) ;;
          modify (set_file (Json (VArray (map toValue entries)))) ;;
          modify (set_isDirty false)
      end
  end.

Definition markDirty : Eff State unit :=
  dirty <- gets isDirty ;;
  when (negb dirty)
    (modify (set_isDirty true) ;;
     try_catch persistToDisk (fun _ => ret tt)).

Definition isTerminated (a : Agent) : bool :=
  String.eqb (status a) "completed" || String.eqb (status a) "failed"
  || String.eqb (status a) "terminating".

(** Terminated more than 24 hours before [now], by [endTime || now]. *)
Definition isOld (now : Z) (a : Agent) : bool :=
  isTerminated a && (24 * 60 * 60 * 1000 <? now - default now (endTime a))%Z.

(** [cleanupOldAgents]; the [agent:pruned] events come in the order of the
    finite map, which is not the insertion order of the [Map]. *)
Definition cleanupOldAgents : Eff State unit :=
  now <- gets clock ;;
  toRemove <- gets (fun s => filter (fun e => isOld now (snd e) = true) (map_to_list (agents s))) ;;
  modify (fun s =>
    set_events (rev (map (fun e => mkEvent "agent:pruned" (snd e)) toRemove) ++ events s)
      (set_agents (filter (fun e => isOld now (snd e) = false) (agents s)) s)) ;;
  when (negb (bool_decide (toRemove = []))) markDirty.

Definition register (agentData : Value) : Eff State Agent :=
  match normalizeAgentData agentData with
  | None => throw "Invalid agent data"
  | Some normalized =>
      full <- gets (fun s => (MAX_REGISTRY_SIZE <=? size (agents s))%nat) ;;
      when full cleanupOldAgents ;;
      existing <- gets (fun s => agents s !! id normalized) ;;
      now <- gets clock ;;
      let normalized :=
        set_startTime (Some (default now (startTime normalized))) normalized in
      modify (fun s => set_agents (<[id normalized := normalized]> (agents s)) s) ;;
      emit "agent:registered" normalized ;;
      match existing with
      | Some previous =>
          when (negb (String.eqb (status previous) "")
                && negb (String.eqb (status previous) (status normalized)))
            (emit ("agent:" +:+ status previous +:+ ":->:" +:+ status normalized)
               normalized)
      | None => ret tt
      end ;;
      markDirty ;;
      ret normalized
  end.

Definition unregister (id : string) : Eff State (option Agent) :=
  existing <- gets (fun s => agents s !! id) ;;
  match existing with
  | None => ret None
  | Some a =>
      modify (fun s => set_agents (delete id (agents s)) s) ;;
      emit "agent:unregistered" a ;;
      markDirty ;;
      ret (Some a)
  end.

(** [this.agents.get(id) || null] *)
Definition get (id : string) (s : State) : option Agent := agents s !! id.

Local Arguments Nat.leb : simpl never.

(** *** Loading *)

Definition keep (m : gmap string Agent) (a : Agent) : gmap string Agent :=
  <[id a := a]> m.

Lemma loadEntries_run entries s :
  loadEntries entries s
  = (Normal tt, set_agents (foldl keep (agents s) (omap normalizeAgentData entries)) s).
Proof.
  revert s. induction entries as [|e entries IH]; intros s; simpl.
  - by destruct s.
  - unfold bind at 1. destruct (normalizeAgentData e) as [a|]; simpl.
    + by rewrite IH.
    + by rewrite IH.
Qed.

Lemma foldl_keep_Some (l : list Agent) (m : gmap string Agent) i a :
  foldl keep m l !! i = Some a -> m !! i = Some a \/ (a ∈ l /\ id a = i).
Proof.
  revert m. induction l as [|b l IH]; intros m; simpl; [by left|].
  intros H. destruct (IH _ H) as [Hm|[Hin Hid]].
  - unfold keep in Hm. destruct (decide (id b = i)) as [<-|Hne].
    + rewrite lookup_insert_eq in Hm. injection Hm as ->. right. split; [by left|done].
    + rewrite lookup_insert_ne in Hm by done. by left.
  - right. split; [by right|done].
Qed.

Lemma foldl_keep_is_Some (l : list Agent) (m : gmap string Agent) i :
  is_Some (m !! i) \/ (exists a, a ∈ l /\ id a = i) -> is_Some (foldl keep m l !! i).
Proof.
  revert m. induction l as [|b l IH]; intros m; simpl.
  - intros [H|(a & Ha & _)]; [done|]. by apply elem_of_nil in Ha.
  - intros H. apply IH. unfold keep. destruct (decide (id b = i)) as [<-|Hne].
    + left. rewrite lookup_insert_eq. by eexists.
    + rewrite lookup_insert_ne by done.
      destruct H as [H|(a & [->|Ha]%elem_of_cons & Hid)]; [by left|done|].
      right. by exists a.
Qed.

Lemma loadFromDisk_run s :
  loadFromDisk s =
    (Normal tt,
     match file s with
     | Json (VArray entries) =>
         set_agents (foldl keep ∅ (omap normalizeAgentData entries)) s
     | _ => set_agents ∅ s
     end).
Proof.
  unfold loadFromDisk, try_catch, bind, readJson, clear, modify.
  destruct (file s) as [|code| |v] eqn:Hf; simpl.
  - done.
  - by destruct (String.eqb code "ENOENT").
  - done.
  - destruct v; try done. by rewrite loadEntries_run.
Qed.

(** C9. [loadFromDisk] returns normally whatever the registry file is. When
    the file is missing, unreadable, not JSON or not a JSON array, the agent
    map is empty afterwards. When it is an array, every entry that normalizes
    is loaded under its id, whatever the other entries are, and nothing else
    is in the map: entries that fail normalization are skipped. *)
Theorem loadFromDisk_never_throws (s : State) :
  let s' := snd (loadFromDisk s) in
  fst (loadFromDisk s) = Normal tt /\
  ((forall entries, file s <> Json (VArray entries)) -> agents s' = ∅) /\
  (forall entries, file s = Json (VArray entries) ->
     (forall e a, e ∈ entries -> normalizeAgentData e = Some a ->
                  is_Some (agents s' !! id a)) /\
     (forall i a, agents s' !! i = Some a ->
                  id a = i /\ exists e, e ∈ entries /\ normalizeAgentData e = Some a)).
Proof.
  intros s'. subst s'. rewrite loadFromDisk_run. simpl. split; [done|]. split.
  - intros Hno. destruct (file s) as [| | |v]; try done.
    destruct v; try done. by destruct (Hno items).
  - intros entries ->. simpl. split.
    + intros e a He Hn. apply foldl_keep_is_Some. right. exists a. split; [|done].
      apply list_elem_of_omap. by exists e.
    + intros i a H. apply foldl_keep_Some in H as [H|[Hin Hid]].
      * by rewrite lookup_empty in H.
      * split; [done|]. apply list_elem_of_omap in Hin as (e & He & Hn). by exists e.
Qed.

(** *** Register, get, unregister *)

Lemma markDirty_run s :
  exists s', markDirty s = (Normal tt, s') /\ agents s' = agents s /\ clock s' = clock s.
Proof.
  unfold markDirty, bind, gets, when, try_catch, persistToDisk, bind, gets, modify, throw, ret.
  destruct (isDirty s); simpl; [by eexists|].
  destruct (persistenceLock s); simpl; [by eexists|].
  destruct (writeFault s); by eexists.
Qed.

Lemma cleanupOldAgents_run s :
  exists s', cleanupOldAgents s = (Normal tt, s') /\ clock s' = clock s.
Proof.
  unfold cleanupOldAgents. unfold bind at 1, gets at 1. unfold bind at 1, gets at 1.
  unfold bind at 1, modify at 1. unfold when.
  destruct (negb _); [|by eexists].
  match goal with |- context [markDirty ?x] =>
    destruct (markDirty_run x) as (s' & -> & _ & Hc) end.
  by exists s'.
Qed.

Definition registered (now : Z) (a : Agent) : Agent :=
  set_startTime (Some (default now (startTime a))) a.

Lemma register_run raw a s :
  normalizeAgentData raw = Some a ->
  exists s', register raw s = (Normal (registered (clock s) a), s') /\
    agents s' !! id a = Some (registered (clock s) a).
Proof.
  intros Hn. unfold register. rewrite Hn.
  unfold bind at 1, gets at 1. unfold bind at 1.
  assert (Hs1 : exists s1,
            when (MAX_REGISTRY_SIZE <=? size (agents s))%nat cleanupOldAgents s
            = (Normal tt, s1) /\ clock s1 = clock s).
  { destruct (MAX_REGISTRY_SIZE <=? size (agents s))%nat; simpl; [|by exists s].
    apply cleanupOldAgents_run. }
  destruct Hs1 as (s1 & Hs1 & Hc1).
  rewrite Hs1. unfold bind at 1, gets at 1. unfold bind at 1, gets at 1.
  rewrite Hc1. fold (registered (clock s) a).
  unfold bind at 1, modify at 1. unfold bind at 1, emit at 1, modify at 1.
  match goal with |- context [bind ?c (fun _ => bind markDirty _) ?x] =>
    set (tr := c); set (s2 := x) end.
  unfold bind at 1.
  assert (Htr : exists s3, tr s2 = (Normal tt, s3) /\ agents s3 = agents s2).
  { subst tr. destruct (agents s1 !! id a) as [prev|]; [|by exists s2].
    unfold when. destruct (_ && _); [|by exists s2].
    unfold emit, modify. by eexists. }
  destruct Htr as (s3 & -> & Ha3).
  unfold bind at 1. destruct (markDirty_run s3) as (s4 & -> & Ha & _).
  exists s4. split; [done|]. rewrite Ha, Ha3. subst s2. simpl.
  apply lookup_insert_eq.
Qed.

Lemma unregister_run i a s :
  agents s !! i = Some a ->
  exists s', unregister i s = (Normal (Some a), s') /\ agents s' = delete i (agents s).
Proof.
  intros H. unfold unregister. unfold bind at 1, gets at 1. rewrite H.
  unfold bind at 1, modify at 1. unfold bind at 1, emit at 1, modify at 1.
  unfold bind at 1.
  match goal with |- context [markDirty ?x] =>
    destruct (markDirty_run x) as (s4 & -> & Ha & _) end.
  exists s4. split; [done|]. by rewrite Ha.
Qed.

(** C8. For agent data that normalizes, [register] returns the normalized
    record (with [startTime] defaulted to the clock), [get] on that record's
    id returns it, [unregister] of the id returns it again, and [get]
    afterwards returns nothing. *)
Theorem register_get_unregister (s : State) (raw : Value) (a : Agent) :
  normalizeAgentData raw = Some a ->
  let record := set_startTime (Some (default (clock s) (startTime a))) a in
  let s1 := snd (register raw s) in
  let s2 := snd (unregister (id record) s1) in
  fst (register raw s) = Normal record /\
  get (id record) s1 = Some record /\
  fst (unregister (id record) s1) = Normal (Some record) /\
  get (id record) s2 = None.
Proof.
  intros Hn record s1 s2.
  destruct (register_run raw a s Hn) as (s1' & Hr & Hg).
  fold (registered (clock s) a) in record. fold record in Hr, Hg.
  assert (s1 = s1') as <- by (subst s1; by rewrite Hr).
  destruct (unregister_run (id record) record s1 Hg) as (s2' & Hu & Hd).
  assert (s2 = s2') as <- by (subst s2; by rewrite Hu).
  rewrite Hr, Hu. split; [done|]. split; [done|]. split; [done|].
  unfold get. rewrite Hd. apply lookup_delete_eq.
Qed.

Definition exampleRaw : Value :=
  VObject [("id", VString "  agent-7 "); ("status", VString "active");
           ("worktree", VString "/repo/.opencode/worktrees/agent-7");
           ("skillset", VArray [VString " testing "; VString "docs"]);
           ("pid", VNumber 4242); ("endTime", VNumber 0)].

Definition exampleAgent : Agent :=
  mkAgent "agent-7" "/repo/.opencode/worktrees/agent-7" "" "active"
    ["testing"; "docs"] "" (Some 4242%Z) None None None None (VObject []).

Definition emptyRegistry : State := mkState ∅ false None Missing None 1770000000000 [].

Lemma register_get_unregister_witness :
  let record := set_startTime (Some (default (clock emptyRegistry) (startTime exampleAgent)))
                  exampleAgent in
  let s1 := snd (register exampleRaw emptyRegistry) in
  let s2 := snd (unregister (id record) s1) in
  fst (register exampleRaw emptyRegistry) = Normal record /\
  get (id record) s1 = Some record /\
  fst (unregister (id record) s1) = Normal (Some record) /\
  get (id record) s2 = None.
Proof.
  apply (register_get_unregister emptyRegistry exampleRaw exampleAgent).
  vm_compute. reflexivity.
Defined.

(** The key is the trimmed id: the id as it was passed finds nothing. *)
Example get_untrimmed_id :
  get "  agent-7 " (snd (register exampleRaw emptyRegistry)) = None /\
  is_Some (get "agent-7" (snd (register exampleRaw emptyRegistry))).
Proof. split; [vm_compute; reflexivity|]. vm_compute. by eexists. Qed.

Example load_skips_invalid_entries :
  let s := set_file (Json (VArray [VString "junk"; exampleRaw; VObject [("id", VNumber 3)]]))
             (set_agents {[ "stale" := exampleAgent ]} emptyRegistry) in
  loadFromDisk s = (Normal tt, set_agents {[ "agent-7" := exampleAgent ]} s).
Proof. vm_compute. reflexivity. Qed.

Example load_resets_on_corrupt_file :
  let s := set_file Malformed (set_agents {[ "stale" := exampleAgent ]} emptyRegistry) in
  loadFromDisk s = (Normal tt, set_agents ∅ s).
Proof. vm_compute. reflexivity. Qed.


(** ** The registry, continued: updates, queries, the invariant *)

(** *** The remaining methods *)

Definition set_status (v : string) (a : Agent) : Agent :=
  mkAgent (id a) (worktree a) (branch a) v (skillset a) (persona a)
    (pid a) (startTime a) (endTime a) (exitCode a) (exitSignal a) (metadata a).
Definition set_pid (v : option Z) (a : Agent) : Agent :=
  mkAgent (id a) (worktree a) (branch a) (status a) (skillset a) (persona a)
    v (startTime a) (endTime a) (exitCode a) (exitSignal a) (metadata a).
Definition set_endTime (v : option Z) (a : Agent) : Agent :=
  mkAgent (id a) (worktree a) (branch a) (status a) (skillset a) (persona a)
    (pid a) (startTime a) v (exitCode a) (exitSignal a) (metadata a).
Definition set_exitCode (v : option Z) (a : Agent) : Agent :=
  mkAgent (id a) (worktree a) (branch a) (status a) (skillset a) (persona a)
    (pid a) (startTime a) (endTime a) v (exitSignal a) (metadata a).
Definition set_exitSignal (v : option string) (a : Agent) : Agent :=
  mkAgent (id a) (worktree a) (branch a) (status a) (skillset a) (persona a)
    (pid a) (startTime a) (endTime a) (exitCode a) v (metadata a).
Definition set_skillset (v : list string) (a : Agent) : Agent :=
  mkAgent (id a) (worktree a) (branch a) (status a) v (persona a)
    (pid a) (startTime a) (endTime a) (exitCode a) (exitSignal a) (metadata a).
Definition set_persona (v : string) (a : Agent) : Agent :=
  mkAgent (id a) (worktree a) (branch a) (status a) (skillset a) v
    (pid a) (startTime a) (endTime a) (exitCode a) (exitSignal a) (metadata a).
Definition set_metadata (v : Value) (a : Agent) : Agent :=
  mkAgent (id a) (worktree a) (branch a) (status a) (skillset a) (persona a)
    (pid a) (startTime a) (endTime a) (exitCode a) (exitSignal a) v.

(** The own enumerable properties that [{...v}] copies: the fields of an
    object, the items of an array and the characters of a string under
    their indices. *)
Definition ownProperties (v : Value) : list (string * Value) :=
  match v with
  | VObject fields => fields
  | VArray items => imap (fun i x => (pretty i, x)) items
  | VString s =>
      imap (fun i c => (pretty i, VString (String c EmptyString))) (list_ascii_of_string s)
  | _ => []
  end.

(** [{ ...a, ...b }]: a later property replaces an earlier one of its name.
    The enumeration order of keys that are array indices is not modelled. *)
Definition spread (a b : Value) : Value :=
  VObject (foldl (fun o kv => map_set kv.1 kv.2 o) [] (ownProperties a ++ ownProperties b)%list).

(** One guarded assignment to [normalizedUpdates], applied to the copy of
    [existing] that the final spread builds. *)
Definition assign {A} (v : option A) (set : A -> Agent -> Agent) (a : Agent) : Agent :=
  match v with Some x => set x a | None => a end.

(** [typeof updates.status === "string" && VALID_STATUSES.has(updates.status)] *)
Definition validStatus (v : Value) : option string :=
  match v with
  | VString s => if bool_decide (s ∈ VALID_STATUSES) then Some s else None
  | _ => None
  end.

Definition trimmedItems (v : Value) : option (list string) :=
  match v with
  | VArray items => map trim <$> stringItems items
  | _ => None
  end.

Definition mergedMetadata (existing : Agent) (v : Value) : option Value :=
  match v with
  | VArray _ | VObject _ => Some (spread (metadata existing) v)
  | _ => None
  end.

Definition applyUpdates (existing : Agent) (updates : Value) : Agent :=
  assign (mergedMetadata existing (prop "metadata" updates)) set_metadata
    (assign (match prop "persona" updates with VString s => Some (trim s) | _ => None end)
       set_persona
    (assign (trimmedItems (prop "skillset" updates)) set_skillset
    (assign (match prop "exitSignal" updates with VString s => Some s | _ => None end)
       (fun x => set_exitSignal (Some x))
    (assign (match prop "exitCode" updates with VNumber n => Some n | _ => None end)
       (fun x => set_exitCode (Some x))
    (assign (positiveNumber (prop "endTime" updates)) (fun x => set_endTime (Some x))
    (assign (positiveNumber (prop "startTime" updates)) (fun x => set_startTime (Some x))
    (assign (positiveNumber (prop "pid" updates)) (fun x => set_pid (Some x))
    (assign (validStatus (prop "status" updates)) set_status existing)))))))).

(** [update]. Reading [updates.status] of [null] or [undefined] is a
    [TypeError]; any other value has its properties read, which are all
    [undefined] unless it is an object. *)
Definition update (id : string) (updates : Value) : Eff State Agent :=
  existing <- gets (fun s => agents s !! id) ;;
  match existing with
  | None => throw ("Agent " +:+ id +:+ " not found")
  | Some existing =>
      match updates with
      | VUndefined | VNull => throw "TypeError"
      | _ =>
          match validStatus (prop "status" updates) with
          | Some status' =>
              when (negb (String.eqb (status existing) status'))
                (emit ("agent:" +:+ status existing +:+ ":->:" +:+ status')
                   (set_status status' existing))
          | None => ret tt
          end ;;
          let updated := applyUpdates existing updates in
          modify (fun s => set_agents (<[id := updated]> (agents s)) s) ;;
          emit "agent:updated" updated ;;
          markDirty ;;
          ret updated
      end
  end.

(** [Array.from(this.agents.values())], in the order of the finite map,
    which is not the insertion order of the [Map]. *)
Definition getAll (s : State) : list Agent := map snd (map_to_list (agents s)).

Definition getByStatus (status' : string) (s : State) : list Agent :=
  if bool_decide (status' ∈ VALID_STATUSES)
  then filter (fun a => status a = status') (getAll s)
  else [].

Definition getByBranch (branch' : string) (s : State) : list Agent :=
  let normalized := trim branch' in
  filter (fun a => branch a = normalized) (getAll s).

Definition getActiveAgents : State -> list Agent := getByStatus "active".
Definition getPendingAgents : State -> list Agent := getByStatus "pending".
Definition getFailedAgents : State -> list Agent := getByStatus "failed".

(** [counts[agent.status] = (counts[agent.status] || 0) + 1], for a status
    that names no inherited property of the object; the five valid statuses
    are own properties of [counts] from the start. *)
Definition count (counts : gmap string nat) (a : Agent) : gmap string nat :=
  <[status a := S (default 0%nat (counts !! status a))]> counts.

Definition getCountByStatus (s : State) : gmap string nat :=
  foldl count
    (foldl (fun counts status' => <[status' := 0%nat]> counts) ∅
       ["pending"; "active"; "completed"; "failed"; "terminating"])
    (getAll s).

Record Summary := mkSummary {
  total : nat;
  active : option nat;
  pending : option nat;
  completed : option nat;
  failed : option nat;
  terminating : option nat;
}.

Definition getSummary (s : State) : Summary :=
  let counts := getCountByStatus s in
  mkSummary (size (agents s)) (counts !! "active") (counts !! "pending")
    (counts !! "completed") (counts !! "failed") (counts !! "terminating").

Section Paths.
(** [path.resolve] and [path.sep] of the platform. *)
Variable resolve : string -> string.
Variable sep : string.

Definition getByWorktree (worktreePath : string) (s : State) : list Agent :=
  let normalized := resolve worktreePath in
  filter (fun a =>
            let agentWorktree := resolve (worktree a) in
            agentWorktree = normalized
            \/ String.prefix (normalized +:+ sep) agentWorktree = true)
    (getAll s).

Fixpoint cleanupAgents (found removed : list Agent) : Eff State (list Agent) :=
  match found with
  | [] => ret removed
  | agent :: found' =>
      when (String.eqb (status agent) "active" || String.eqb (status agent) "pending")
        (update (id agent) (VObject [("status", VString "terminating")]) ;; ret tt) ;;
      unregistered <- unregister (id agent) ;;
      cleanupAgents found'
        (match unregistered with Some a => removed ++ [a] | None => removed end)%list
  end.

Definition cleanupWorktreeAgents (worktreePath : string) : Eff State (list Agent) :=
  found <- gets (getByWorktree worktreePath) ;;
  cleanupAgents found [].

Inductive Call :=
| CallLoad
| CallRegister (agentData : Value)
| CallUpdate (id : string) (updates : Value)
| CallUnregister (id : string)
| CallCleanupOld
| CallCleanupWorktree (worktreePath : string).

Definition perform (c : Call) (s : State) : State :=
  match c with
  | CallLoad => snd (loadFromDisk s)
  | CallRegister agentData => snd (register agentData s)
  | CallUpdate id updates => snd (update id updates s)
  | CallUnregister id => snd (unregister id s)
  | CallCleanupOld => snd (cleanupOldAgents s)
  | CallCleanupWorktree worktreePath => snd (cleanupWorktreeAgents worktreePath s)
  end.

Definition history (calls : list Call) (s : State) : State := foldl (fun s c => perform c s) s calls.

End Paths.

(** *** Trimming *)

Lemma trimStart_step s :
  match afterWhiteSpace s with
  | Some r => trimStart s = trimStart r
  | None => trimStart s = s
  end.
Proof.
  destruct s as [|a [|b [|c s3]]]; simpl; try done.
  - by destruct (isWhiteSpace a).
  - destruct (isWhiteSpace a); [done|]. by destruct (isWhiteSpace2 a b).
  - destruct (isWhiteSpace a); [done|]. destruct (isWhiteSpace2 a b); [done|].
    by destruct (isWhiteSpace3 a b c).
Qed.

Lemma afterWhiteSpace_length s r :
  afterWhiteSpace s = Some r -> String.length r < String.length s.
Proof.
  destruct s as [|a [|b [|c s3]]]; simpl; try done.
  - destruct (isWhiteSpace a); [|done]. intros [= <-]. simpl. lia.
  - destruct (isWhiteSpace a); [intros [= <-]; simpl; lia|].
    destruct (isWhiteSpace2 a b); [|done]. intros [= <-]. simpl. lia.
  - destruct (isWhiteSpace a); [intros [= <-]; simpl; lia|].
    destruct (isWhiteSpace2 a b); [intros [= <-]; simpl; lia|].
    destruct (isWhiteSpace3 a b c); [|done]. intros [= <-]. simpl. lia.
Qed.

Lemma afterWhiteSpace_app s r x :
  afterWhiteSpace s = Some r -> afterWhiteSpace (s +:+ x) = Some (r +:+ x).
Proof.
  destruct s as [|a [|b [|c s3]]]; simpl; try done.
  - destruct (isWhiteSpace a); [|done]. by intros [= <-].
  - destruct (isWhiteSpace a); [by intros [= <-]|].
    destruct (isWhiteSpace2 a b); [|done]. by intros [= <-].
  - destruct (isWhiteSpace a); [by intros [= <-]|].
    destruct (isWhiteSpace2 a b); [by intros [= <-]|].
    destruct (isWhiteSpace3 a b c); [|done]. by intros [= <-].
Qed.

Lemma by_length (P : string -> Prop) :
  (forall s, (forall r, String.length r < String.length s -> P r) -> P s) -> forall s, P s.
Proof.
  intros H s. remember (String.length s) as n eqn:Hn. revert s Hn.
  induction n as [n IH] using lt_wf_ind. intros s ->. apply H.
  intros r Hr. by apply (IH (String.length r)).
Qed.

Lemma trimStart_clean s : afterWhiteSpace (trimStart s) = None.
Proof.
  induction s as [s IH] using by_length. pose proof (trimStart_step s) as H.
  destruct (afterWhiteSpace s) as [r|] eqn:E.
  - rewrite H. apply IH. by apply afterWhiteSpace_length.
  - by rewrite H.
Qed.

Lemma trimStart_app s x :
  trimStart s = "" -> trimStart x = "" -> trimStart (s +:+ x) = "".
Proof.
  induction s as [s IH] using by_length. intros Hs Hx.
  pose proof (trimStart_step s) as H. destruct (afterWhiteSpace s) as [r|] eqn:E.
  - pose proof (trimStart_step (s +:+ x)) as H'.
    rewrite (afterWhiteSpace_app s r x E) in H'. rewrite H'.
    apply IH; [by apply afterWhiteSpace_length|congruence|done].
  - assert (s = "") as -> by congruence. done.
Qed.

Lemma trimEnd_split s : exists r, s = trimEnd s +:+ r /\ trimStart r = "".
Proof.
  induction s as [|c s IH]; [by exists ""|].
  change (trimEnd (String c s)) with
    (match trimStart (String c s) with
     | EmptyString => EmptyString
     | _ => String c (trimEnd s)
     end).
  destruct (trimStart (String c s)) eqn:E.
  - by exists (String c s).
  - destruct IH as (r & Hr & Hw). exists r. split; [|done].
    change (String c s = String c (trimEnd s +:+ r)). by rewrite <- Hr.
Qed.

Lemma trimEnd_idemp s : trimEnd (trimEnd s) = trimEnd s.
Proof.
  induction s as [|c s IH]; [done|].
  change (trimEnd (String c s)) with
    (match trimStart (String c s) with
     | EmptyString => EmptyString
     | _ => String c (trimEnd s)
     end).
  destruct (trimStart (String c s)) as [|a t] eqn:E; [done|].
  change (trimEnd (String c (trimEnd s))) with
    (match trimStart (String c (trimEnd s)) with
     | EmptyString => EmptyString
     | _ => String c (trimEnd (trimEnd s))
     end).
  destruct (trimStart (String c (trimEnd s))) eqn:E'; [|by rewrite IH].
  destruct (trimEnd_split s) as (r & Hr & Hw).
  pose proof (trimStart_app (String c (trimEnd s)) r E' Hw) as H.
  change (String c (trimEnd s) +:+ r) with (String c (trimEnd s +:+ r)) in H.
  rewrite <- Hr in H. congruence.
Qed.

Lemma trimEnd_clean s : afterWhiteSpace s = None -> afterWhiteSpace (trimEnd s) = None.
Proof.
  intros H. destruct (trimEnd_split s) as (r & Hr & _).
  destruct (afterWhiteSpace (trimEnd s)) as [t|] eqn:E; [|done].
  apply (afterWhiteSpace_app _ _ r) in E. rewrite <- Hr in E. congruence.
Qed.

Lemma trim_idemp s : trim (trim s) = trim s.
Proof.
  unfold trim.
  pose proof (trimEnd_clean (trimStart s) (trimStart_clean s)) as H.
  pose proof (trimStart_step (trimEnd (trimStart s))) as H'. rewrite H in H'.
  rewrite H'. apply trimEnd_idemp.
Qed.

(** *** What [update] changes *)

Definition sameIdentity (a a' : Agent) : Prop :=
  id a' = id a /\ worktree a' = worktree a /\ branch a' = branch a.

Lemma assign_sameIdentity {A} (v : option A) (set : A -> Agent -> Agent) a a0 :
  (forall x b, sameIdentity b (set x b)) -> sameIdentity a0 a -> sameIdentity a0 (assign v set a).
Proof.
  intros Hset H. destruct v as [x|]; simpl; [|done].
  destruct (Hset x a) as (? & ? & ?). destruct H as (? & ? & ?).
  unfold sameIdentity. split_and!; congruence.
Qed.

Lemma applyUpdates_sameIdentity a u : sameIdentity a (applyUpdates a u).
Proof.
  unfold applyUpdates.
  repeat (apply assign_sameIdentity; [by intros; unfold sameIdentity|]).
  by unfold sameIdentity.
Qed.

Lemma assign_status {A} (v : option A) (set : A -> Agent -> Agent) a :
  (forall x b, status (set x b) = status b) -> status (assign v set a) = status a.
Proof. intros Hset. destruct v; simpl; [apply Hset|done]. Qed.

Lemma applyUpdates_status a u :
  status (applyUpdates a u) = default (status a) (validStatus (prop "status" u)).
Proof.
  unfold applyUpdates.
  repeat (rewrite assign_status by (by intros)).
  by destruct (validStatus _).
Qed.

Lemma validStatus_valid v st : validStatus v = Some st -> st ∈ VALID_STATUSES.
Proof.
  destruct v; simpl; try done. case_bool_decide; [|done]. by intros [= <-].
Qed.

Definition transition (a : Agent) (u : Value) : list Event :=
  match validStatus (prop "status" u) with
  | Some st =>
      if String.eqb (status a) st then []
      else [mkEvent ("agent:" +:+ status a +:+ ":->:" +:+ st) (set_status st a)]
  | None => []
  end.

Lemma markDirty_keeps s :
  exists s', markDirty s = (Normal tt, s') /\ agents s' = agents s /\
    clock s' = clock s /\ events s' = events s /\ writeFault s' = writeFault s.
Proof.
  unfold markDirty, bind, gets, when, try_catch, persistToDisk, bind, gets, modify, throw, ret.
  destruct (isDirty s); simpl; [by eexists|].
  destruct (persistenceLock s); simpl; [by eexists|].
  destruct (writeFault s) eqn:E; eexists; (split; [done|]); simpl; by rewrite ?E.
Qed.

Lemma update_run i a u s :
  agents s !! i = Some a -> u <> VUndefined -> u <> VNull ->
  exists s', update i u s = (Normal (applyUpdates a u), s') /\
    agents s' = <[i := applyUpdates a u]> (agents s) /\
    clock s' = clock s /\
    events s' = (mkEvent "agent:updated" (applyUpdates a u) :: transition a u ++ events s)%list.
Proof.
  intros Hi Hu Hn. unfold update. unfold bind at 1, gets at 1. rewrite Hi.
  assert (Hbody : exists s',
    (match validStatus (prop "status" u) with
      | Some status' =>
          when (negb (String.eqb (status a) status'))
            (emit ("agent:" +:+ status a +:+ ":->:" +:+ status') (set_status status' a))
      | None => ret tt
      end ;;
      let updated := applyUpdates a u in
      modify (fun s => set_agents (<[i := updated]> (agents s)) s) ;;
      emit "agent:updated" updated ;;
      markDirty ;;
      ret updated) s = (Normal (applyUpdates a u), s') /\
    agents s' = <[i := applyUpdates a u]> (agents s) /\
    clock s' = clock s /\
    events s' = (mkEvent "agent:updated" (applyUpdates a u) :: transition a u ++ events s)%list).
  { unfold bind at 1.
    assert (Hfirst : exists s1,
      match validStatus (prop "status" u) with
      | Some status' =>
          when (negb (String.eqb (status a) status'))
            (emit ("agent:" +:+ status a +:+ ":->:" +:+ status') (set_status status' a))
      | None => ret tt
      end s = (Normal tt, s1) /\ agents s1 = agents s /\ clock s1 = clock s /\
      events s1 = (transition a u ++ events s)%list).
    { unfold transition. destruct (validStatus (prop "status" u)) as [st|]; [|by exists s].
      destruct (String.eqb (status a) st); simpl; [by exists s|].
      unfold emit, modify. by eexists. }
    destruct Hfirst as (s1 & -> & Ha1 & Hc1 & He1).
    cbv zeta. unfold bind at 1, modify at 1. unfold bind at 1, emit at 1, modify at 1.
    unfold bind at 1.
    match goal with |- context [markDirty ?x] =>
      destruct (markDirty_keeps x) as (s4 & -> & Ha & Hc & He & _) end.
    exists s4. split; [done|]. rewrite Ha, Hc, He. simpl. by rewrite Ha1, Hc1, He1. }
  destruct u; try done; apply Hbody.
Qed.

Lemma update_absent i u s :
  agents s !! i = None -> update i u s = (Throw ("Agent " +:+ i +:+ " not found"), s).
Proof. intros H. unfold update. unfold bind at 1, gets at 1. by rewrite H. Qed.

Lemma update_nullish i a u s :
  agents s !! i = Some a -> u = VUndefined \/ u = VNull ->
  update i u s = (Throw "TypeError", s).
Proof.
  intros H Hu. unfold update. unfold bind at 1, gets at 1. rewrite H.
  by destruct Hu as [-> | ->].
Qed.

(** [update] of an id that is not registered throws and changes nothing. *)
Theorem update_missing_agent (s : State) (i : string) (updates : Value) :
  agents s !! i = None ->
  update i updates s = (Throw ("Agent " +:+ i +:+ " not found"), s).
Proof. apply update_absent. Qed.

Lemma update_missing_agent_witness :
  update "agent-9" (VObject [("status", VString "failed")]) emptyRegistry
  = (Throw "Agent agent-9 not found", emptyRegistry).
Proof. apply (update_missing_agent emptyRegistry "agent-9"). vm_compute. reflexivity. Defined.

(** [update] of a registered agent with [null] or [undefined] for the
    updates throws when it reads [updates.status]; nothing is changed and
    nothing is emitted. *)
Theorem update_without_updates_throws (s : State) (i : string) (a : Agent) (updates : Value) :
  agents s !! i = Some a ->
  updates = VUndefined \/ updates = VNull ->
  update i updates s = (Throw "TypeError", s).
Proof. apply update_nullish. Qed.

Definition oneAgent : State := set_agents {[ "agent-7" := exampleAgent ]} emptyRegistry.

Lemma update_without_updates_throws_witness :
  update "agent-7" VNull oneAgent = (Throw "TypeError", oneAgent).
Proof.
  apply (update_without_updates_throws oneAgent "agent-7" exampleAgent).
  - vm_compute. reflexivity.
  - by right.
Defined.

(** [update] never changes who an agent is: the record it stores and
    returns has the id, the worktree and the branch of the old one,
    whatever the updates say. Its status is the requested one when that is
    one of the five valid statuses, as it stands, and the old status
    otherwise; a change of status is announced before [agent:updated]. *)
Theorem update_keeps_identity (s : State) (i : string) (a : Agent) (updates : Value) :
  agents s !! i = Some a ->
  updates <> VUndefined -> updates <> VNull ->
  exists a' s', update i updates s = (Normal a', s') /\
    agents s' = <[i := a']> (agents s) /\
    id a' = id a /\ worktree a' = worktree a /\ branch a' = branch a /\
    status a' = default (status a) (validStatus (prop "status" updates)) /\
    events s' = (mkEvent "agent:updated" a' :: transition a updates ++ events s)%list.
Proof.
  intros H Hu Hn. destruct (update_run i a updates s H Hu Hn) as (s' & Hrun & Ha & _ & He).
  destruct (applyUpdates_sameIdentity a updates) as (? & ? & ?).
  exists (applyUpdates a updates), s'. split_and!; try done. apply applyUpdates_status.
Qed.

Lemma update_keeps_identity_witness :
  exists a' s',
    update "agent-7"
      (VObject [("id", VString "agent-8"); ("status", VString " failed ")]) oneAgent
    = (Normal a', s') /\
    agents s' = <[ "agent-7" := a']> (agents oneAgent) /\
    id a' = id exampleAgent /\ worktree a' = worktree exampleAgent /\
    branch a' = branch exampleAgent /\
    status a' = default (status exampleAgent)
                  (validStatus (prop "status"
                     (VObject [("id", VString "agent-8"); ("status", VString " failed ")]))) /\
    events s' = (mkEvent "agent:updated" a'
                 :: transition exampleAgent
                      (VObject [("id", VString "agent-8"); ("status", VString " failed ")])
                 ++ events oneAgent)%list.
Proof.
  apply (update_keeps_identity oneAgent "agent-7" exampleAgent).
  - vm_compute. reflexivity.
  - discriminate.
  - discriminate.
Defined.

(** *** The invariant of the map *)

Definition positive (v : option Z) : Prop :=
  match v with Some n => (0 < n)%Z | None => True end.

Definition isObject (v : Value) : Prop :=
  match v with VArray _ | VObject _ => True | _ => False end.

(** What [normalizeAgentData] lets through, and [update] keeps. *)
Definition normalForm (a : Agent) : Prop :=
  id a <> "" /\ worktree a <> "" /\ status a ∈ VALID_STATUSES /\
  trim (id a) = id a /\ trim (worktree a) = worktree a /\ trim (branch a) = branch a /\
  map trim (skillset a) = skillset a /\ trim (persona a) = persona a /\
  positive (pid a) /\ positive (endTime a) /\ isObject (metadata a).

Definition stored (now : Z) (a : Agent) : Prop :=
  normalForm a /\ ((0 < now)%Z -> positive (startTime a)).

Definition invariant (s : State) : Prop :=
  forall i a, agents s !! i = Some a -> id a = i /\ stored (clock s) a.

Lemma positiveNumber_positive v : positive (positiveNumber v).
Proof. destruct v; simpl; try done. by destruct (Z.ltb_spec 0 n). Qed.

Lemma trimmedString_idemp v : trim (trimmedString v) = trimmedString v.
Proof. destruct v; simpl; try done. apply trim_idemp. Qed.

Lemma map_trim_idemp l : map trim (map trim l) = map trim l.
Proof. induction l as [|x l IH]; simpl; [done|]. by rewrite trim_idemp, IH. Qed.

Lemma normalizeAgentData_stored raw a now :
  normalizeAgentData raw = Some a -> stored now a.
Proof.
  unfold normalizeAgentData.
  assert (Hbody : forall raw,
    (if String.eqb (trimmedString (prop "id" raw)) ""
        || String.eqb (trimmedString (prop "worktree" raw)) ""
        || negb (bool_decide (trimmedString (prop "status" raw) ∈ VALID_STATUSES))
     then None
     else Some (mkAgent (trimmedString (prop "id" raw)) (trimmedString (prop "worktree" raw))
                  (trimmedString (prop "branch" raw)) (trimmedString (prop "status" raw))
                  match prop "skillset" raw with
                  | VArray items =>
                      match stringItems items with
                      | Some ss => map trim ss
                      | None => []
                      end
                  | _ => []
                  end
                  (trimmedString (prop "persona" raw))
                  (positiveNumber (prop "pid" raw))
                  (positiveNumber (prop "startTime" raw))
                  (positiveNumber (prop "endTime" raw))
                  (match prop "exitCode" raw with VNumber n => Some n | _ => None end)
                  (match prop "exitSignal" raw with VString s => Some s | _ => None end)
                  (match prop "metadata" raw with
                   | VArray items => VArray items
                   | VObject fields => VObject fields
                   | _ => VObject []
                   end))) = Some a -> stored now a).
  { clear raw. intros raw.
    destruct (String.eqb_spec (trimmedString (prop "id" raw)) "") as [|Hid]; [done|].
    destruct (String.eqb_spec (trimmedString (prop "worktree" raw)) "") as [|Hw]; [done|].
    case_bool_decide as Hst; [|done]. simpl. intros [= <-].
    split; [|intros _; apply positiveNumber_positive].
    unfold normalForm. simpl. split_and!; try done; try apply trimmedString_idemp;
      try apply positiveNumber_positive.
    - destruct (prop "skillset" raw); try done.
      destruct (stringItems items); [apply map_trim_idemp|done].
    - by destruct (prop "metadata" raw). }
  destruct raw; try done; apply Hbody.
Qed.

Lemma assign_pres {A} (P : Agent -> Prop) (Q : A -> Prop) v set a :
  (forall x b, Q x -> P b -> P (set x b)) ->
  (forall x, v = Some x -> Q x) ->
  P a -> P (assign v set a).
Proof. intros Hset Hv Ha. destruct v as [x|]; simpl; [|done]. apply Hset; [by apply Hv|done]. Qed.

Lemma applyUpdates_stored now a u : stored now a -> stored now (applyUpdates a u).
Proof.
  intros Ha. unfold applyUpdates.
  apply (assign_pres (stored now) isObject).
  { intros x b Hx ((?&?&?&?&?&?&?&?&?&?&?) & ?). by repeat split. }
  { intros x. unfold mergedMetadata. destruct (prop "metadata" u); try done; by intros [= <-]. }
  apply (assign_pres (stored now) (fun x => trim x = x)).
  { intros x b Hx ((?&?&?&?&?&?&?&?&?&?&?) & ?). by repeat split. }
  { intros x. destruct (prop "persona" u); try done. intros [= <-]. apply trim_idemp. }
  apply (assign_pres (stored now) (fun x => map trim x = x)).
  { intros x b Hx ((?&?&?&?&?&?&?&?&?&?&?) & ?). by repeat split. }
  { intros x. unfold trimmedItems. destruct (prop "skillset" u); try done.
    destruct (stringItems items); simpl; [|done]. intros [= <-]. apply map_trim_idemp. }
  apply (assign_pres (stored now) (fun _ => True)).
  { intros x b Hx ((?&?&?&?&?&?&?&?&?&?&?) & ?). by repeat split. }
  { done. }
  apply (assign_pres (stored now) (fun _ => True)).
  { intros x b Hx ((?&?&?&?&?&?&?&?&?&?&?) & ?). by repeat split. }
  { done. }
  apply (assign_pres (stored now) (fun x => (0 < x)%Z)).
  { intros x b Hx ((?&?&?&?&?&?&?&?&?&?&?) & ?). by repeat split. }
  { intros x Hx. pose proof (positiveNumber_positive (prop "endTime" u)) as H.
    by rewrite Hx in H. }
  apply (assign_pres (stored now) (fun x => (0 < x)%Z)).
  { intros x b Hx ((?&?&?&?&?&?&?&?&?&?&?) & ?). by repeat split. }
  { intros x Hx. pose proof (positiveNumber_positive (prop "startTime" u)) as H.
    by rewrite Hx in H. }
  apply (assign_pres (stored now) (fun x => (0 < x)%Z)).
  { intros x b Hx ((?&?&?&?&?&?&?&?&?&?&?) & ?). by repeat split. }
  { intros x Hx. pose proof (positiveNumber_positive (prop "pid" u)) as H.
    by rewrite Hx in H. }
  apply (assign_pres (stored now) (fun x => x ∈ VALID_STATUSES)).
  { intros x b Hx ((?&?&?&?&?&?&?&?&?&?&?) & ?). by repeat split. }
  { intros x. apply validStatus_valid. }
  done.
Qed.

Lemma registered_stored now a : stored now a -> stored now (registered now a).
Proof.
  intros ((?&?&?&?&?&?&?&?&?&?&?) & Hs). split; [by repeat split|].
  intros Hnow. simpl. destruct (startTime a); simpl; [by apply Hs|done].
Qed.

(** What an operation keeps: the clock, and the invariant. *)
Definition stays (s s' : State) : Prop :=
  clock s' = clock s /\ (invariant s -> invariant s').

#[local] Instance stays_preorder : PreOrder stays.
Proof.
  split.
  - by intros s.
  - intros s1 s2 s3 [Hc1 H1] [Hc2 H2]. split; [congruence|]. auto.
Qed.

Lemma stays_markDirty : respects stays markDirty.
Proof.
  intros s. destruct (markDirty_keeps s) as (s' & -> & Ha & Hc & _). simpl.
  split; [done|]. unfold invariant. by rewrite Ha, Hc.
Qed.

Lemma stays_emit name a : respects stays (emit name a).
Proof. intros s. by split. Qed.

Lemma stays_loadFromDisk : respects stays loadFromDisk.
Proof.
  intros s. rewrite loadFromDisk_run. simpl. split.
  - by destruct (file s) as [| | |[]].
  - intros _ i a.
    assert (Hempty : forall s0 : State, agents (set_agents ∅ s0) !! i = Some a ->
              id a = i /\ stored (clock (set_agents ∅ s0)) a).
    { intros s0 H. simpl in H. by rewrite lookup_empty in H. }
    destruct (file s) as [| | |v]; try apply Hempty.
    destruct v; try apply Hempty. simpl. intros H.
    apply foldl_keep_Some in H as [H|[Hin Hid]]; [by rewrite lookup_empty in H|].
    split; [done|]. apply list_elem_of_omap in Hin as (e & _ & Hn).
    by eapply normalizeAgentData_stored.
Qed.

Lemma cleanupOldAgents_effect s :
  exists s', cleanupOldAgents s = (Normal tt, s') /\ clock s' = clock s /\
    agents s' = filter (fun e => isOld (clock s) (snd e) = false) (agents s).
Proof.
  unfold cleanupOldAgents. unfold bind at 1, gets at 1. unfold bind at 1, gets at 1.
  unfold bind at 1, modify at 1. unfold when.
  destruct (negb _); [|by eexists].
  match goal with |- context [markDirty ?x] =>
    destruct (markDirty_keeps x) as (s' & -> & Ha & Hc & _) end.
  by exists s'.
Qed.

Lemma stays_cleanupOldAgents : respects stays cleanupOldAgents.
Proof.
  intros s. destruct (cleanupOldAgents_effect s) as (s' & -> & Hc & Ha). simpl.
  split; [done|]. intros Hinv i a. rewrite Ha, Hc. intros H.
  apply map_lookup_filter_Some in H as [H _]. by apply Hinv.
Qed.

Lemma register_effect raw a s :
  normalizeAgentData raw = Some a ->
  exists s', register raw s = (Normal (registered (clock s) a), s') /\
    clock s' = clock s /\
    agents s' = <[id a := registered (clock s) a]>
                  (if (MAX_REGISTRY_SIZE <=? size (agents s))%nat
                   then filter (fun e => isOld (clock s) (snd e) = false) (agents s)
                   else agents s).
Proof.
  intros Hn. unfold register. rewrite Hn.
  unfold bind at 1, gets at 1. unfold bind at 1.
  assert (Hs1 : exists s1,
            when (MAX_REGISTRY_SIZE <=? size (agents s))%nat cleanupOldAgents s
            = (Normal tt, s1) /\ clock s1 = clock s /\
            agents s1 = if (MAX_REGISTRY_SIZE <=? size (agents s))%nat
                        then filter (fun e => isOld (clock s) (snd e) = false) (agents s)
                        else agents s).
  { destruct (MAX_REGISTRY_SIZE <=? size (agents s))%nat; simpl; [|by exists s].
    apply cleanupOldAgents_effect. }
  destruct Hs1 as (s1 & Hs1 & Hc1 & Ha1).
  rewrite Hs1. unfold bind at 1, gets at 1. unfold bind at 1, gets at 1.
  rewrite Hc1. fold (registered (clock s) a).
  unfold bind at 1, modify at 1. unfold bind at 1, emit at 1, modify at 1.
  match goal with |- context [bind ?c (fun _ => bind markDirty _) ?x] =>
    set (tr := c); set (s2 := x) end.
  unfold bind at 1.
  assert (Htr : exists s3, tr s2 = (Normal tt, s3) /\ agents s3 = agents s2 /\
                           clock s3 = clock s2).
  { subst tr. destruct (agents s1 !! id a) as [prev|]; [|by exists s2].
    unfold when. destruct (_ && _); [|by exists s2].
    unfold emit, modify. by eexists. }
  destruct Htr as (s3 & -> & Ha3 & Hc3).
  unfold bind at 1. destruct (markDirty_keeps s3) as (s4 & -> & Ha & Hc & _).
  exists s4. split; [done|]. rewrite Ha, Ha3, Hc, Hc3. subst s2. simpl.
  by rewrite Ha1.
Qed.

Lemma stays_register raw : respects stays (register raw).
Proof.
  intros s. destruct (normalizeAgentData raw) as [a|] eqn:Hn.
  - destruct (register_effect raw a s Hn) as (s' & -> & Hc & Ha). simpl.
    split; [done|]. intros Hinv i b. rewrite Ha, Hc. intros H.
    apply lookup_insert_Some in H as [[<- <-]|[Hne H]].
    + split; [done|]. apply registered_stored. by eapply normalizeAgentData_stored.
    + destruct (MAX_REGISTRY_SIZE <=? size (agents s))%nat; [|by apply Hinv].
      apply map_lookup_filter_Some in H as [H _]. by apply Hinv.
  - unfold register. rewrite Hn. by split.
Qed.

Lemma stays_update i u : respects stays (update i u).
Proof.
  intros s. destruct (agents s !! i) as [a|] eqn:Hi.
  2:{ by rewrite update_absent. }
  assert (Hu : (u = VUndefined \/ u = VNull) \/ (u <> VUndefined /\ u <> VNull)).
  { destruct u; auto; right; split; discriminate. }
  destruct Hu as [Hu|[Hu Hn]].
  { by rewrite (update_nullish i a u s Hi Hu). }
  destruct (update_run i a u s Hi Hu Hn) as (s' & -> & Ha & Hc & _). simpl.
  split; [done|]. intros Hinv j b. rewrite Ha, Hc. intros H.
  apply lookup_insert_Some in H as [[<- <-]|[Hne H]]; [|by apply Hinv].
  destruct (Hinv i a Hi) as [Hid Hst]. split.
  - destruct (applyUpdates_sameIdentity a u) as (-> & _). done.
  - by apply applyUpdates_stored.
Qed.

Lemma unregister_absent i s : agents s !! i = None -> unregister i s = (Normal None, s).
Proof. intros H. unfold unregister. unfold bind at 1, gets at 1. by rewrite H. Qed.

Lemma unregister_effect i a s :
  agents s !! i = Some a ->
  exists s', unregister i s = (Normal (Some a), s') /\ agents s' = delete i (agents s) /\
    clock s' = clock s /\ events s' = mkEvent "agent:unregistered" a :: events s.
Proof.
  intros H. unfold unregister. unfold bind at 1, gets at 1. rewrite H.
  unfold bind at 1, modify at 1. unfold bind at 1, emit at 1, modify at 1.
  unfold bind at 1.
  match goal with |- context [markDirty ?x] =>
    destruct (markDirty_keeps x) as (s4 & -> & Ha & Hc & He & _) end.
  exists s4. by rewrite Ha, Hc, He.
Qed.

Lemma stays_unregister i : respects stays (unregister i).
Proof.
  intros s. destruct (agents s !! i) as [a|] eqn:Hi.
  2:{ by rewrite unregister_absent. }
  destruct (unregister_effect i a s Hi) as (s' & -> & Ha & Hc & _). simpl.
  split; [done|]. intros Hinv j b. rewrite Ha, Hc. intros H.
  apply lookup_delete_Some in H as [_ H]. by apply Hinv.
Qed.

Lemma stays_cleanupAgents found removed : respects stays (cleanupAgents found removed).
Proof.
  revert removed. induction found as [|agent found IH]; intros removed; simpl.
  - apply respects_ret. typeclasses eauto.
  - respects_step.
    + respects_step. respects_step; [apply stays_update|]. respects_step.
    + respects_step; [apply stays_unregister|]. apply IH.
Qed.

Section PathsInvariant.
Variable resolve : string -> string.
Variable sep : string.

Lemma stays_cleanupWorktreeAgents w : respects stays (cleanupWorktreeAgents resolve sep w).
Proof. unfold cleanupWorktreeAgents. respects_step; [respects_step|]. apply stays_cleanupAgents. Qed.

Lemma stays_perform c s : stays s (perform resolve sep c s).
Proof.
  destruct c; simpl.
  - apply stays_loadFromDisk.
  - apply stays_register.
  - apply stays_update.
  - apply stays_unregister.
  - apply stays_cleanupOldAgents.
  - apply stays_cleanupWorktreeAgents.
Qed.

Lemma stays_history calls s : stays s (history resolve sep calls s).
Proof.
  revert s. induction calls as [|c calls IH]; intros s; simpl; [reflexivity|].
  etransitivity; [apply stays_perform|apply IH].
Qed.

Lemma invariant_loaded s : invariant (snd (loadFromDisk s)).
Proof.
  rewrite loadFromDisk_run. simpl. intros i a.
  assert (Hempty : forall s0 : State, agents (set_agents ∅ s0) !! i = Some a ->
            id a = i /\ stored (clock (set_agents ∅ s0)) a).
  { intros s0 H. simpl in H. by rewrite lookup_empty in H. }
  destruct (file s) as [| | |v]; try apply Hempty.
  destruct v; try apply Hempty. simpl. intros H.
  apply foldl_keep_Some in H as [H|[Hin Hid]]; [by rewrite lookup_empty in H|].
  split; [done|]. apply list_elem_of_omap in Hin as (e & _ & Hn).
  by eapply normalizeAgentData_stored.
Qed.

Lemma invariant_reachable calls s :
  invariant (history resolve sep calls (snd (loadFromDisk s))).
Proof. apply stays_history. apply invariant_loaded. Qed.

(** Whatever is done to a registry after it was initialized, every agent in
    the map is stored under its own id; the id and the worktree are not
    empty, the status is one of the five valid ones, and the text fields
    are trimmed. *)
Theorem registry_well_formed (calls : list Call) (s : State) :
  map_Forall (fun i a => id a = i /\ normalForm a)
    (agents (history resolve sep calls (snd (loadFromDisk s)))).
Proof.
  intros i a H. destruct (invariant_reachable calls s i a H) as [Hid [Hn _]]. done.
Qed.

End PathsInvariant.

(** *** Queries *)

Lemma getAll_elem a s : a ∈ getAll s <-> exists i, agents s !! i = Some a.
Proof.
  unfold getAll. rewrite list_elem_of_fmap. split.
  - intros ([i b] & -> & H). exists i. by apply elem_of_map_to_list.
  - intros (i & H). exists (i, a). split; [done|]. by apply elem_of_map_to_list.
Qed.

Lemma getAll_length s : length (getAll s) = size (agents s).
Proof. unfold getAll. by rewrite length_map, length_map_to_list. Qed.

Lemma foldl_count_lookup l m st :
  default 0%nat (foldl count m l !! st)
  = (default 0%nat (m !! st) + length (filter (fun a => status a = st) l))%nat.
Proof.
  revert m. induction l as [|a l IH]; intros m; simpl; [lia|].
  rewrite IH. unfold count. rewrite filter_cons.
  destruct (decide (status a = st)) as [->|Hne].
  - rewrite lookup_insert_eq. simpl. lia.
  - by rewrite lookup_insert_ne.
Qed.

Lemma foldl_count_is_Some l m st : is_Some (m !! st) -> is_Some (foldl count m l !! st).
Proof.
  revert m. induction l as [|a l IH]; intros m; simpl; [done|].
  intros H. apply IH. unfold count. destruct (decide (status a = st)) as [->|Hne].
  - rewrite lookup_insert_eq. by eexists.
  - by rewrite lookup_insert_ne.
Qed.

Lemma getCountByStatus_lookup st s :
  st ∈ VALID_STATUSES ->
  getCountByStatus s !! st = Some (length (filter (fun a => status a = st) (getAll s))).
Proof.
  intros Hst. unfold getCountByStatus.
  set (init := foldl _ ∅ _).
  assert (Hinit : init !! st = Some 0%nat).
  { unfold VALID_STATUSES in Hst. set_unfold.
    destruct Hst as [[[[-> | ->] | ->] | ->] | ->]; vm_compute; reflexivity. }
  pose proof (foldl_count_lookup (getAll s) init st) as H.
  destruct (foldl_count_is_Some (getAll s) init st) as [n Hn]; [by rewrite Hinit|].
  rewrite Hn in *. rewrite Hinit in H. simpl in H. by rewrite H.
Qed.

Lemma length_by_status (l : list Agent) :
  Forall (fun a => status a ∈ VALID_STATUSES) l ->
  length l =
    (length (filter (fun a => status a = "active") l)
     + length (filter (fun a => status a = "pending") l)
     + length (filter (fun a => status a = "completed") l)
     + length (filter (fun a => status a = "failed") l)
     + length (filter (fun a => status a = "terminating") l))%nat.
Proof.
  induction 1 as [|a l Ha _ IH]; simpl; [done|].
  rewrite !filter_cons.
  unfold VALID_STATUSES in Ha. set_unfold.
  destruct Ha as [[[[Ha | Ha] | Ha] | Ha] | Ha]; rewrite Ha; simpl; lia.
Qed.

Lemma valid_statuses st :
  st ∈ [ "active"; "pending"; "completed"; "failed"; "terminating" ] ->
  st ∈ VALID_STATUSES.
Proof. unfold VALID_STATUSES. set_unfold. tauto. Qed.

Section Reachable.
Variable resolve : string -> string.
Variable sep : string.
Variable calls : list Call.
Variable s0 : State.

Let s := history resolve sep calls (snd (loadFromDisk s0)).

(** In an initialized registry [getByStatus] returns exactly the registered
    agents of that status: the early return for a status that is not valid
    hides nothing, since no agent has such a status. *)
Theorem getByStatus_exact (st : string) (a : Agent) :
  a ∈ getByStatus st s <-> get (id a) s = Some a /\ status a = st.
Proof.
  unfold getByStatus, get. split.
  - case_bool_decide; [|by intros ?%elem_of_nil].
    intros [Hst [i Hi]%getAll_elem]%list_elem_of_filter.
    destruct (invariant_reachable resolve sep calls s0 i a Hi) as [<- _]. done.
  - intros [Hi Hst].
    destruct (invariant_reachable resolve sep calls s0 _ a Hi) as [_ [Hn _]].
    destruct Hn as (_ & _ & Hv & _). rewrite Hst in Hv.
    rewrite bool_decide_eq_true_2 by done.
    apply list_elem_of_filter. split; [done|]. apply getAll_elem. by eexists.
Qed.

(** In an initialized registry the five counts of [getSummary] are there,
    they are the lengths of the lists [getByStatus] returns, and they add
    up to [total]. *)
Theorem getSummary_adds_up :
  exists n_active n_pending n_completed n_failed n_terminating,
    getSummary s = mkSummary (size (agents s)) (Some n_active) (Some n_pending)
                     (Some n_completed) (Some n_failed) (Some n_terminating) /\
    n_active = length (getActiveAgents s) /\
    n_pending = length (getPendingAgents s) /\
    n_completed = length (getByStatus "completed" s) /\
    n_failed = length (getFailedAgents s) /\
    n_terminating = length (getByStatus "terminating" s) /\
    size (agents s) = (n_active + n_pending + n_completed + n_failed + n_terminating)%nat.
Proof.
  unfold getSummary, getActiveAgents, getPendingAgents, getFailedAgents, getByStatus.
  rewrite !getCountByStatus_lookup by (apply valid_statuses; repeat constructor).
  rewrite !bool_decide_eq_true_2 by (apply valid_statuses; repeat constructor).
  do 5 eexists. split; [reflexivity|]. split_and!; try done.
  rewrite <- getAll_length. apply length_by_status.
  apply Forall_forall. intros a [i Hi]%getAll_elem.
  destruct (invariant_reachable resolve sep calls s0 i a Hi) as [_ [Hn _]].
  by destruct Hn as (_ & _ & Hst & _).
Qed.

End Reachable.

(** *** Persistence *)

(** While [isDirty] is set nothing is written, and the flag stays. *)
Definition stuck (s s' : State) : Prop :=
  isDirty s = true -> isDirty s' = true /\ file s' = file s.

#[local] Instance stuck_preorder : PreOrder stuck.
Proof.
  split.
  - by intros s.
  - intros s1 s2 s3 H1 H2 H. destruct (H1 H) as [Hd Hf].
    destruct (H2 Hd) as [Hd' Hf']. split; [done|congruence].
Qed.

Lemma stuck_markDirty : respects stuck markDirty.
Proof. intros s H. unfold markDirty, bind, gets. rewrite H. by simpl. Qed.

Lemma stuck_emit name a : respects stuck (emit name a).
Proof. by intros s. Qed.

Lemma stuck_set_agents f : respects stuck (modify (fun s => set_agents (f s) s)).
Proof. by intros s. Qed.

Ltac stuck_auto :=
  repeat first
    [ apply stuck_markDirty | apply stuck_emit | apply stuck_set_agents
    | respects_step ].

Lemma stuck_loadFromDisk : respects stuck loadFromDisk.
Proof. intros s. rewrite loadFromDisk_run. simpl. by destruct (file s) as [| | |[]]. Qed.

Lemma stuck_cleanupOldAgents : respects stuck cleanupOldAgents.
Proof.
  unfold cleanupOldAgents. stuck_auto.
Qed.

Lemma stuck_register raw : respects stuck (register raw).
Proof.
  unfold register. destruct (normalizeAgentData raw); [|stuck_auto].
  cbv zeta. stuck_auto. apply stuck_cleanupOldAgents.
Qed.

Lemma stuck_update i u : respects stuck (update i u).
Proof. unfold update. cbv zeta. stuck_auto. Qed.

Lemma stuck_unregister i : respects stuck (unregister i).
Proof. unfold unregister. stuck_auto. Qed.

Lemma stuck_cleanupAgents found removed : respects stuck (cleanupAgents found removed).
Proof.
  revert removed. induction found as [|agent found IH]; intros removed; simpl.
  - stuck_auto.
  - respects_step.
    + respects_step. respects_step; [apply stuck_update|]. respects_step.
    + respects_step; [apply stuck_unregister|]. apply IH.
Qed.

Section PathsPersistence.
Variable resolve : string -> string.
Variable sep : string.

Lemma stuck_perform c s : stuck s (perform resolve sep c s).
Proof.
  destruct c; simpl.
  - apply stuck_loadFromDisk.
  - apply stuck_register.
  - apply stuck_update.
  - apply stuck_unregister.
  - apply stuck_cleanupOldAgents.
  - unfold cleanupWorktreeAgents.
    apply (respects_bind stuck); [apply respects_gets; typeclasses eauto|].
    intros found. apply stuck_cleanupAgents.
Qed.

Lemma stuck_history l s : stuck s (history resolve sep l s).
Proof.
  revert s. induction l as [|c l IH]; intros s; simpl; [reflexivity|].
  etransitivity; [apply stuck_perform|apply IH].
Qed.

(** Once [isDirty] is set with no write under way, as a write that failed
    leaves it, no later operation writes the registry file or clears the
    flag: [markDirty] starts a write only when the flag is clear, and only
    a write that succeeds clears it. *)
Theorem dirty_flag_blocks_persistence (l : list Call) (s : State) :
  isDirty s = true ->
  isDirty (history resolve sep l s) = true /\ file (history resolve sep l s) = file s.
Proof. apply stuck_history. Qed.

End PathsPersistence.

(** A write fails, then the disk recovers. *)
Definition afterFailedWrite : State :=
  let s := snd (register exampleRaw (mkState ∅ false None Missing (Some "EACCES") 1770000000000 [])) in
  mkState (agents s) (isDirty s) (persistenceLock s) (file s) None (clock s) (events s).

Lemma dirty_flag_blocks_persistence_witness :
  let l := [CallUpdate "agent-7" (VObject [("status", VString "completed")]);
            CallUnregister "agent-7"; CallRegister exampleRaw] in
  isDirty (history (fun p => p) "/" l afterFailedWrite) = true /\
  file (history (fun p => p) "/" l afterFailedWrite) = file afterFailedWrite.
Proof.
  apply (dirty_flag_blocks_persistence (fun p => p) "/" _ afterFailedWrite).
  vm_compute. reflexivity.
Defined.

(** A value [JSON.stringify] and [JSON.parse] give back as it is: nothing
    in it is [undefined]. *)
Fixpoint jsonValue (v : Value) : bool :=
  match v with
  | VUndefined => false
  | VArray items => forallb jsonValue items
  | VObject fields => forallb (fun kv => match kv with (_, x) => jsonValue x end) fields
  | _ => true
  end.

Lemma stringItems_strings l : stringItems (map VString l) = Some l.
Proof.
  unfold stringItems. induction l as [|x l IH]; simpl; [done|].
  change (mapM _ (map VString l)) with (stringItems (map VString l)) in *.
  unfold stringItems in *. by rewrite IH.
Qed.

Lemma normalizeAgentData_toValue a :
  normalForm a -> positive (startTime a) -> normalizeAgentData (toValue a) = Some a.
Proof.
  intros (Hid & Hw & Hst & Htid & Htw & Htb & Hts & Htp & Hpid & Hend & Hmeta) Hstart.
  unfold normalizeAgentData, toValue.
  cbn [prop map_get String.eqb Ascii.eqb Bool.eqb default trimmedString].
  unfold Datatypes.id. cbn [trimmedString].
  rewrite Htid, Htw, Htb, Htp.
  destruct (String.eqb_spec (id a) "") as [|_]; [done|].
  destruct (String.eqb_spec (worktree a) "") as [|_]; [done|].
  assert (Hts' : trim (status a) = status a).
  { unfold VALID_STATUSES in Hst. set_unfold.
    destruct Hst as [[[[-> | ->] | ->] | ->] | ->]; vm_compute; reflexivity. }
  rewrite Hts'. rewrite bool_decide_eq_true_2 by done. simpl.
  rewrite stringItems_strings, Hts.
  assert (Hpos : forall v, positive v -> positiveNumber (nullable VNumber v) = v).
  { intros [n|]; simpl; [|done]. intros Hn. by destruct (Z.ltb_spec 0 n); [|lia]. }
  rewrite !Hpos by done.
  destruct a as [i w b st sk p pd stt et ec es md]; simpl in *.
  f_equal. f_equal.
  - by destruct ec.
  - by destruct es.
  - by destruct md.
Qed.

Lemma omap_normalize_toValue (l : list Agent) :
  Forall (fun a => normalForm a /\ positive (startTime a)) l ->
  omap normalizeAgentData (map toValue l) = l.
Proof.
  induction 1 as [|a l [Hn Hs] _ IH]; [done|].
  pose proof (normalizeAgentData_toValue a Hn Hs) as Ha.
  change (map toValue (a :: l)) with (toValue a :: map toValue l).
  revert Ha. generalize (toValue a) as v. intros v Ha.
  change (omap normalizeAgentData (v :: map toValue l))
    with (match normalizeAgentData v with
          | Some y => y :: omap normalizeAgentData (map toValue l)
          | None => omap normalizeAgentData (map toValue l)
          end).
  by rewrite Ha, IH.
Qed.

Lemma foldl_keep_values (m : gmap string Agent) :
  map_Forall (fun i a => id a = i) m ->
  foldl keep ∅ (map snd (map_to_list m)) = m.
Proof.
  intros Hkey. apply map_eq. intros i.
  assert (Hin : forall a, a ∈ map snd (map_to_list m) <-> exists j, m !! j = Some a).
  { intros a. rewrite list_elem_of_fmap. split.
    - intros ([j b] & -> & H). exists j. by apply elem_of_map_to_list.
    - intros (j & H). exists (j, a). split; [done|]. by apply elem_of_map_to_list. }
  assert (Hsound : forall a, foldl keep ∅ (map snd (map_to_list m)) !! i = Some a ->
                             m !! i = Some a).
  { intros a H. apply foldl_keep_Some in H as [H|[Ha Hid]]; [by rewrite lookup_empty in H|].
    apply Hin in Ha as (j & Hj). by rewrite <- Hid, (Hkey j a Hj). }
  destruct (foldl keep ∅ (map snd (map_to_list m)) !! i) as [b|] eqn:Hb.
  - symmetry. by apply Hsound.
  - destruct (m !! i) as [a|] eqn:Hi; [|done].
    destruct (foldl_keep_is_Some (map snd (map_to_list m)) ∅ i) as [b Hb'].
    { right. exists a. split; [apply Hin; by exists i|by apply (Hkey i)]. }
    congruence.
Qed.

Lemma persistToDisk_run s :
  persistenceLock s = None ->
  writeFault s = None ->
  persistToDisk s
  = (Normal tt,
     set_isDirty false
       (set_file (Json (VArray (map toValue (map snd (map_to_list (agents s)))))) s)).
Proof. intros Hl H. unfold persistToDisk, bind, gets. by rewrite Hl, H. Qed.

(** A write behind a rejected promise is not made: the call rejects with
    the error of the write that failed, whatever the disk does by now. *)
Lemma persistToDisk_locked s error :
  persistenceLock s = Some error -> persistToDisk s = (Throw error, s).
Proof. intros Hl. unfold persistToDisk, bind, gets. by rewrite Hl. Qed.

Section PathsRoundTrip.
Variable resolve : string -> string.
Variable sep : string.

(** What [persistToDisk] writes, [loadFromDisk] reads back to the same
    map: in an initialized registry with a clock after the epoch, where no
    write has failed before (the promise of the last write is fulfilled)
    and the disk accepts this one, the call succeeds and no agent is dropped
    or changed by normalization on the way back. The metadata is taken to
    be what JSON can represent, which [toValue] assumes. *)
Theorem persist_load_round_trip (calls : list Call) (s0 : State) :
  let s := history resolve sep calls (snd (loadFromDisk s0)) in
  (0 < clock s0)%Z ->
  persistenceLock s = None ->
  writeFault s = None ->
  map_Forall (fun _ a => jsonValue (metadata a) = true) (agents s) ->
  exists s1 s2,
    persistToDisk s = (Normal tt, s1) /\ loadFromDisk s1 = (Normal tt, s2) /\
    agents s2 = agents s.
Proof.
  intros s Hclock Hlock Hfault _.
  assert (Hinv : invariant s) by apply invariant_reachable.
  assert (Hc : clock s = clock s0).
  { unfold s. destruct (stays_history resolve sep calls (snd (loadFromDisk s0))) as [-> _].
    by destruct (stays_loadFromDisk s0) as [-> _]. }
  rewrite (persistToDisk_run s Hlock Hfault). eexists. eexists. split; [done|].
  rewrite loadFromDisk_run. split; [done|]. simpl.
  rewrite omap_normalize_toValue.
  - apply foldl_keep_values. intros i a Hi. by destruct (Hinv i a Hi).
  - apply Forall_forall. intros a ([i b] & -> & Hi%elem_of_map_to_list)%list_elem_of_fmap.
    destruct (Hinv i b Hi) as [_ [Hn Hs]]. split; [done|]. apply Hs. by rewrite Hc.
Qed.

End PathsRoundTrip.

Lemma persist_load_round_trip_witness :
  let calls := [CallRegister exampleRaw;
                CallUpdate "agent-7"
                  (VObject [("status", VString "completed"); ("endTime", VNumber 1770000000500);
                            ("metadata", VObject [("attempt", VNumber 2)])])] in
  let s := history (fun p => p) "/" calls (snd (loadFromDisk emptyRegistry)) in
  exists s1 s2,
    persistToDisk s = (Normal tt, s1) /\ loadFromDisk s1 = (Normal tt, s2) /\
    agents s2 = agents s.
Proof.
  apply (persist_load_round_trip (fun p => p) "/" _ emptyRegistry).
  - vm_compute. reflexivity.
  - vm_compute. reflexivity.
  - vm_compute. reflexivity.
  - apply (bool_decide_eq_true_1 _). vm_compute. reflexivity.
Defined.

(** *** Pruning on [register] *)

Section Pruning.
Variable resolve : string -> string.
Variable sep : string.
Variable calls : list Call.
Variable s0 : State.

Let s := history resolve sep calls (snd (loadFromDisk s0)).

(** In an initialized registry, where an [endTime] is positive if there is
    one, [register] drops other agents only when the map holds 1000 or
    more, and then only those that are completed, failed or terminating
    with an [endTime] more than 24 hours back: an active or pending agent
    is never dropped, so the map can grow past 1000. *)
Theorem register_prunes_only_old (raw : Value) (a : Agent) :
  normalizeAgentData raw = Some a ->
  exists r s', register raw s = (Normal r, s') /\
    forall i b, agents s !! i = Some b -> i <> id a ->
      agents s' !! i =
        if (MAX_REGISTRY_SIZE <=? size (agents s))%nat && isOld (clock s) b
        then None else Some b.
Proof.
  intros Hn. destruct (register_effect raw a s Hn) as (s' & Hrun & _ & Ha).
  exists (registered (clock s) a), s'. split; [done|].
  intros i b Hi Hne. rewrite Ha, lookup_insert_ne by done.
  destruct (MAX_REGISTRY_SIZE <=? size (agents s))%nat; simpl; [|done].
  destruct (isOld (clock s) b) eqn:Hold.
  - apply map_lookup_filter_None. right. intros b' Hb'. simpl.
    rewrite Hi in Hb'. injection Hb' as <-. by rewrite Hold.
  - apply map_lookup_filter_Some. by split.
Qed.

End Pruning.

Lemma register_prunes_only_old_witness :
  let s := history (fun p => p) "/" [CallRegister exampleRaw]
             (snd (loadFromDisk emptyRegistry)) in
  exists r s', register (VObject [("id", VString "agent-8"); ("status", VString "pending");
                                  ("worktree", VString "/repo/w8")]) s
               = (Normal r, s') /\
    forall i b, agents s !! i = Some b -> i <> "agent-8" ->
      agents s' !! i =
        if (MAX_REGISTRY_SIZE <=? size (agents s))%nat && isOld (clock s) b
        then None else Some b.
Proof.
  apply (register_prunes_only_old (fun p => p) "/" [CallRegister exampleRaw] emptyRegistry _
           (mkAgent "agent-8" "/repo/w8" "" "pending" [] "" None None None None None
              (VObject []))).
  vm_compute. reflexivity.
Defined.

(** *** Cleaning up a worktree *)

Definition terminatingUpdate : Value := VObject [("status", VString "terminating")].

(** The record [cleanupWorktreeAgents] hands back for an agent it found. *)
Definition retired (a : Agent) : Agent :=
  if String.eqb (status a) "active" || String.eqb (status a) "pending"
  then set_status "terminating" a else a.

Lemma applyUpdates_terminating a :
  applyUpdates a terminatingUpdate = set_status "terminating" a.
Proof.
  unfold applyUpdates, terminatingUpdate.
  cbn [prop map_get String.eqb Ascii.eqb Bool.eqb default positiveNumber trimmedItems
       mergedMetadata from_option assign].
  unfold Datatypes.id. cbn [validStatus positiveNumber trimmedItems mergedMetadata assign].
  rewrite bool_decide_eq_true_2 by (apply valid_statuses; repeat constructor).
  done.
Qed.

Lemma cleanupAgents_run found removed s :
  NoDup (map id found) ->
  (forall a, a ∈ found -> agents s !! id a = Some a) ->
  exists s', cleanupAgents found removed s = (Normal (removed ++ map retired found)%list, s') /\
    (forall i, agents s' !! i = if bool_decide (i ∈ map id found) then None else agents s !! i).
Proof.
  revert removed s. induction found as [|agent found IH]; intros removed s Hnd Hin.
  - exists s. simpl. by rewrite app_nil_r.
  - apply NoDup_cons in Hnd as [Hnew Hnd].
    assert (Hagent : agents s !! id agent = Some agent) by (apply Hin; by left).
    cbn [cleanupAgents]. unfold bind at 1.
    assert (Hfirst : exists s1,
      when (String.eqb (status agent) "active" || String.eqb (status agent) "pending")
        (update (id agent) (VObject [("status", VString "terminating")]) ;; ret tt) s
      = (Normal tt, s1) /\
      agents s1 = <[id agent := retired agent]> (agents s)).
    { unfold retired.
      destruct (String.eqb (status agent) "active" || String.eqb (status agent) "pending");
        simpl.
      - unfold bind at 1.
        destruct (update_run (id agent) agent terminatingUpdate s Hagent)
          as (s1 & Hrun & Ha & _); [done..|].
        unfold terminatingUpdate in Hrun. rewrite Hrun. exists s1. split; [done|].
        by rewrite Ha, applyUpdates_terminating.
      - exists s. split; [done|]. by rewrite insert_id. }
    destruct Hfirst as (s1 & -> & Ha1). unfold bind at 1.
    destruct (unregister_effect (id agent) (retired agent) s1) as (s2 & -> & Ha2 & _).
    { rewrite Ha1. apply lookup_insert_eq. }
    destruct (IH (removed ++ [retired agent])%list s2 Hnd) as (s' & -> & Hs').
    { intros b Hb. rewrite Ha2, Ha1, delete_insert_eq.
      rewrite lookup_delete_ne; [apply Hin; by right|].
      intros Heq. apply Hnew. rewrite Heq. apply list_elem_of_fmap. by exists b. }
    exists s'. split.
    + by rewrite <- app_assoc.
    + intros i. rewrite Hs', Ha2, Ha1, delete_insert_eq. cbn [map].
      destruct (decide (i = id agent)) as [->|Hne].
      * rewrite (bool_decide_eq_true_2 (id agent ∈ id agent :: map id found)) by by left.
        rewrite lookup_delete_eq. by case_bool_decide.
      * rewrite lookup_delete_ne by done.
        case_bool_decide as H1; case_bool_decide as H2; try done.
        -- exfalso. apply H2. by right.
        -- apply elem_of_cons in H2 as [?|?]; done.
Qed.

Lemma retired_status a : status (retired a) <> "active" /\ status (retired a) <> "pending".
Proof.
  unfold retired.
  destruct (String.eqb_spec (status a) "active") as [Ha|Ha]; simpl; [done|].
  destruct (String.eqb_spec (status a) "pending") as [Hp|Hp]; simpl; done.
Qed.

Lemma getAll_ids s :
  map_Forall (fun i a => id a = i) (agents s) -> NoDup (map id (getAll s)).
Proof.
  intros Hkey. unfold getAll.
  assert (H : map id (map snd (map_to_list (agents s))) = map fst (map_to_list (agents s))).
  { rewrite map_map. apply map_ext_in. intros [i a] Hin. simpl.
    apply (Hkey i a). apply elem_of_map_to_list. by apply list_elem_of_In. }
  rewrite H. apply NoDup_fst_map_to_list.
Qed.

Section WorktreeCleanup.
Variable resolve : string -> string.
Variable sep : string.
Variable calls : list Call.
Variable s0 : State.

Let s := history resolve sep calls (snd (loadFromDisk s0)).

(** In an initialized registry [cleanupWorktreeAgents] returns: it hands
    back every agent [getByWorktree] finds, those that were active or
    pending as terminating; afterwards [getByWorktree] finds none, and the
    agents of other worktrees are registered as before. *)
Theorem cleanupWorktreeAgents_removes_all (w : string) :
  exists s',
    cleanupWorktreeAgents resolve sep w s
    = (Normal (map retired (getByWorktree resolve sep w s)), s') /\
    getByWorktree resolve sep w s' = [] /\
    (forall i a, agents s' !! i = Some a <->
                 agents s !! i = Some a /\ a ∉ getByWorktree resolve sep w s) /\
    Forall (fun a => status a <> "active" /\ status a <> "pending")
      (map retired (getByWorktree resolve sep w s)).
Proof.
  assert (Hinv : invariant s) by apply invariant_reachable.
  assert (Hkey : map_Forall (fun i a => id a = i) (agents s)).
  { intros i a Hi. by destruct (Hinv i a Hi). }
  set (found := getByWorktree resolve sep w s).
  assert (Hfound : forall a, a ∈ found -> agents s !! id a = Some a).
  { intros a [_ [i Hi]%getAll_elem]%list_elem_of_filter. by rewrite (Hkey i a Hi). }
  assert (Hnd : NoDup (map id found)).
  { eapply sublist_NoDup; [apply (getAll_ids s Hkey)|].
    apply (fmap_sublist id). apply sublist_filter. }
  destruct (cleanupAgents_run found [] s Hnd Hfound) as (s' & Hrun & Hs').
  assert (Hiff : forall i a, agents s' !! i = Some a <-> agents s !! i = Some a /\ a ∉ found).
  { intros i a. rewrite Hs'. case_bool_decide as Hi; split.
    - done.
    - intros [Ha Hnot]. exfalso. apply Hnot.
      apply list_elem_of_fmap in Hi as (b & -> & Hb).
      pose proof (Hfound b Hb) as Hb'. rewrite Ha in Hb'. by injection Hb' as ->.
    - intros Ha. split; [done|]. intros Hin. apply Hi.
      rewrite <- (Hkey i a Ha). apply list_elem_of_fmap. by exists a.
    - by intros [Ha _]. }
  exists s'. split_and!.
  - unfold cleanupWorktreeAgents. unfold bind at 1, gets at 1. exact Hrun.
  - apply elem_of_nil_inv. intros a [Hp [i Hi]%getAll_elem]%list_elem_of_filter.
    apply Hiff in Hi as [Hi Hnot]. apply Hnot.
    apply list_elem_of_filter. split; [done|]. apply getAll_elem. by exists i.
  - exact Hiff.
  - apply Forall_forall. intros a (b & -> & _)%list_elem_of_fmap. apply retired_status.
Qed.

End WorktreeCleanup.

End Registry.

(** ** Process isolation: [AgentIsolation] (agent-isolation.js) *)

Module Isolation.
Import Js.
Local Open Scope eff_scope.

Definition MAX_CONCURRENT_AGENTS : nat := 10.
Definition AGENT_TIMEOUT_MS : Z := 30 * 60 * 1000.
Definition AGENT_MEMORY_LIMIT_MB : Q := 512.
Definition RESOURCE_CHECK_INTERVAL : Z := 5000.

(** A child process handle; [pid] is absent when the process did not start. *)
Record ChildProcess := mkChild { pid : option Z }.

(** *** Numbers *)

(** A JavaScript number: a finite one, taken as the rational it stands for,
    an infinity, or [NaN]. Zero has no sign here: none of the computations
    below divides by a zero that could be negative. A rational is what the
    double of the code holds where no rounding comes in, as for the
    megabytes of a process and their comparison with the limit, as long as
    a hundred times the bytes stay below 2^53; the CPU share is the exact
    quotient where the code has the nearest double. Results are kept in
    lowest terms. *)
Inductive Num := Finite (q : Q) | Infinity (negative : bool) | NaN.

Coercion Finite : Q >-> Num.
Bind Scope Q_scope with Num.

Definition mul (a b : Num) : Num :=
  match a, b with
  | NaN, _ | _, NaN => NaN
  | Finite x, Finite y => Finite (Qred (x * y))
  | Infinity n, Finite y | Finite y, Infinity n =>
      match (0 ?= y)%Q with
      | Eq => NaN
      | Lt => Infinity n
      | Gt => Infinity (negb n)
      end
  | Infinity n, Infinity n' => Infinity (xorb n n')
  end.

Definition div (a b : Num) : Num :=
  match a, b with
  | NaN, _ | _, NaN => NaN
  | Finite x, Finite y =>
      match (0 ?= y)%Q with
      | Eq =>
          match (0 ?= x)%Q with
          | Eq => NaN
          | Lt => Infinity false
          | Gt => Infinity true
          end
      | _ => Finite (Qred (x / y))
      end
  | Finite _, Infinity _ => Finite 0
  | Infinity n, Finite y =>
      match (0 ?= y)%Q with
      | Gt => Infinity (negb n)
      | _ => Infinity n
      end
  | Infinity _, Infinity _ => NaN
  end.

Definition add (a b : Num) : Num :=
  match a, b with
  | NaN, _ | _, NaN => NaN
  | Finite x, Finite y => Finite (Qred (x + y))
  | Infinity n, Finite _ | Finite _, Infinity n => Infinity n
  | Infinity n, Infinity n' => if Bool.eqb n n' then Infinity n else NaN
  end.

(** [a > b] *)
Definition gt (a b : Num) : bool :=
  match a, b with
  | NaN, _ | _, NaN => false
  | Finite x, Finite y => negb (Qle_bool x y)
  | Infinity n, Finite _ => negb n
  | Finite _, Infinity n => n
  | Infinity n, Infinity n' => negb n && n'
  end.

(** [Math.max(a, b)] *)
Definition max (a b : Num) : Num :=
  match a, b with
  | NaN, _ | _, NaN => NaN
  | _, _ => if gt b a then b else a
  end.

(** [Math.round(a)]: to the nearest integer, a half upwards. *)
Definition round (a : Num) : Num :=
  match a with
  | Finite x => Finite (inject_Z (Qfloor (x + (1 # 2))))
  | _ => a
  end.

(** [parseInt(s, 10)]: white space is skipped, then a sign and the digits
    that follow are read, up to the first character that is none; [NaN]
    when there is no digit. (From 2^53 on the code has the nearest double.) *)
Definition digit (c : ascii) : option Z :=
  let n := nat_of_ascii c in
  if (48 <=? n)%nat && (n <=? 57)%nat then Some (Z.of_nat (n - 48)) else None.

Fixpoint digits (s : string) (read : option Z) : option Z :=
  match s with
  | EmptyString => read
  | String c s' =>
      match digit c with
      | Some d => digits s' (Some (10 * default 0 read + d)%Z)
      | None => read
      end
  end.

Definition parseInt (s : string) : Num :=
  let signed :=
    match Registry.trimStart s with
    | String "-" rest => (true, rest)
    | String "+" rest => (false, rest)
    | rest => (false, rest)
    end in
  match digits (snd signed) None with
  | Some n => Finite (inject_Z (if fst signed then - n else n))
  | None => NaN
  end.

(** [s.split(sep)] for a separator of one character. *)
Fixpoint split (sep : ascii) (s : string) : list string :=
  match s with
  | EmptyString => [EmptyString]
  | String c s' =>
      if Ascii.eqb c sep then EmptyString :: split sep s'
      else match split sep s' with
           | piece :: pieces => String c piece :: pieces
           | [] => [String c EmptyString]
           end
  end.

(** [piece || "0"] for an element of an array of strings, or [undefined]. *)
Definition orZero (piece : option string) : string :=
  match piece with
  | Some (String c s) => String c s
  | _ => "0"
  end.

Definition nonEmpty (s : string) : bool :=
  match s with EmptyString => false | _ => true end.

(** What [getProcessStats] returns: numbers with two decimals. *)
Record Stats := mkStats { memoryMB : Num; cpuPercent : Num }.

(** A monitor object; it is in [resourceMonitors] while its interval runs. *)
Record Monitor := mkMonitor {
  startTime : Z;
  maxMemory : Num;
  cpuSamples : list Num;
}.

(** What PowerShell prints for [Get-Process ... | Select-Object WorkingSet,
    CPU | ConvertTo-Json], parsed: each property is a number, or [null]. *)
Record WinProcess := mkWinProcess { WorkingSet : option Q; CPU : option Q }.

(** The machine [getProcessStats] runs on, which is not part of the sources
    at hand: [os_platform] is what [os.platform()] returns; [os_pageSize] is
    what the call [os.pageSize()] returns, or the message of the error it
    throws; [readFile path] is the text of the file, if it can be read;
    [powershell pid] is the parsed answer of PowerShell for a process, or
    the message of the error of [exec] or [JSON.parse]. *)
Record Platform := mkPlatform {
  os_platform : string;
  os_pageSize : string + Z;
  readFile : string -> option string;
  powershell : Z -> string + WinProcess;
}.

(** The agent that [spawn] of git-worktree-service.js resolves to. *)
Record WorktreeAgent := mkWorktreeAgent {
  id : string;
  worktreePath : string;
  branchName : string;
}.

(** The calls made to git-worktree-service.js, which is not part of the
    sources at hand: the service is a parameter of the model. A call is
    logged, and the service answers it by resolving or by rejecting with an
    error message. *)
Inductive Call :=
| SpawnWorktreeAgent (projectDirectory agentName : string) (task branchName : option string)
    (baseBranch : string)
| StartAgentProcess (agentId command : string) (args : list string) (cwd : string)
    (env : gmap string string)
| TerminateAgent (agentId : string)
| FailAgent (agentId error : string)
| CompleteAgent (agentId : string) (exitCode : Z).

Record Service := mkService {
  spawnWorktreeAgent : string -> string -> option string -> option string -> string
                       -> string + WorktreeAgent;
  startAgentProcess : string -> string -> list string -> string -> gmap string string
                      -> string + ChildProcess;
  terminateAgentCall : string -> option string;
  failAgent : string -> string -> option string;
  completeAgent : string -> Z -> option string;
}.

Inductive Event :=
| AgentSpawning (agentId agentName worktreePath : string)
| AgentSpawned (agentId agentName worktreePath : string) (pid : option Z)
| AgentSpawnFailed (agentId : option string) (error : string)
| AgentTimeout (agentId : string)
| AgentExit (agentId : string) (code : option Z) (signal : option string)
| AgentError (agentId error : string)
| AgentTerminating (agentId reason : string).

(** [timeouts] holds the agents whose wall-clock timer is armed;
    [calls] and [events] are newest first. *)
Record State := mkState {
  activeProcesses : gmap string ChildProcess;
  resourceMonitors : gmap string Monitor;
  isMonitoring : bool;
  timeouts : gset string;
  service : Service;
  platform : Platform;
  processEnv : gmap string string;
  clock : Z;
  calls : list Call;
  events : list Event;
}.

Definition set_activeProcesses (v : gmap string ChildProcess) (s : State) : State :=
  mkState v (resourceMonitors s) (isMonitoring s) (timeouts s) (service s)
    (platform s) (processEnv s) (clock s) (calls s) (events s).
Definition set_resourceMonitors (v : gmap string Monitor) (s : State) : State :=
  mkState (activeProcesses s) v (isMonitoring s) (timeouts s) (service s)
    (platform s) (processEnv s) (clock s) (calls s) (events s).
Definition set_isMonitoring (v : bool) (s : State) : State :=
  mkState (activeProcesses s) (resourceMonitors s) v (timeouts s) (service s)
    (platform s) (processEnv s) (clock s) (calls s) (events s).
Definition set_timeouts (v : gset string) (s : State) : State :=
  mkState (activeProcesses s) (resourceMonitors s) (isMonitoring s) v (service s)
    (platform s) (processEnv s) (clock s) (calls s) (events s).
Definition set_calls (v : list Call) (s : State) : State :=
  mkState (activeProcesses s) (resourceMonitors s) (isMonitoring s) (timeouts s)
    (service s) (platform s) (processEnv s) (clock s) v (events s).
Definition set_events (v : list Event) (s : State) : State :=
  mkState (activeProcesses s) (resourceMonitors s) (isMonitoring s) (timeouts s)
    (service s) (platform s) (processEnv s) (clock s) (calls s) v.

(** [new AgentIsolation()] *)
Definition constructor (svc : Service) (machine : Platform)
    (env : gmap string string) (now : Z) : State :=
  mkState ∅ ∅ false ∅ svc machine env now [] [].

Definition emit (e : Event) : Eff State unit :=
  modify (fun s => set_events (e :: events s) s).

(** A call to the service: logged, then resolved or rejected. *)
Definition call {A} (c : Call) (answer : Service -> string + A) : Eff State A :=
  modify (fun s => set_calls (c :: calls s) s) ;;
  r <- gets (fun s => answer (service s)) ;;
  match r with
  | inl e => throw e
  | inr a => ret a
  end.

Definition unitAnswer (r : option string) : string + unit :=
  match r with Some e => inl e | None => inr tt end.

Record SpawnParams := mkSpawnParams {
  projectDirectory : string;
  agentName : string;
  task : option string;
  command : string;
  args : list string;
  env : gmap string string;
  branchNameParam : option string;
  baseBranch : string;
}.

Record Spawned := mkSpawned {
  sp_agentId : string;
  sp_pid : option Z;
  sp_worktreePath : string;
  sp_branchName : string;
  sp_status : string;
}.

(** [{...process.env, ...baseEnv, AGENT_ID, ...}] with the worktree put in
    front of [PATH]; [path.delimiter] is the POSIX one. *)
Definition buildIsolatedEnv (processEnv baseEnv : gmap string string)
    (agentId worktreePath : string) : gmap string string :=
  let isolatedEnv :=
    <["NODE_ENV" := "production"]>
      (<["AGENT_ISOLATED" := "1"]>
         (<["AGENT_WORKTREE" := worktreePath]>
            (<["AGENT_ID" := agentId]> (baseEnv ∪ processEnv)))) in
  <["PATH" := worktreePath +:+ ":" +:+ default "undefined" (isolatedEnv !! "PATH")]>
    isolatedEnv.

(** [terminateAgent]: the result is [{success, reason}]. *)
Definition terminateAgent (agentId reason : string) : Eff State (bool * string) :=
  childProcess <- gets (fun s => activeProcesses s !! agentId) ;;
  match childProcess with
  | None => ret (false, "not_found")
  | Some _ =>
      emit (AgentTerminating agentId reason) ;;
      try_catch
        (call (TerminateAgent agentId) (fun svc => unitAnswer (terminateAgentCall svc agentId)) ;;
         ret (true, reason))
        (fun e => ret (false, e))
  end.

(** [setupProcessHandlers] arms the wall-clock timer; the handlers it
    installs are [onTimeout], [onExit] and [onError] below. *)
Definition setupProcessHandlers (agentId : string) : Eff State unit :=
  modify (fun s => set_timeouts ({[agentId]} ∪ timeouts s) s).

Definition onTimeout (agentId : string) : Eff State unit :=
  modify (fun s => set_timeouts (timeouts s ∖ {[agentId]}) s) ;;
  emit (AgentTimeout agentId) ;;
  terminateAgent agentId "timeout" ;;
  ret tt.

Definition startResourceMonitoring (agentId : string) (childProcess : ChildProcess)
    : Eff State unit :=
  match pid childProcess with
  | None => ret tt
  | Some _ =>
      now <- gets clock ;;
      modify (fun s =>
        set_resourceMonitors (<[agentId := mkMonitor now 0%Q []]> (resourceMonitors s)) s) ;;
      modify (set_isMonitoring true)
  end.

Definition average (samples : list Num) : Num :=
  match samples with
  | [] => 0
  | _ => div (fold_left add samples (Finite 0)) (inject_Z (Z.of_nat (length samples)))
  end.

(** [stopResourceMonitoring]: the summary [(duration, maxMemory, avgCpu)],
    or nothing when the agent has no monitor. *)
Definition stopResourceMonitoring (agentId : string) : Eff State (option (Z * Num * Num)) :=
  monitor <- gets (fun s => resourceMonitors s !! agentId) ;;
  match monitor with
  | None => ret None
  | Some m =>
      modify (fun s => set_resourceMonitors (delete agentId (resourceMonitors s)) s) ;;
      empty <- gets (fun s => bool_decide (size (resourceMonitors s) = 0)) ;;
      when empty (modify (set_isMonitoring false)) ;;
      now <- gets clock ;;
      ret (Some ((now - startTime m)%Z, maxMemory m, average (cpuSamples m)))
  end.

(** The megabytes and the CPU share of a process on Windows. *)
Definition measureWindows (machine : Platform) (pid : Z) : Eff State (Num * Num) :=
  match powershell machine pid with
  | inl e => throw e
  | inr data =>
      ret (div (default 0%Q (WorkingSet data)) (1024 * 1024),
           Finite (default 0%Q (CPU data)))
  end.

(** The same from [/proc]: the second field of [statm] is the resident
    pages, fields 14 and 15 of [stat] are the user and system time. A file
    that cannot be read counts as empty. *)
Definition measureProc (machine : Platform) (pid : Z) : Eff State (Num * Num) :=
  let statData := default "" (readFile machine ("/proc/" +:+ pretty pid +:+ "/stat")) in
  let statmData := default "" (readFile machine ("/proc/" +:+ pretty pid +:+ "/statm")) in
  memoryMB <-
    (if nonEmpty statmData then
       let residentPages := parseInt (orZero (split " " statmData !! 1%nat)) in
       match os_pageSize machine with
       | inl e => throw e
       | inr pageSize => ret (div (mul residentPages (inject_Z pageSize)) (1024 * 1024))
       end
     else ret (Finite 0)) ;;
  cpuPercent <-
    (if nonEmpty statData then
       let parts := split " " statData in
       let utime := parseInt (orZero (parts !! 13%nat)) in
       let stime := parseInt (orZero (parts !! 14%nat)) in
       let totalTime := add utime stime in
       now <- gets clock ;;
       let seconds := div (inject_Z now) 1000 in
       ret (mul (div totalTime seconds) 100)
     else ret (Finite 0)) ;;
  ret (memoryMB, cpuPercent).

(** [getProcessStats]: it has no effect on the isolation object, and it
    always returns: whatever is thrown while it measures is logged, and the
    numbers are then the zeros they were set to. *)
Definition getProcessStats (pid : Z) : Eff State Stats :=
  machine <- gets platform ;;
  measured <- try_catch
                (if String.eqb (os_platform machine) "win32" then measureWindows machine pid
                 else measureProc machine pid)
                (fun _ => ret (Finite 0, Finite 0)) ;;
  ret (mkStats (div (round (mul (fst measured) 100)) 100)
               (div (round (mul (snd measured) 100)) 100)).

Definition recordSample (stats : Stats) (m : Monitor) : Monitor :=
  let samples := (cpuSamples m ++ [cpuPercent stats])%list in
  mkMonitor (startTime m)
    (max (maxMemory m) (memoryMB stats))
    (if (60 <? length samples)%nat then tail samples else samples).

(** The callback of the monitor's interval, every 5 seconds, run with
    nothing else between its awaits. *)
Definition checkResources (agentId : string) (pid : Z) : Eff State unit :=
  try_catch
    (stats <- getProcessStats pid ;;
     modify (fun s =>
       set_resourceMonitors (alter (recordSample stats) agentId (resourceMonitors s)) s) ;;
     if gt (memoryMB stats) AGENT_MEMORY_LIMIT_MB then
       terminateAgent agentId "memory_limit_exceeded" ;; ret tt
     else ret tt)
    (fun _ => ret tt).

(** [`${code}`] and [`${signal}`] *)
Definition showCode (code : option Z) : string :=
  match code with Some n => pretty n | None => "null" end.
Definition showSignal (signal : option string) : string :=
  match signal with Some sig => sig | None => "null" end.

(** The handler of the child's [exit] event. *)
Definition onExit (agentId : string) (code : option Z) (signal : option string)
    : Eff State unit :=
  modify (fun s => set_timeouts (timeouts s ∖ {[agentId]}) s) ;;
  modify (fun s => set_activeProcesses (delete agentId (activeProcesses s)) s) ;;
  stopResourceMonitoring agentId ;;
  emit (AgentExit agentId code signal) ;;
  try_catch
    (match code with
     | Some 0%Z =>
         call (CompleteAgent agentId 0) (fun svc => unitAnswer (completeAgent svc agentId 0))
     | _ =>
         let error := "Process exited with code " +:+ showCode code
                      +:+ ", signal: " +:+ showSignal signal in
         call (FailAgent agentId error) (fun svc => unitAnswer (failAgent svc agentId error))
     end)
    (fun _ => ret tt).

(** The handler of the child's [error] event. *)
Definition onError (agentId error : string) : Eff State unit :=
  modify (fun s => set_timeouts (timeouts s ∖ {[agentId]}) s) ;;
  modify (fun s => set_activeProcesses (delete agentId (activeProcesses s)) s) ;;
  stopResourceMonitoring agentId ;;
  emit (AgentError agentId error) ;;
  try_catch
    (call (FailAgent agentId error) (fun svc => unitAnswer (failAgent svc agentId error)))
    (fun _ => ret tt).

(** The body of the [try] of [spawnAgentInIsolation] from the point where
    [agentId] is set. *)
Definition startInWorktree (params : SpawnParams) (agent : WorktreeAgent)
    : Eff State Spawned :=
  let agentId := id agent in
  let worktreePath := worktreePath agent in
  emit (AgentSpawning agentId (agentName params) worktreePath) ;;
  isolatedEnv <- gets (fun s => buildIsolatedEnv (processEnv s) (env params) agentId worktreePath) ;;
  childProcess <- call (StartAgentProcess agentId (command params) (args params)
                          worktreePath isolatedEnv)
                    (fun svc => startAgentProcess svc agentId (command params)
                                  (args params) worktreePath isolatedEnv) ;;
  modify (fun s => set_activeProcesses (<[agentId := childProcess]> (activeProcesses s)) s) ;;
  setupProcessHandlers agentId ;;
  startResourceMonitoring agentId childProcess ;;
  emit (AgentSpawned agentId (agentName params) worktreePath (pid childProcess)) ;;
  ret (mkSpawned agentId (pid childProcess) worktreePath (branchName agent) "active").

(** [spawnAgentInIsolation], run with nothing else between its awaits, as
    all [async] methods of this part are; the module [Async] below has them
    cut at their awaits. The one [try] of the source is split where
    [agentId] gets its value: the [catch] reads it, and it is still [null]
    when the worktree could not be made. *)
Definition spawnAgentInIsolation (params : SpawnParams) : Eff State Spawned :=
  activeCount <- gets (fun s => size (activeProcesses s)) ;;
  if (MAX_CONCURRENT_AGENTS <=? activeCount)%nat then
    throw ("Maximum concurrent agents (" +:+ pretty MAX_CONCURRENT_AGENTS +:+ ") reached")
  else
    made <- try_catch
              (agent <- call (SpawnWorktreeAgent (projectDirectory params) (agentName params)
                              (task params) (branchNameParam params) (baseBranch params))
                          (fun svc => spawnWorktreeAgent svc (projectDirectory params)
                                        (agentName params) (task params)
                                        (branchNameParam params) (baseBranch params)) ;;
               ret (inr agent))
              (fun e => ret (inl e)) ;;
    match made with
    | inl e =>
        emit (AgentSpawnFailed None e) ;;
        throw e
    | inr agent =>
        try_catch (startInWorktree params agent)
          (fun e =>
             emit (AgentSpawnFailed (Some (id agent)) e) ;;
             when (negb (String.eqb (id agent) ""))
               (call (FailAgent (id agent) e) (fun svc => unitAnswer (failAgent svc (id agent) e))) ;;
             throw e)
    end.

Local Arguments Nat.leb : simpl never.

(** *** Exit *)

Lemma stopResourceMonitoring_run agentId s :
  exists r s', stopResourceMonitoring agentId s = (Normal r, s') /\
    activeProcesses s' = activeProcesses s /\ calls s' = calls s /\
    events s' = events s /\ service s' = service s /\
    resourceMonitors s' = delete agentId (resourceMonitors s).
Proof.
  unfold stopResourceMonitoring, bind, gets, modify, when, ret.
  destruct (resourceMonitors s !! agentId) eqn:E; simpl.
  - destruct (bool_decide _); simpl; by do 2 eexists.
  - do 2 eexists. repeat split; try done. symmetry. by apply delete_id.
Qed.

Definition exitError (code : option Z) (signal : option string) : string :=
  "Process exited with code " +:+ showCode code +:+ ", signal: " +:+ showSignal signal.

Lemma onExit_run (s : State) (agentId : string) (code : option Z) (signal : option string) :
  exists s', onExit agentId code signal s = (Normal tt, s') /\
    calls s' = (if decide (code = Some 0%Z) then CompleteAgent agentId 0
                else FailAgent agentId (exitError code signal)) :: calls s /\
    head (events s') = Some (AgentExit agentId code signal) /\
    activeProcesses s' !! agentId = None.
Proof.
  unfold onExit.
  unfold bind at 1, modify at 1. unfold bind at 1, modify at 1. unfold bind at 1.
  match goal with |- context [stopResourceMonitoring agentId ?x] =>
    destruct (stopResourceMonitoring_run agentId x) as (r & s1 & -> & Ha & Hc & He & Hs & _)
  end.
  cbn [activeProcesses calls events service set_activeProcesses set_timeouts] in Ha, Hc, He, Hs.
  unfold bind at 1, emit at 1, modify at 1.
  assert (Hcall : forall c (answer : Service -> string + unit) s0,
            exists s2, try_catch (call c answer) (fun _ => ret tt) s0 = (Normal tt, s2) /\
              calls s2 = c :: calls s0 /\ events s2 = events s0 /\
              activeProcesses s2 = activeProcesses s0).
  { intros c answer s0. unfold try_catch, call, bind, modify, gets, throw, ret. simpl.
    destruct (answer (service s0)) as [e|[]]; by eexists. }
  destruct (decide (code = Some 0%Z)) as [->|Hne].
  - match goal with |- context [try_catch (call ?c ?a) ?h ?x] =>
      destruct (Hcall c a x) as (s2 & -> & Hc2 & He2 & Ha2) end.
    exists s2. rewrite Hc2, He2, Ha2. simpl. rewrite ?Hc, ?He, ?Ha.
    repeat split; try done. apply lookup_delete_eq.
  - assert (Hfail : forall s0,
      exists s2,
        try_catch
          (call (FailAgent agentId (exitError code signal))
             (fun svc => unitAnswer (failAgent svc agentId (exitError code signal))))
          (fun _ => ret tt) s0 = (Normal tt, s2) /\
        calls s2 = FailAgent agentId (exitError code signal) :: calls s0 /\
        events s2 = events s0 /\ activeProcesses s2 = activeProcesses s0)
      by (intros; apply Hcall).
    unfold exitError in *.
    destruct code as [[|p|p]|]; [done| | |];
      cbv iota zeta;
      match goal with |- context [try_catch _ _ ?x] =>
        destruct (Hfail x) as (s2 & -> & Hc2 & He2 & Ha2) end;
      exists s2; rewrite Hc2, He2, Ha2; simpl; rewrite ?Hc, ?He, ?Ha;
      (repeat split; try done); apply lookup_delete_eq.
Qed.


Definition idleService : Service :=
  mkService (fun _ name _ _ _ => inr (mkWorktreeAgent name ("/repo/.opencode/worktrees/" +:+ name)
                                        ("agent/" +:+ name)))
            (fun _ _ _ _ _ => inr (mkChild (Some 4242%Z)))
            (fun _ => None) (fun _ _ => None) (fun _ _ => None).

(** A Windows machine on which every process holds [bytes] bytes. *)
Definition windows (bytes : Q) : Platform :=
  mkPlatform "win32" (inl "os.pageSize is not a function") (fun _ => None)
    (fun _ => inr (mkWinProcess (Some bytes) (Some 3%Q))).

(** A new isolation object where every process holds 600 MB. *)
Definition emptyIsolation : State :=
  constructor idleService (windows (600 * 1024 * 1024)) ∅ 0.

Example exit_code_one :
  calls (snd (onExit "agent-1" (Some 1%Z) None emptyIsolation))
  = [FailAgent "agent-1" "Process exited with code 1, signal: null"].
Proof. vm_compute. reflexivity. Qed.

Example exit_by_signal :
  calls (snd (onExit "agent-1" None (Some "SIGKILL") emptyIsolation))
  = [FailAgent "agent-1" "Process exited with code null, signal: SIGKILL"].
Proof. vm_compute. reflexivity. Qed.

Example exit_code_zero :
  calls (snd (onExit "agent-1" (Some 0%Z) None emptyIsolation)) = [CompleteAgent "agent-1" 0].
Proof. vm_compute. reflexivity. Qed.

(** *** Termination on the memory limit *)

Lemma terminateAgent_absent agentId reason s :
  activeProcesses s !! agentId = None ->
  terminateAgent agentId reason s = (Normal (false, "not_found"), s).
Proof. intros H. unfold terminateAgent, bind, gets. by rewrite H. Qed.

Lemma terminateAgent_active agentId reason child s :
  activeProcesses s !! agentId = Some child ->
  exists r s', terminateAgent agentId reason s = (Normal r, s') /\
    events s' = AgentTerminating agentId reason :: events s /\
    calls s' = TerminateAgent agentId :: calls s /\
    activeProcesses s' = activeProcesses s.
Proof.
  intros H. unfold terminateAgent, bind, gets. rewrite H.
  unfold emit, try_catch, call, bind, modify, gets, throw, ret. simpl.
  destruct (terminateAgentCall (service s) agentId); simpl; by do 2 eexists.
Qed.

(** [getProcessStats] returns and leaves the isolation object as it is. *)
Lemma getProcessStats_run pid s : exists stats, getProcessStats pid s = (Normal stats, s).
Proof.
  unfold getProcessStats, bind, gets, try_catch, measureWindows, measureProc, bind, gets,
    ret, throw.
  destruct (String.eqb (os_platform (platform s)) "win32").
  - destruct (powershell (platform s) pid); by eexists.
  - repeat match goal with
      | |- context [match ?x with _ => _ end] =>
          lazymatch x with
          | context [match _ with _ => _ end] => fail
          | _ => destruct x
          end
      end; by eexists.
Qed.

(** *** Capacity *)

Definition capacityError : string :=
  "Maximum concurrent agents (" +:+ pretty MAX_CONCURRENT_AGENTS +:+ ") reached".

Lemma spawn_at_capacity params s :
  MAX_CONCURRENT_AGENTS <= size (activeProcesses s) ->
  spawnAgentInIsolation params s = (Throw capacityError, s).
Proof.
  intros H. unfold spawnAgentInIsolation, bind, gets.
  by destruct (Nat.leb_spec MAX_CONCURRENT_AGENTS (size (activeProcesses s))); [|lia].
Qed.

Definition sameActive (s s' : State) : Prop := activeProcesses s' = activeProcesses s.

#[local] Instance sameActive_preorder : PreOrder sameActive.
Proof. split; [done|]. intros s1 s2 s3 H1 H2. unfold sameActive in *. congruence. Qed.

Lemma sameActive_emit e : respects sameActive (emit e).
Proof. by intros s. Qed.

Lemma sameActive_call {A} c (answer : Service -> string + A) : respects sameActive (call c answer).
Proof.
  intros s. unfold call, bind, modify, gets. simpl.
  by destruct (answer _).
Qed.

Lemma sameActive_setupProcessHandlers i : respects sameActive (setupProcessHandlers i).
Proof. by intros s. Qed.

Lemma sameActive_startResourceMonitoring i c : respects sameActive (startResourceMonitoring i c).
Proof. intros s. unfold startResourceMonitoring. by destruct (pid c). Qed.

Lemma startInWorktree_active params agent s :
  activeProcesses (snd (startInWorktree params agent s)) = activeProcesses s \/
  exists child,
    activeProcesses (snd (startInWorktree params agent s)) = <[id agent := child]> (activeProcesses s).
Proof.
  cbv beta iota zeta delta [startInWorktree bind emit modify gets call ret throw
    setupProcessHandlers startResourceMonitoring].
  cbn [service set_calls set_events].
  destruct (startAgentProcess _ _ _ _ _ _) as [e|child]; [by left|].
  right. exists child. by destruct (pid child).
Qed.

Lemma size_insert_le (m : gmap string ChildProcess) i c : size (<[i := c]> m) <= S (size m).
Proof.
  destruct (m !! i) eqn:E.
  - rewrite map_size_insert_Some by by eexists. lia.
  - by rewrite map_size_insert_None.
Qed.

Lemma spawn_bounded params s :
  size (activeProcesses s) <= MAX_CONCURRENT_AGENTS ->
  size (activeProcesses (snd (spawnAgentInIsolation params s))) <= MAX_CONCURRENT_AGENTS.
Proof.
  intros Hle. unfold spawnAgentInIsolation. unfold bind at 1, gets at 1.
  destruct (Nat.leb_spec MAX_CONCURRENT_AGENTS (size (activeProcesses s))); [done|].
  unfold bind at 1.
  match goal with |- context [try_catch ?c ?h s] =>
    assert (Hm : respects sameActive (try_catch c h)) end.
  { pose proof @sameActive_call. repeat first [respects_step | done]. }
  specialize (Hm s). destruct (try_catch _ _ s) as [[[e|agent]|e] s1]; simpl in Hm.
  - assert (Hr : respects sameActive (emit (AgentSpawnFailed None e) ;; @throw State Spawned e)).
    { pose proof sameActive_emit. repeat first [respects_step | done]. }
    rewrite Hr, Hm. lia.
  - unfold try_catch.
    destruct (startInWorktree_active params agent s1) as [Hs|[child Hs]];
      destruct (startInWorktree params agent s1) as [[r|e] s2]; simpl in Hs.
    + simpl. rewrite Hs, Hm. lia.
    + match goal with |- context [snd (?c s2)] =>
        assert (Hr : respects sameActive c) end.
      { pose proof sameActive_emit. pose proof @sameActive_call.
        repeat first [respects_step | done]. }
      rewrite Hr, Hs, Hm. lia.
    + simpl. rewrite Hs, Hm. pose proof (size_insert_le (activeProcesses s) (id agent) child). lia.
    + match goal with |- context [snd (?c s2)] =>
        assert (Hr : respects sameActive c) end.
      { pose proof sameActive_emit. pose proof @sameActive_call.
        repeat first [respects_step | done]. }
      rewrite Hr, Hs, Hm. pose proof (size_insert_le (activeProcesses s) (id agent) child). lia.
  - simpl. rewrite Hm. lia.
Qed.

(** What happens to an isolation object, one event at a time. *)
Inductive Step :=
| Spawn (params : SpawnParams)
| ChildExits (agentId : string) (code : option Z) (signal : option string)
| ChildErrors (agentId error : string)
| TimerExpires (agentId : string)
| MonitorTicks (agentId : string) (pid : Z)
| Terminate (agentId reason : string).

Definition perform (step : Step) (s : State) : State :=
  match step with
  | Spawn params => snd (spawnAgentInIsolation params s)
  | ChildExits agentId code signal => snd (onExit agentId code signal s)
  | ChildErrors agentId error => snd (onError agentId error s)
  | TimerExpires agentId => snd (onTimeout agentId s)
  | MonitorTicks agentId pid => snd (checkResources agentId pid s)
  | Terminate agentId reason => snd (terminateAgent agentId reason s)
  end.

Definition history (steps : list Step) (s : State) : State :=
  fold_left (fun s step => perform step s) steps s.

Definition noMoreActive (s s' : State) : Prop :=
  size (activeProcesses s') <= size (activeProcesses s).

#[local] Instance noMoreActive_preorder : PreOrder noMoreActive.
Proof.
  split; [intros s; unfold noMoreActive; lia|].
  intros s1 s2 s3. unfold noMoreActive. lia.
Qed.

Lemma noMoreActive_same (f : State -> State) :
  (forall s, activeProcesses (f s) = activeProcesses s) -> respects noMoreActive (modify f).
Proof. intros H. apply respects_modify. intros s. unfold noMoreActive. by rewrite H. Qed.

Lemma noMoreActive_emit e : respects noMoreActive (emit e).
Proof. by apply noMoreActive_same. Qed.

Lemma noMoreActive_call {A} c (answer : Service -> string + A) :
  respects noMoreActive (call c answer).
Proof.
  unfold call. repeat first [respects_step | by apply noMoreActive_same].
Qed.

Lemma noMoreActive_delete i :
  respects noMoreActive
    (modify (fun s => set_activeProcesses (delete i (activeProcesses s)) s)).
Proof.
  apply respects_modify. intros s. unfold noMoreActive. simpl.
  apply map_subseteq_size, delete_subseteq.
Qed.

Lemma noMoreActive_terminateAgent i r : respects noMoreActive (terminateAgent i r).
Proof.
  pose proof noMoreActive_emit. pose proof @noMoreActive_call.
  unfold terminateAgent. repeat first [respects_step | done].
Qed.

Lemma noMoreActive_stopResourceMonitoring i : respects noMoreActive (stopResourceMonitoring i).
Proof.
  unfold stopResourceMonitoring.
  repeat first [respects_step | by apply noMoreActive_same].
Qed.

Lemma noMoreActive_perform step s :
  (forall params, step <> Spawn params) -> noMoreActive s (perform step s).
Proof.
  pose proof noMoreActive_emit. pose proof @noMoreActive_call.
  pose proof noMoreActive_delete. pose proof noMoreActive_terminateAgent.
  pose proof noMoreActive_stopResourceMonitoring.
  intros Hstep. destruct step as [params|i c sg|i e|i|i p|i r]; simpl.
  - by destruct (Hstep params).
  - assert (Hr : respects noMoreActive (onExit i c sg)); [|apply Hr].
    unfold onExit. repeat first [respects_step | done | by apply noMoreActive_same].
  - assert (Hr : respects noMoreActive (onError i e)); [|apply Hr].
    unfold onError. repeat first [respects_step | done | by apply noMoreActive_same].
  - assert (Hr : respects noMoreActive (onTimeout i)); [|apply Hr].
    unfold onTimeout. repeat first [respects_step | done | by apply noMoreActive_same].
  - assert (Hg : respects noMoreActive (getProcessStats p)).
    { intros s0. destruct (getProcessStats_run p s0) as [stats ->]. reflexivity. }
    assert (Hr : respects noMoreActive (checkResources i p)); [|apply Hr].
    unfold checkResources.
    repeat first [respects_step | done | by apply noMoreActive_same].
  - apply noMoreActive_terminateAgent.
Qed.

(** Whatever spawns, exits, errors, timeouts, monitor ticks and
    terminations an isolation object goes through, each run to its end
    before the next one starts, it never holds more than 10 active
    processes; and whenever it holds 10 (or more), [spawnAgentInIsolation]
    throws the capacity error and leaves everything as it was: no call to
    the worktree service is made, so no worktree is created, and no event is
    emitted. *)
Theorem spawn_capacity (svc : Service) (machine : Platform)
    (env : gmap string string) (now : Z) :
  (forall steps : list Step,
     size (activeProcesses (history steps (constructor svc machine env now)))
     <= MAX_CONCURRENT_AGENTS) /\
  (forall (s : State) (params : SpawnParams),
     MAX_CONCURRENT_AGENTS <= size (activeProcesses s) ->
     spawnAgentInIsolation params s
     = (Throw "Maximum concurrent agents (10) reached", s)).
Proof.
  split.
  - intros steps. induction steps as [|step steps IH] using rev_ind.
    + simpl. rewrite map_size_empty. unfold MAX_CONCURRENT_AGENTS. lia.
    + unfold history in *. rewrite fold_left_app. simpl.
      destruct step as [p| | | | |];
        try (etransitivity; [apply noMoreActive_perform; by intros ?|exact IH]).
      by apply spawn_bounded.
  - intros s params Hfull. by apply spawn_at_capacity.
Qed.

Definition exampleParams (name : string) : SpawnParams :=
  mkSpawnParams "/repo" name (Some "refactor") "node" [] ∅ None "main".

(** Ten agents spawned one after the other. *)
Definition tenActive : State :=
  history (map (fun name => Spawn (exampleParams name))
             ["a0"; "a1"; "a2"; "a3"; "a4"; "a5"; "a6"; "a7"; "a8"; "a9"])
    emptyIsolation.

Lemma spawn_capacity_witness :
  size (activeProcesses tenActive) = 10 /\
  spawnAgentInIsolation (exampleParams "a10") tenActive
  = (Throw "Maximum concurrent agents (10) reached", tenActive).
Proof.
  assert (Hsize : size (activeProcesses tenActive) = 10) by (vm_compute; reflexivity).
  split; [done|].
  apply (proj2 (spawn_capacity idleService (windows 0) ∅ 0)).
  rewrite Hsize. unfold MAX_CONCURRENT_AGENTS. lia.
Defined.

(** One agent, spawned and monitored; its samples read 600 MB. *)
Definition oneActive : State := snd (spawnAgentInIsolation (exampleParams "a0") emptyIsolation).

Example memory_over_limit_terminates :
  events (snd (checkResources "a0" 4242 oneActive))
  = AgentTerminating "a0" "memory_limit_exceeded" :: events oneActive.
Proof. vm_compute. reflexivity. Qed.

Example memory_at_limit_is_kept :
  let s := set_activeProcesses (activeProcesses oneActive)
             (constructor idleService (windows (512 * 1024 * 1024)) ∅ 0) in
  events (snd (checkResources "a0" 4242 s)) = [].
Proof. vm_compute. reflexivity. Qed.

(** A Linux machine on which process 4242 holds 153600 pages and has used
    2000 ticks, by [statm] and [stat]; [pageSize] is what [os.pageSize()]
    does. *)
Definition linux (statm : string) (pageSize : string + Z) : Platform :=
  mkPlatform "linux" pageSize
    (fun path =>
       if String.eqb path "/proc/4242/statm" then Some statm
       else if String.eqb path "/proc/4242/stat" then
         Some "4242 (node) S 1 4242 4242 0 -1 4194304 1000 0 0 0 1500 500 0 0 20 0 11 0 123 0"
       else None)
    (fun _ => inl "powershell: not found").

(** With pages of 4096 bytes that is 600 MB. When [os.pageSize()] throws,
    as it does where [os] has no such function, the error is caught and the
    process counts as holding nothing. A [statm] without a number in its
    second field gives [NaN], which is over no limit. *)
Example stats_on_linux :
  let measured machine :=
    fst (getProcessStats 4242 (constructor idleService machine ∅ 1770000000000)) in
  measured (linux "250000 153600 900 1 0 20000 0" (inr 4096%Z)) = Normal (mkStats 600 0) /\
  measured (linux "250000 153600 900 1 0 20000 0" (inl "os.pageSize is not a function"))
  = Normal (mkStats 0 0) /\
  measured (linux "250000 - 900" (inr 4096%Z)) = Normal (mkStats NaN 0) /\
  measured (linux "" (inr 4096%Z)) = Normal (mkStats 0 0) /\
  gt NaN AGENT_MEMORY_LIMIT_MB = false.
Proof. vm_compute. repeat split; reflexivity. Qed.


(** ** Isolation, continued: the environment, spawning, the handlers *)

(** *** The environment of a worker *)

(** The four tags and [PATH] of the environment a worker is started with are
    set by [buildIsolatedEnv] itself: neither the caller's [env] nor the
    environment of the server can override them. [PATH] is the worktree,
    the delimiter, and the [PATH] of the caller's [env] if it has one,
    else the server's. Any other variable is the caller's if given, else
    the server's. *)
Theorem buildIsolatedEnv_tags (processEnv baseEnv : gmap string string)
    (agentId worktreePath : string) :
  let isolatedEnv := buildIsolatedEnv processEnv baseEnv agentId worktreePath in
  isolatedEnv !! "AGENT_ID" = Some agentId /\
  isolatedEnv !! "AGENT_WORKTREE" = Some worktreePath /\
  isolatedEnv !! "AGENT_ISOLATED" = Some "1" /\
  isolatedEnv !! "NODE_ENV" = Some "production" /\
  isolatedEnv !! "PATH"
    = Some (worktreePath +:+ ":" +:+
            default "undefined" (union_with (fun x _ => Some x)
                                   (baseEnv !! "PATH") (processEnv !! "PATH"))) /\
  (forall name,
     name ∉ [ "AGENT_ID"; "AGENT_WORKTREE"; "AGENT_ISOLATED"; "NODE_ENV"; "PATH" ] ->
     isolatedEnv !! name
     = union_with (fun x _ => Some x) (baseEnv !! name) (processEnv !! name)).
Proof.
  unfold buildIsolatedEnv. cbv zeta. split_and!.
  - by rewrite lookup_insert_ne, lookup_insert_ne, lookup_insert_ne, lookup_insert_ne,
      lookup_insert_eq.
  - by rewrite lookup_insert_ne, lookup_insert_ne, lookup_insert_ne, lookup_insert_eq.
  - by rewrite lookup_insert_ne, lookup_insert_ne, lookup_insert_eq.
  - by rewrite lookup_insert_ne, lookup_insert_eq.
  - rewrite lookup_insert_eq.
    rewrite lookup_insert_ne, lookup_insert_ne, lookup_insert_ne, lookup_insert_ne by done.
    by rewrite lookup_union.
  - intros name Hname.
    rewrite !lookup_insert_ne; [by rewrite lookup_union|..];
      intros <-; apply Hname; repeat constructor.
Qed.

(** *** Spawning *)

Definition spawnCall (params : SpawnParams) : Call :=
  SpawnWorktreeAgent (projectDirectory params) (agentName params) (task params)
    (branchNameParam params) (baseBranch params).

Definition startCall (params : SpawnParams) (agent : WorktreeAgent) (s : State) : Call :=
  StartAgentProcess (id agent) (command params) (args params) (worktreePath agent)
    (buildIsolatedEnv (processEnv s) (env params) (id agent) (worktreePath agent)).

(** What the worktree service answers to the two calls of a spawn. *)
Definition worktreeAnswer (params : SpawnParams) (s : State) : string + WorktreeAgent :=
  spawnWorktreeAgent (service s) (projectDirectory params) (agentName params) (task params)
    (branchNameParam params) (baseBranch params).

Definition processAnswer (params : SpawnParams) (agent : WorktreeAgent) (s : State)
    : string + ChildProcess :=
  startAgentProcess (service s) (id agent) (command params) (args params) (worktreePath agent)
    (buildIsolatedEnv (processEnv s) (env params) (id agent) (worktreePath agent)).

Lemma spawn_run params s :
  size (activeProcesses s) < MAX_CONCURRENT_AGENTS ->
  spawnAgentInIsolation params s =
    match worktreeAnswer params s with
    | inl e =>
        (Throw e,
         set_events (AgentSpawnFailed None e :: events s)
           (set_calls (spawnCall params :: calls s) s))
    | inr agent =>
        let spawning :=
          set_events (AgentSpawning (id agent) (agentName params) (worktreePath agent)
                      :: events s)
            (set_calls (startCall params agent s :: spawnCall params :: calls s) s) in
        match processAnswer params agent s with
        | inl e =>
            let failed :=
              set_events (AgentSpawnFailed (Some (id agent)) e :: events spawning) spawning in
            if String.eqb (id agent) "" then (Throw e, failed)
            else
              (Throw (default e (failAgent (service s) (id agent) e)),
               set_calls (FailAgent (id agent) e :: calls failed) failed)
        | inr child =>
            (Normal (mkSpawned (id agent) (pid child) (worktreePath agent) (branchName agent)
                       "active"),
             mkState (<[id agent := child]> (activeProcesses s))
               (match pid child with
                | Some _ => <[id agent := mkMonitor (clock s) 0 []]> (resourceMonitors s)
                | None => resourceMonitors s
                end)
               (match pid child with Some _ => true | None => isMonitoring s end)
               ({[id agent]} ∪ timeouts s) (service s) (platform s) (processEnv s) (clock s)
               (calls spawning)
               (AgentSpawned (id agent) (agentName params) (worktreePath agent) (pid child)
                :: events spawning))
        end
    end.
Proof.
  intros Hroom. unfold spawnAgentInIsolation. unfold bind at 1, gets at 1.
  destruct (Nat.leb_spec MAX_CONCURRENT_AGENTS (size (activeProcesses s))); [lia|].
  unfold worktreeAnswer, processAnswer, startCall, spawnCall.
  cbv beta iota zeta delta [startInWorktree bind emit modify gets call ret throw try_catch
    setupProcessHandlers startResourceMonitoring when].
  cbn [service set_calls set_events processEnv calls events activeProcesses resourceMonitors
       isMonitoring timeouts platform clock set_activeProcesses set_timeouts].
  destruct (spawnWorktreeAgent _ _ _ _ _ _) as [e|agent]; [done|].
  cbn [service set_calls set_events processEnv calls events activeProcesses resourceMonitors
       isMonitoring timeouts platform clock set_activeProcesses set_timeouts].
  destruct (startAgentProcess _ _ _ _ _ _) as [e|child].
  - cbn [service set_calls set_events processEnv calls events activeProcesses resourceMonitors
         isMonitoring timeouts platform clock set_activeProcesses set_timeouts].
    destruct (String.eqb (id agent) ""); simpl; [done|].
    unfold unitAnswer. by destruct (failAgent (service s) (id agent) e).
  - by destruct (pid child).
Qed.

(** A spawn with room, a worktree and a started process: the result names
    the agent as active; the process is among the active ones under the
    agent's id and its timer is armed; it is monitored from now on exactly
    when it has a pid; the process was started in the worktree with the
    isolated environment; [agent:spawning] then [agent:spawned] are
    emitted. *)
Theorem spawn_success (s : State) (params : SpawnParams) (agent : WorktreeAgent)
    (child : ChildProcess) :
  size (activeProcesses s) < MAX_CONCURRENT_AGENTS ->
  worktreeAnswer params s = inr agent ->
  processAnswer params agent s = inr child ->
  exists s',
    spawnAgentInIsolation params s
    = (Normal (mkSpawned (id agent) (pid child) (worktreePath agent) (branchName agent)
                 "active"), s') /\
    activeProcesses s' = <[id agent := child]> (activeProcesses s) /\
    timeouts s' = {[id agent]} ∪ timeouts s /\
    (resourceMonitors s' !! id agent
     = match pid child with
       | Some _ => Some (mkMonitor (clock s) 0 [])
       | None => resourceMonitors s !! id agent
       end) /\
    calls s'
    = StartAgentProcess (id agent) (command params) (args params) (worktreePath agent)
        (buildIsolatedEnv (processEnv s) (env params) (id agent) (worktreePath agent))
      :: spawnCall params :: calls s /\
    events s'
    = AgentSpawned (id agent) (agentName params) (worktreePath agent) (pid child)
      :: AgentSpawning (id agent) (agentName params) (worktreePath agent) :: events s.
Proof.
  intros Hroom Hw Hp. rewrite (spawn_run params s Hroom), Hw. cbv zeta. rewrite Hp.
  eexists. split; [reflexivity|]. cbn. split_and!; try done.
  destruct (pid child); [apply lookup_insert_eq|done].
Qed.

Lemma spawn_success_witness :
  exists s',
    spawnAgentInIsolation (exampleParams "a0") emptyIsolation
    = (Normal (mkSpawned "a0" (Some 4242%Z) "/repo/.opencode/worktrees/a0" "agent/a0"
                 "active"), s') /\
    activeProcesses s' = <[ "a0" := mkChild (Some 4242%Z)]> (activeProcesses emptyIsolation) /\
    timeouts s' = {[ "a0" ]} ∪ timeouts emptyIsolation /\
    (resourceMonitors s' !! "a0" = Some (mkMonitor (clock emptyIsolation) 0 [])) /\
    calls s'
    = StartAgentProcess "a0" "node" [] "/repo/.opencode/worktrees/a0"
        (buildIsolatedEnv ∅ ∅ "a0" "/repo/.opencode/worktrees/a0")
      :: spawnCall (exampleParams "a0") :: calls emptyIsolation /\
    events s'
    = AgentSpawned "a0" "a0" "/repo/.opencode/worktrees/a0" (Some 4242%Z)
      :: AgentSpawning "a0" "a0" "/repo/.opencode/worktrees/a0" :: events emptyIsolation.
Proof.
  apply (spawn_success emptyIsolation (exampleParams "a0")
           (mkWorktreeAgent "a0" "/repo/.opencode/worktrees/a0" "agent/a0")
           (mkChild (Some 4242%Z))).
  - vm_compute. lia.
  - reflexivity.
  - reflexivity.
Defined.

(** The four tables of an isolation object. *)
Definition tables (s : State)
    : gmap string ChildProcess * gmap string Monitor * bool * gset string :=
  (activeProcesses s, resourceMonitors s, isMonitoring s, timeouts s).

(** When the worktree cannot be made, the spawn throws the service's error
    after [agent:spawn-failed] without an agent id; the service is asked
    nothing else, in particular not to fail an agent, and no process, timer
    or monitor is added. *)
Theorem spawn_fails_without_worktree (s : State) (params : SpawnParams) (e : string) :
  size (activeProcesses s) < MAX_CONCURRENT_AGENTS ->
  worktreeAnswer params s = inl e ->
  exists s',
    spawnAgentInIsolation params s = (Throw e, s') /\
    tables s' = tables s /\
    calls s' = spawnCall params :: calls s /\
    events s' = AgentSpawnFailed None e :: events s.
Proof.
  intros Hroom Hw. rewrite (spawn_run params s Hroom), Hw. by eexists.
Qed.

Definition noWorktreeService : Service :=
  mkService (fun _ _ _ _ _ => inl "worktree add failed")
            (fun _ _ _ _ _ => inr (mkChild (Some 4242%Z)))
            (fun _ => None) (fun _ _ => None) (fun _ _ => None).

Lemma spawn_fails_without_worktree_witness :
  let s := constructor noWorktreeService (windows 0) ∅ 0 in
  exists s',
    spawnAgentInIsolation (exampleParams "a0") s = (Throw "worktree add failed", s') /\
    tables s' = tables s /\
    calls s' = spawnCall (exampleParams "a0") :: calls s /\
    events s' = AgentSpawnFailed None "worktree add failed" :: events s.
Proof.
  apply (spawn_fails_without_worktree
           (constructor noWorktreeService (windows 0) ∅ 0) (exampleParams "a0")).
  - vm_compute. lia.
  - reflexivity.
Defined.

(** When the worktree is made but the process does not start, the agent is
    reported to the service as failed with the start error, after
    [agent:spawn-failed] with its id, and nothing else is asked of the
    service: the worktree stays. The spawn then throws the start error,
    unless reporting the failure fails itself: then it throws that error
    instead. No process, timer or monitor is added. *)
Theorem spawn_fails_at_start (s : State) (params : SpawnParams) (agent : WorktreeAgent)
    (e : string) :
  size (activeProcesses s) < MAX_CONCURRENT_AGENTS ->
  worktreeAnswer params s = inr agent ->
  id agent <> "" ->
  processAnswer params agent s = inl e ->
  exists s',
    spawnAgentInIsolation params s
    = (Throw (default e (failAgent (service s) (id agent) e)), s') /\
    tables s' = tables s /\
    calls s' = FailAgent (id agent) e :: startCall params agent s :: spawnCall params :: calls s /\
    events s'
    = AgentSpawnFailed (Some (id agent)) e
      :: AgentSpawning (id agent) (agentName params) (worktreePath agent) :: events s.
Proof.
  intros Hroom Hw Hid Hp. rewrite (spawn_run params s Hroom), Hw. cbv zeta. rewrite Hp.
  destruct (String.eqb_spec (id agent) ""); [done|]. by eexists.
Qed.

Definition noStartService : Service :=
  mkService (fun _ name _ _ _ => inr (mkWorktreeAgent name ("/repo/.opencode/worktrees/" +:+ name)
                                        ("agent/" +:+ name)))
            (fun _ _ _ _ _ => inl "spawn ENOENT")
            (fun _ => None) (fun _ _ => Some "registry is read-only") (fun _ _ => None).

Lemma spawn_fails_at_start_witness :
  let s := constructor noStartService (windows 0) ∅ 0 in
  let agent := mkWorktreeAgent "a0" "/repo/.opencode/worktrees/a0" "agent/a0" in
  exists s',
    spawnAgentInIsolation (exampleParams "a0") s = (Throw "registry is read-only", s') /\
    tables s' = tables s /\
    calls s' = FailAgent "a0" "spawn ENOENT" :: startCall (exampleParams "a0") agent s
               :: spawnCall (exampleParams "a0") :: calls s /\
    events s'
    = AgentSpawnFailed (Some "a0") "spawn ENOENT"
      :: AgentSpawning "a0" "a0" "/repo/.opencode/worktrees/a0" :: events s.
Proof.
  apply (spawn_fails_at_start
           (constructor noStartService (windows 0) ∅ 0) (exampleParams "a0")
           (mkWorktreeAgent "a0" "/repo/.opencode/worktrees/a0" "agent/a0") "spawn ENOENT").
  - vm_compute. lia.
  - reflexivity.
  - discriminate.
  - reflexivity.
Defined.

(** *** The handlers *)

Definition sameTables (s s' : State) : Prop := tables s' = tables s.

#[local] Instance sameTables_preorder : PreOrder sameTables.
Proof. split; [done|]. intros s1 s2 s3 H1 H2. unfold sameTables in *. congruence. Qed.

Lemma sameTables_emit e : respects sameTables (emit e).
Proof. by intros s. Qed.

Lemma sameTables_call {A} c (answer : Service -> string + A) : respects sameTables (call c answer).
Proof. intros s. unfold call, bind, modify, gets. simpl. by destruct (answer _). Qed.

Lemma sameTables_terminateAgent i r : respects sameTables (terminateAgent i r).
Proof.
  pose proof sameTables_emit. pose proof @sameTables_call.
  unfold terminateAgent. repeat first [respects_step | done].
Qed.

(** The state [stopResourceMonitoring] leaves. *)
Definition stopped (agentId : string) (s : State) : State :=
  match resourceMonitors s !! agentId with
  | None => s
  | Some _ =>
      let s1 := set_resourceMonitors (delete agentId (resourceMonitors s)) s in
      if bool_decide (size (resourceMonitors s1) = 0) then set_isMonitoring false s1 else s1
  end.

Lemma stopResourceMonitoring_stopped agentId s :
  exists r, stopResourceMonitoring agentId s = (Normal r, stopped agentId s).
Proof.
  unfold stopResourceMonitoring, stopped, bind, gets, modify, when, ret.
  destruct (resourceMonitors s !! agentId); [|by eexists]. simpl.
  destruct (bool_decide _); by eexists.
Qed.

Lemma stopped_tables agentId s :
  activeProcesses (stopped agentId s) = activeProcesses s /\
  resourceMonitors (stopped agentId s) = delete agentId (resourceMonitors s) /\
  timeouts (stopped agentId s) = timeouts s /\
  calls (stopped agentId s) = calls s /\ events (stopped agentId s) = events s /\
  service (stopped agentId s) = service s /\
  isMonitoring (stopped agentId s)
  = (if bool_decide (is_Some (resourceMonitors s !! agentId)
                     /\ delete agentId (resourceMonitors s) = ∅)
     then false else isMonitoring s).
Proof.
  unfold stopped. destruct (resourceMonitors s !! agentId) eqn:E.
  - cbv zeta. cbn [resourceMonitors set_resourceMonitors].
    case_bool_decide as Hsize.
    + apply map_size_empty_iff in Hsize. simpl. rewrite Hsize.
      rewrite bool_decide_eq_true_2 by (split; [by eexists|done]). done.
    + simpl. rewrite bool_decide_eq_false_2; [done|].
      intros [_ Hempty]. apply Hsize. rewrite Hempty. apply map_size_empty.
  - rewrite delete_id by done. rewrite bool_decide_eq_false_2; [done|].
    by intros [[? ?] _].
Qed.

Lemma reported_run (c : Call) (answer : Service -> string + unit) (s : State) :
  try_catch (call c answer) (fun _ => ret tt) s = (Normal tt, set_calls (c :: calls s) s).
Proof.
  unfold try_catch, call, bind, modify, gets, throw, ret. simpl.
  by destruct (answer (service s)) as [e|[]].
Qed.

(** The state the handlers of [exit] and [error] reach before they emit
    and report. *)
Definition dropped (agentId : string) (s : State) : State :=
  stopped agentId
    (set_activeProcesses (delete agentId (activeProcesses s))
       (set_timeouts (timeouts s ∖ {[agentId]}) s)).

Lemma onError_run agentId e s :
  onError agentId e s
  = (Normal tt,
     set_calls (FailAgent agentId e :: calls (dropped agentId s))
       (set_events (AgentError agentId e :: events (dropped agentId s))
          (dropped agentId s))).
Proof.
  unfold onError. unfold bind at 1, modify at 1. unfold bind at 1, modify at 1.
  unfold bind at 1.
  match goal with |- context [stopResourceMonitoring agentId ?x] =>
    destruct (stopResourceMonitoring_stopped agentId x) as (r & ->) end.
  fold (dropped agentId s).
  unfold bind at 1, emit at 1, modify at 1.
  by rewrite reported_run.
Qed.

(** The handler of a child's [error] event always returns; it drops the
    process handle, the monitor and the timer of the agent, emits
    [agent:error] and reports the agent to the worktree service as failed
    with that error, whether or not the service accepts the report. *)
Theorem error_marks_worker_failed (s : State) (agentId e : string) :
  exists s',
    onError agentId e s = (Normal tt, s') /\
    activeProcesses s' = delete agentId (activeProcesses s) /\
    resourceMonitors s' = delete agentId (resourceMonitors s) /\
    timeouts s' = timeouts s ∖ {[agentId]} /\
    calls s' = FailAgent agentId e :: calls s /\
    events s' = AgentError agentId e :: events s.
Proof.
  rewrite onError_run. eexists. split; [reflexivity|].
  unfold dropped.
  destruct (stopped_tables agentId
              (set_activeProcesses (delete agentId (activeProcesses s))
                 (set_timeouts (timeouts s ∖ {[agentId]}) s)))
    as (Ha & Hm & Ht & Hc & He & _).
  cbn [calls events activeProcesses resourceMonitors timeouts set_calls set_events].
  by rewrite Ha, Hm, Ht, Hc, He.
Qed.

Lemma onTimeout_run agentId s :
  exists r,
    onTimeout agentId s
    = (Normal tt,
       snd (terminateAgent agentId "timeout"
              (set_events (AgentTimeout agentId :: events s)
                 (set_timeouts (timeouts s ∖ {[agentId]}) s)))) /\
    fst (terminateAgent agentId "timeout"
           (set_events (AgentTimeout agentId :: events s)
              (set_timeouts (timeouts s ∖ {[agentId]}) s))) = Normal r.
Proof.
  unfold onTimeout. unfold bind at 1, modify at 1. unfold bind at 1, emit at 1, modify at 1.
  unfold bind at 1.
  set (s1 := set_events _ _).
  destruct (activeProcesses s1 !! agentId) as [child|] eqn:E.
  - destruct (terminateAgent_active agentId "timeout" child s1 E) as (r & s' & -> & _).
    by exists r.
  - rewrite (terminateAgent_absent agentId "timeout" s1 E). by eexists.
Qed.

(** When the wall-clock timer of an agent expires, [agent:timeout] is
    emitted. If the agent is among the active processes, its termination
    with the reason [timeout] is announced and asked of the worktree
    service; if not, nothing more happens. The process handle is not
    dropped by the timer: it stays active until its exit. *)
Theorem timeout_terminates_active (s : State) (agentId : string) :
  exists s',
    onTimeout agentId s = (Normal tt, s') /\
    activeProcesses s' = activeProcesses s /\
    timeouts s' = timeouts s ∖ {[agentId]} /\
    (events s', calls s')
    = match activeProcesses s !! agentId with
      | Some _ =>
          (AgentTerminating agentId "timeout" :: AgentTimeout agentId :: events s,
           TerminateAgent agentId :: calls s)
      | None => (AgentTimeout agentId :: events s, calls s)
      end.
Proof.
  destruct (onTimeout_run agentId s) as (r & -> & _).
  set (s1 := set_events _ _). eexists. split; [reflexivity|].
  pose proof (sameTables_terminateAgent agentId "timeout" s1) as Hs.
  unfold sameTables, tables in Hs. injection Hs as Ha _ _ Ht.
  split; [exact Ha|]. split; [exact Ht|].
  destruct (activeProcesses s !! agentId) as [child|] eqn:E.
  - destruct (terminateAgent_active agentId "timeout" child s1 E) as (r' & s' & -> & He & Hc & _).
    simpl. by rewrite He, Hc.
  - by rewrite (terminateAgent_absent agentId "timeout" s1 E).
Qed.

(** *** The invariant of the tables *)

(** [isMonitoring] says whether there is a monitor; only active processes
    have a monitor or an armed timer; a monitor keeps at most 60 samples. *)
Definition sound (s : State) : Prop :=
  isMonitoring s = negb (bool_decide (resourceMonitors s = ∅)) /\
  dom (resourceMonitors s) ⊆ dom (activeProcesses s) /\
  timeouts s ⊆ dom (activeProcesses s) /\
  map_Forall (fun _ m => length (cpuSamples m) <= 60) (resourceMonitors s).

Lemma sound_tables s s' : tables s' = tables s -> sound s -> sound s'.
Proof. unfold tables, sound. intros [= -> -> -> ->]. done. Qed.

Lemma monitoring_after_delete agentId (m : gmap string Monitor) (mon : bool) :
  mon = negb (bool_decide (m = ∅)) ->
  (if bool_decide (is_Some (m !! agentId) /\ delete agentId m = ∅) then false else mon)
  = negb (bool_decide (delete agentId m = ∅)).
Proof.
  intros Hmon.
  destruct (m !! agentId) as [x|] eqn:E.
  - assert (Hne : m <> ∅) by (intros ->; by rewrite lookup_empty in E).
    rewrite Hmon, (bool_decide_eq_false_2 (m = ∅)) by done.
    destruct (decide (delete agentId m = ∅)) as [Hd|Hd].
    + rewrite (bool_decide_eq_true_2 (is_Some (Some x) /\ _)) by (split; [by eexists|done]).
      by rewrite (bool_decide_eq_true_2 (delete agentId m = ∅)).
    + rewrite (bool_decide_eq_false_2 (is_Some (Some x) /\ _)) by (by intros [_ ?]).
      by rewrite (bool_decide_eq_false_2 (delete agentId m = ∅)).
  - rewrite (bool_decide_eq_false_2 (is_Some None /\ _)) by (by intros [[? ?] _]).
    by rewrite delete_id.
Qed.

Lemma sound_stopped agentId s : sound s -> sound (stopped agentId s).
Proof.
  intros (Hmon & Hdom & Ht & Hlen).
  destruct (stopped_tables agentId s) as (Ha & Hm & Htm & _ & _ & _ & Hi).
  unfold sound. rewrite Ha, Hm, Htm, Hi. split_and!.
  - by apply monitoring_after_delete.
  - rewrite dom_delete. by apply subseteq_difference_l.
  - done.
  - by apply map_Forall_delete.
Qed.

Lemma sound_dropped agentId s : sound s -> sound (dropped agentId s).
Proof.
  intros (Hmon & Hdom & Ht & Hlen). unfold dropped.
  destruct (stopped_tables agentId
              (set_activeProcesses (delete agentId (activeProcesses s))
                 (set_timeouts (timeouts s ∖ {[agentId]}) s)))
    as (Ha & Hm & Htm & _ & _ & _ & Hi).
  cbn [activeProcesses resourceMonitors timeouts isMonitoring set_activeProcesses
       set_timeouts] in Ha, Hm, Htm, Hi.
  unfold sound. rewrite Ha, Hm, Htm, Hi. split_and!.
  - by apply monitoring_after_delete.
  - rewrite !dom_delete. by apply difference_mono_r.
  - rewrite dom_delete. by apply difference_mono_r.
  - by apply map_Forall_delete.
Qed.

Lemma onExit_tables agentId code signal s :
  tables (snd (onExit agentId code signal s)) = tables (dropped agentId s).
Proof.
  unfold onExit. unfold bind at 1, modify at 1. unfold bind at 1, modify at 1.
  unfold bind at 1.
  match goal with |- context [stopResourceMonitoring agentId ?x] =>
    destruct (stopResourceMonitoring_stopped agentId x) as (r & ->) end.
  fold (dropped agentId s).
  unfold bind at 1, emit at 1, modify at 1.
  destruct code as [[|p|p]|]; cbv zeta; by rewrite reported_run.
Qed.

Lemma recordSample_length stats m :
  length (cpuSamples m) <= 60 -> length (cpuSamples (recordSample stats m)) <= 60.
Proof.
  intros H. unfold recordSample. cbn [cpuSamples].
  destruct (Nat.ltb_spec 60 (length (cpuSamples m ++ [cpuPercent stats]))) as [Hlt|Hle].
  - pose proof (length_app (cpuSamples m) [cpuPercent stats]) as Hl.
    destruct (cpuSamples m ++ [cpuPercent stats])%list; simpl in *; lia.
  - done.
Qed.

Lemma sound_sampled stats agentId s :
  sound s ->
  sound (set_resourceMonitors (alter (recordSample stats) agentId (resourceMonitors s)) s).
Proof.
  intros (Hmon & Hdom & Ht & Hlen). unfold sound.
  cbn [activeProcesses resourceMonitors timeouts isMonitoring set_resourceMonitors].
  split_and!.
  - rewrite Hmon. f_equal. apply bool_decide_ext.
    rewrite <- !(dom_empty_iff_L (D := gset string)). by rewrite dom_alter_L.
  - by rewrite dom_alter.
  - done.
  - intros i m. destruct (decide (agentId = i)) as [<-|Hne].
    + rewrite lookup_alter_eq.
      destruct (resourceMonitors s !! agentId) as [m0|] eqn:E; [|done].
      intros [= <-]. apply recordSample_length. by apply (Hlen agentId).
    + rewrite lookup_alter_ne by done. apply Hlen.
Qed.

Lemma sound_checkResources agentId pid s :
  sound s -> sound (snd (checkResources agentId pid s)).
Proof.
  intros Hs. unfold checkResources, try_catch. unfold bind at 1.
  destruct (getProcessStats_run pid s) as [stats ->].
  unfold bind at 1, modify at 1.
  set (s1 := set_resourceMonitors _ _).
  assert (Hs1 : sound s1) by by apply sound_sampled.
  destruct (gt _ _); [|done].
  unfold bind at 1.
  pose proof (sameTables_terminateAgent agentId "memory_limit_exceeded" s1) as Hsame.
  destruct (terminateAgent agentId "memory_limit_exceeded" s1) as [[r|e] s2]; simpl in *;
    by apply (sound_tables s1).
Qed.

Lemma sound_spawn params s : sound s -> sound (snd (spawnAgentInIsolation params s)).
Proof.
  intros Hs.
  destruct (Nat.leb_spec MAX_CONCURRENT_AGENTS (size (activeProcesses s))) as [Hfull|Hroom].
  { by rewrite spawn_at_capacity. }
  rewrite (spawn_run params s Hroom).
  destruct (worktreeAnswer params s) as [e|agent]; [by apply (sound_tables s)|].
  cbv zeta. destruct (processAnswer params agent s) as [e|child].
  { destruct (String.eqb (id agent) ""); by apply (sound_tables s). }
  destruct Hs as (Hmon & Hdom & Ht & Hlen). unfold sound.
  cbn [snd activeProcesses resourceMonitors timeouts isMonitoring].
  rewrite dom_insert. destruct (pid child).
  - split_and!.
    + rewrite bool_decide_eq_false_2; [done|]. apply insert_non_empty.
    + rewrite dom_insert. by apply union_mono_l.
    + by apply union_mono_l.
    + apply map_Forall_insert_2; [simpl; lia|done].
  - split_and!; [done| | |done].
    + by apply union_subseteq_r'.
    + by apply union_mono_l.
Qed.

(** *** Shutdown *)

(** The two loops of [cleanupAll]. *)
Fixpoint terminateAll (agentIds : list string) : Eff State unit :=
  match agentIds with
  | [] => ret tt
  | agentId :: agentIds' =>
      try_catch (terminateAgent agentId "shutdown" ;; ret tt) (fun _ => ret tt) ;;
      terminateAll agentIds'
  end.

Fixpoint stopAll (agentIds : list string) : Eff State unit :=
  match agentIds with
  | [] => ret tt
  | agentId :: agentIds' => stopResourceMonitoring agentId ;; stopAll agentIds'
  end.

(** [cleanupAll]; the keys come in the order of the finite map, which is
    not the insertion order of the [Map]. *)
Definition cleanupAll : Eff State nat :=
  agentIds <- gets (fun s => map fst (map_to_list (activeProcesses s))) ;;
  terminateAll agentIds ;;
  stopAll agentIds ;;
  ret (length agentIds).

Inductive Operation :=
| Happens (step : Step)
| CleanupAll.

Definition run (op : Operation) (s : State) : State :=
  match op with
  | Happens step => perform step s
  | CleanupAll => snd (cleanupAll s)
  end.

Definition trace (ops : list Operation) (s : State) : State :=
  foldl (fun s op => run op s) s ops.

Lemma terminateAll_run agentIds s :
  (forall i, i ∈ agentIds -> is_Some (activeProcesses s !! i)) ->
  exists s', terminateAll agentIds s = (Normal tt, s') /\
    tables s' = tables s /\
    calls s' = (rev (map TerminateAgent agentIds) ++ calls s)%list /\
    events s' = (rev (map (fun i => AgentTerminating i "shutdown") agentIds) ++ events s)%list.
Proof.
  revert s. induction agentIds as [|i agentIds IH]; intros s Hactive; [by exists s|].
  destruct (Hactive i) as [child Hi]; [by left|].
  cbn [terminateAll]. unfold bind at 1, try_catch at 1, bind at 1.
  pose proof (sameTables_terminateAgent i "shutdown" s) as Hsame.
  destruct (terminateAgent_active i "shutdown" child s Hi) as (r & s1 & Hrun & He & Hc & Ha).
  rewrite Hrun in *. simpl in Hsame. unfold ret at 1.
  destruct (IH s1) as (s' & -> & Ht' & Hc' & He').
  { intros j Hj. rewrite Ha. apply Hactive. by right. }
  exists s'. split; [done|]. split; [by rewrite Ht'|].
  rewrite Hc', He', Hc, He. cbn [map rev]. by rewrite <- !app_assoc.
Qed.

Lemma stopAll_run agentIds s :
  exists s', stopAll agentIds s = (Normal tt, s') /\
    activeProcesses s' = activeProcesses s /\ timeouts s' = timeouts s /\
    calls s' = calls s /\ events s' = events s /\
    (forall i, resourceMonitors s' !! i
               = if bool_decide (i ∈ agentIds) then None else resourceMonitors s !! i) /\
    (sound s -> sound s').
Proof.
  revert s. induction agentIds as [|i agentIds IH]; intros s.
  - exists s. by split_and!.
  - cbn [stopAll]. unfold bind at 1.
    destruct (stopResourceMonitoring_stopped i s) as (r & ->).
    destruct (stopped_tables i s) as (Ha & Hm & Ht & Hc & He & _).
    destruct (IH (stopped i s)) as (s' & -> & Ha' & Ht' & Hc' & He' & Hm' & Hs').
    exists s'. split_and!; try congruence.
    + intros j. rewrite Hm', Hm. destruct (decide (j = i)) as [->|Hne].
      * rewrite lookup_delete_eq, (bool_decide_eq_true_2 (i ∈ i :: agentIds)) by by left.
        by case_bool_decide.
      * rewrite lookup_delete_ne by done.
        case_bool_decide as H1; case_bool_decide as H2; try done.
        -- exfalso. apply H2. by right.
        -- apply elem_of_cons in H2 as [?|?]; done.
    + intros Hs. apply Hs'. by apply sound_stopped.
Qed.

Lemma cleanupAll_run s :
  let agentIds := map fst (map_to_list (activeProcesses s)) in
  exists s', cleanupAll s = (Normal (size (activeProcesses s)), s') /\
    activeProcesses s' = activeProcesses s /\ timeouts s' = timeouts s /\
    calls s' = (rev (map TerminateAgent agentIds) ++ calls s)%list /\
    events s' = (rev (map (fun i => AgentTerminating i "shutdown") agentIds) ++ events s)%list /\
    (forall i, i ∈ dom (activeProcesses s) -> resourceMonitors s' !! i = None) /\
    (sound s -> sound s').
Proof.
  intros agentIds. unfold cleanupAll. unfold bind at 1, gets at 1. fold agentIds.
  assert (Hids : forall i, i ∈ agentIds <-> is_Some (activeProcesses s !! i)).
  { intros i. unfold agentIds. rewrite list_elem_of_fmap. split.
    - intros ([j c] & -> & H%elem_of_map_to_list). by eexists.
    - intros [c H]. exists (i, c). split; [done|]. by apply elem_of_map_to_list. }
  unfold bind at 1.
  destruct (terminateAll_run agentIds s) as (s1 & -> & Ht1 & Hc1 & He1).
  { intros i. apply Hids. }
  unfold tables in Ht1. injection Ht1 as Ha1 Hm1 Hi1 Hti1.
  unfold bind at 1.
  destruct (stopAll_run agentIds s1) as (s' & -> & Ha' & Ht' & Hc' & He' & Hm' & Hs').
  exists s'. split_and!; try congruence.
  - unfold ret. f_equal. f_equal. unfold agentIds.
    by rewrite length_map, length_map_to_list.
  - intros i Hi. rewrite Hm'. rewrite bool_decide_eq_true_2; [done|].
    apply Hids. by apply elem_of_dom.
  - intros Hs. apply Hs'. apply (sound_tables s); [|done]. unfold tables. congruence.
Qed.

Lemma sound_onTimeout agentId s : sound s -> sound (snd (onTimeout agentId s)).
Proof.
  intros (Hmon & Hdom & Htm & Hlen).
  destruct (onTimeout_run agentId s) as (r & -> & _). simpl.
  eapply sound_tables; [apply sameTables_terminateAgent|].
  unfold sound. cbn [activeProcesses resourceMonitors timeouts isMonitoring set_events
                     set_timeouts].
  split_and!; try done. by apply subseteq_difference_l.
Qed.

Lemma sound_run op s : sound s -> sound (run op s).
Proof.
  intros Hs. destruct op as [[params|i c sg|i e|i|i p|i r]|]; simpl.
  - by apply sound_spawn.
  - apply (sound_tables (dropped i s)); [apply onExit_tables|by apply sound_dropped].
  - rewrite onError_run. simpl. apply (sound_tables (dropped i s)); [done|by apply sound_dropped].
  - by apply sound_onTimeout.
  - by apply sound_checkResources.
  - apply (sound_tables s); [apply sameTables_terminateAgent|done].
  - destruct (cleanupAll_run s) as (s' & -> & _ & _ & _ & _ & _ & H). by apply H.
Qed.

Lemma sound_trace ops s : sound s -> sound (trace ops s).
Proof.
  revert s. induction ops as [|op ops IH]; intros s Hs; simpl; [done|].
  apply IH. by apply sound_run.
Qed.

Lemma sound_constructor svc machine env now : sound (constructor svc machine env now).
Proof.
  unfold sound, constructor. simpl. by split_and!.
Qed.

Section Reachable.
Variable svc : Service.
Variable machine : Platform.
Variable env : gmap string string.
Variable now : Z.
Variable ops : list Operation.

Let s := trace ops (constructor svc machine env now).

(** Whatever spawns, exits, errors, timeouts, monitor ticks, terminations
    and shutdowns an isolation object goes through, run one after the
    other: [isMonitoring] is set exactly when there is a monitor; only
    agents among the active processes have a monitor or an armed timer;
    and no monitor holds more than 60 samples. *)
Theorem tables_stay_sound :
  isMonitoring s = negb (bool_decide (resourceMonitors s = ∅)) /\
  dom (resourceMonitors s) ⊆ dom (activeProcesses s) /\
  timeouts s ⊆ dom (activeProcesses s) /\
  map_Forall (fun _ m => length (cpuSamples m) <= 60) (resourceMonitors s).
Proof. apply sound_trace, sound_constructor. Qed.

(** [cleanupAll] returns the number of active processes. It announces a
    termination with the reason [shutdown] and asks the worktree service
    for it once for each of them; afterwards no monitor is left and
    [isMonitoring] is clear. The process handles and the timers are not
    dropped: they stay until the processes exit. *)
Theorem cleanupAll_stops_monitoring :
  let agentIds := map fst (map_to_list (activeProcesses s)) in
  exists s',
    cleanupAll s = (Normal (size (activeProcesses s)), s') /\
    calls s' = (rev (map TerminateAgent agentIds) ++ calls s)%list /\
    events s' = (rev (map (fun i => AgentTerminating i "shutdown") agentIds) ++ events s)%list /\
    resourceMonitors s' = ∅ /\ isMonitoring s' = false /\
    activeProcesses s' = activeProcesses s /\ timeouts s' = timeouts s.
Proof.
  intros agentIds.
  assert (Hs : sound s) by apply sound_trace, sound_constructor.
  destruct (cleanupAll_run s) as (s' & Hrun & Ha & Ht & Hc & He & Hm & Hs').
  destruct (Hs' Hs) as (Hmon' & Hdom' & _).
  assert (Hempty : resourceMonitors s' = ∅).
  { apply map_eq. intros i. rewrite lookup_empty.
    destruct (resourceMonitors s' !! i) as [m|] eqn:E; [|done].
    rewrite <- E. apply Hm. rewrite <- Ha. apply Hdom'. apply elem_of_dom. by eexists. }
  exists s'. split_and!; try done.
  rewrite Hmon', Hempty. by rewrite bool_decide_eq_true_2.
Qed.

End Reachable.

(** ** Isolation between its awaits *)

(** The methods above are each method run with nothing else between its
    awaits. This module has them as the code has them, cut at their awaits:
    a call runs up to its first [await] and is suspended there, and what is
    left of it runs later, one stretch at a time, while other calls and
    callbacks run in between. A call to the worktree service is logged when
    it is made and answered when the caller goes on. *)
Module Async.

(** The two handlers [setupProcessHandlers] installs on the child. *)
Inductive Handler :=
| OnExit (code : option Z) (signal : option string)
| OnError (error : string).

(** A suspended call, by the await it stands at. *)
Inductive Task :=
| MakingWorktree (params : SpawnParams)
| StartingProcess (params : SpawnParams) (agent : WorktreeAgent)
    (isolatedEnv : gmap string string)
| StartingMonitor (params : SpawnParams) (agent : WorktreeAgent) (childProcess : ChildProcess)
| FailingAgent (agentId error : string)
| Sampling (agentId : string) (pid : Z)
| Terminating (agentId reason : string)
| StoppingMonitor (agentId : string) (handler : Handler)
| Reporting (agentId : string).

(** A call to the service is made: it is logged. *)
Definition issue (c : Call) : Eff State unit :=
  modify (fun s => set_calls (c :: calls s) s).

(** The call has been answered: it resolves or rejects. *)
Definition settled {A} (answer : Service -> string + A) : Eff State A :=
  r <- gets (fun s => answer (service s)) ;;
  match r with
  | inl e => throw e
  | inr a => ret a
  end.

(** [spawnAgentInIsolation] up to its first await. *)
Definition spawnAgentInIsolation (params : SpawnParams) : Eff State Task :=
  activeCount <- gets (fun s => size (activeProcesses s)) ;;
  if (MAX_CONCURRENT_AGENTS <=? activeCount)%nat then
    throw ("Maximum concurrent agents (" +:+ pretty MAX_CONCURRENT_AGENTS +:+ ") reached")
  else
    issue (SpawnWorktreeAgent (projectDirectory params) (agentName params)
             (task params) (branchNameParam params) (baseBranch params)) ;;
    ret (MakingWorktree params).

(** The [catch] block of [spawnAgentInIsolation] up to its await, or to its
    [throw] when [agentId] is not set. *)
Definition spawnFailed (agentId : option string) (e : string) : Eff State (option Task) :=
  emit (AgentSpawnFailed agentId e) ;;
  match agentId with
  | Some i =>
      if negb (String.eqb i "") then
        issue (FailAgent i e) ;; ret (Some (FailingAgent i e))
      else throw e
  | None => throw e
  end.

(** [terminateAgent] up to its await: the result it returns at once when
    the agent is not among the active processes, or the suspended call. *)
Definition terminateAgent (agentId reason : string) : Eff State (bool * string + Task) :=
  childProcess <- gets (fun s => activeProcesses s !! agentId) ;;
  match childProcess with
  | None => ret (inl (false, "not_found"))
  | Some _ =>
      emit (AgentTerminating agentId reason) ;;
      issue (TerminateAgent agentId) ;;
      ret (inr (Terminating agentId reason))
  end.

Definition suspension {A} (r : A + Task) : option Task :=
  match r with
  | inl _ => None
  | inr t => Some t
  end.

(** The callback of the wall-clock timer: the promise of [terminateAgent]
    is dropped. *)
Definition onTimeout (agentId : string) : Eff State (option Task) :=
  modify (fun s => set_timeouts (timeouts s ∖ {[agentId]}) s) ;;
  emit (AgentTimeout agentId) ;;
  r <- terminateAgent agentId "timeout" ;;
  ret (suspension r).

(** The handlers of the child's [exit] and [error] events up to their first
    await, which follows the body of [stopResourceMonitoring]. *)
Definition onChild (agentId : string) (handler : Handler) : Eff State Task :=
  modify (fun s => set_timeouts (timeouts s ∖ {[agentId]}) s) ;;
  modify (fun s => set_activeProcesses (delete agentId (activeProcesses s)) s) ;;
  stopResourceMonitoring agentId ;;
  ret (StoppingMonitor agentId handler).

(** The callback of the monitor's interval up to its await: the files are
    being read, or PowerShell is running. *)
Definition checkResources (agentId : string) (pid : Z) : Eff State Task :=
  ret (Sampling agentId pid).

(** A suspended call goes on, up to its next await or to its end. *)
Definition resume (t : Task) : Eff State (option Task) :=
  match t with
  | MakingWorktree params =>
      made <- try_catch
                (agent <- settled (fun svc => spawnWorktreeAgent svc (projectDirectory params)
                                                (agentName params) (task params)
                                                (branchNameParam params) (baseBranch params)) ;;
                 ret (inr agent))
                (fun e => ret (inl e)) ;;
      match made with
      | inl e => spawnFailed None e
      | inr agent =>
          emit (AgentSpawning (id agent) (agentName params) (worktreePath agent)) ;;
          isolatedEnv <- gets (fun s => buildIsolatedEnv (processEnv s) (env params) (id agent)
                                          (worktreePath agent)) ;;
          issue (StartAgentProcess (id agent) (command params) (args params)
                   (worktreePath agent) isolatedEnv) ;;
          ret (Some (StartingProcess params agent isolatedEnv))
      end
  | StartingProcess params agent isolatedEnv =>
      started <- try_catch
                   (childProcess <- settled (fun svc => startAgentProcess svc (id agent)
                                                          (command params) (args params)
                                                          (worktreePath agent) isolatedEnv) ;;
                    ret (inr childProcess))
                   (fun e => ret (inl e)) ;;
      match started with
      | inl e => spawnFailed (Some (id agent)) e
      | inr childProcess =>
          modify (fun s =>
            set_activeProcesses (<[id agent := childProcess]> (activeProcesses s)) s) ;;
          setupProcessHandlers (id agent) ;;
          startResourceMonitoring (id agent) childProcess ;;
          ret (Some (StartingMonitor params agent childProcess))
      end
  | StartingMonitor params agent childProcess =>
      emit (AgentSpawned (id agent) (agentName params) (worktreePath agent) (pid childProcess)) ;;
      ret None
  | FailingAgent agentId e =>
      settled (fun svc => unitAnswer (failAgent svc agentId e)) ;;
      throw e
  | Sampling agentId pid =>
      try_catch
        (stats <- getProcessStats pid ;;
         modify (fun s =>
           set_resourceMonitors (alter (recordSample stats) agentId (resourceMonitors s)) s) ;;
         if gt (memoryMB stats) AGENT_MEMORY_LIMIT_MB then
           r <- terminateAgent agentId "memory_limit_exceeded" ;;
           ret (suspension r)
         else ret None)
        (fun _ => ret None)
  | Terminating agentId reason => ret None
  | StoppingMonitor agentId handler =>
      match handler with
      | OnExit code signal =>
          emit (AgentExit agentId code signal) ;;
          issue (match code with
                 | Some 0%Z => CompleteAgent agentId 0
                 | _ => FailAgent agentId
                          ("Process exited with code " +:+ showCode code
                           +:+ ", signal: " +:+ showSignal signal)
                 end) ;;
          ret (Some (Reporting agentId))
      | OnError error =>
          emit (AgentError agentId error) ;;
          issue (FailAgent agentId error) ;;
          ret (Some (Reporting agentId))
      end
  | Reporting agentId => ret None
  end.

(** The isolation object and the calls that are under way. *)
Record System := mkSystem {
  world : State;
  suspended : list Task;
}.

Definition idle (s : State) : System := mkSystem s [].

(** What can happen next: a call or a callback starts, or one of the
    suspended calls goes on. *)
Inductive Action :=
| Starts (step : Step)
| Resume (n : nat).

Definition settle {A} (tasks : list Task) (next : A -> list Task)
    (r : Completion A * State) : System :=
  mkSystem (snd r)
    (tasks ++ match fst r with
              | Normal a => next a
              | Throw _ => []
              end).

Definition start (step : Step) : Eff State (option Task) :=
  match step with
  | Spawn params => t <- spawnAgentInIsolation params ;; ret (Some t)
  | ChildExits agentId code signal => t <- onChild agentId (OnExit code signal) ;; ret (Some t)
  | ChildErrors agentId error => t <- onChild agentId (OnError error) ;; ret (Some t)
  | TimerExpires agentId => onTimeout agentId
  | MonitorTicks agentId pid => t <- checkResources agentId pid ;; ret (Some t)
  | Terminate agentId reason => r <- terminateAgent agentId reason ;; ret (suspension r)
  end.

Definition step (a : Action) (sys : System) : System :=
  match a with
  | Starts st => settle (suspended sys) option_list (start st (world sys))
  | Resume n =>
      match suspended sys !! n with
      | Some t => settle (delete n (suspended sys)) option_list (resume t (world sys))
      | None => sys
      end
  end.

Definition run (actions : list Action) (sys : System) : System :=
  fold_left (fun sys a => step a sys) actions sys.


(** *** A call and its stretches *)

(** [call] is a call made and answered with nothing in between. *)
Lemma call_cut {A} c (answer : Service -> string + A) s :
  call c answer s = (issue c ;; settled answer) s.
Proof. reflexivity. Qed.

Lemma terminateAgent_gone agentId reason s :
  activeProcesses s !! agentId = None ->
  terminateAgent agentId reason s = (Normal (inl (false, "not_found")), s).
Proof. intros H. unfold terminateAgent, bind, gets. by rewrite H. Qed.

Lemma terminateAgent_started agentId reason child s :
  activeProcesses s !! agentId = Some child ->
  terminateAgent agentId reason s
  = (Normal (inr (Terminating agentId reason)),
     set_calls (TerminateAgent agentId :: calls s)
       (set_events (AgentTerminating agentId reason :: events s) s)).
Proof. intros H. unfold terminateAgent, bind, gets. by rewrite H. Qed.

Lemma over_limit (q : Q) :
  (AGENT_MEMORY_LIMIT_MB < q)%Q -> gt q AGENT_MEMORY_LIMIT_MB = true.
Proof.
  intros H. unfold gt. apply negb_true_iff.
  destruct (Qle_bool q AGENT_MEMORY_LIMIT_MB) eqn:E; [|done].
  apply Qle_bool_iff in E. by apply Qlt_not_le in H.
Qed.

(** C5, as the code has it. [s] is the isolation object when the sample
    that the monitor has asked for arrives, and the sample reads more than
    512 MB. For a worker that is among the active processes then, the
    monitor announces the termination of that worker with the reason
    [memory_limit_exceeded] and asks the worktree service to terminate it.
    For a worker that is not, as when its process has exited while the
    sample was taken, [terminateAgent] answers [not_found], and nothing is
    announced and the service is asked nothing. *)
Theorem memory_limit_terminates (s : State) (agentId : string) (pid : Z) (stats : Stats)
    (megabytes : Q) :
  getProcessStats pid s = (Normal stats, s) ->
  memoryMB stats = Finite megabytes ->
  (AGENT_MEMORY_LIMIT_MB < megabytes)%Q ->
  (forall child, activeProcesses s !! agentId = Some child ->
     exists s',
       resume (Sampling agentId pid) s
       = (Normal (Some (Terminating agentId "memory_limit_exceeded")), s') /\
       events s' = AgentTerminating agentId "memory_limit_exceeded" :: events s /\
       calls s' = TerminateAgent agentId :: calls s /\
       activeProcesses s' = activeProcesses s)
  /\
  (activeProcesses s !! agentId = None ->
     terminateAgent agentId "memory_limit_exceeded" s = (Normal (inl (false, "not_found")), s) /\
     exists s',
       resume (Sampling agentId pid) s = (Normal None, s') /\
       events s' = events s /\ calls s' = calls s /\
       activeProcesses s' = activeProcesses s).
Proof.
  intros Hstats Hmem Hover.
  assert (Hgt : gt (memoryMB stats) AGENT_MEMORY_LIMIT_MB = true)
    by (rewrite Hmem; by apply over_limit).
  split.
  - intros child Hactive. eexists. split.
    + unfold resume, try_catch. unfold bind at 1. rewrite Hstats.
      unfold bind at 1, modify at 1. rewrite Hgt. unfold bind at 1.
      rewrite (terminateAgent_started _ _ child) by done. reflexivity.
    + done.
  - intros Hgone. split; [by apply terminateAgent_gone|]. eexists. split.
    + unfold resume, try_catch. unfold bind at 1. rewrite Hstats.
      unfold bind at 1, modify at 1. rewrite Hgt. unfold bind at 1.
      rewrite terminateAgent_gone by done. reflexivity.
    + done.
Qed.

(** One agent is spawned and monitored, and the monitor's interval has
    fired: the sample is being taken. *)
Definition ticking : System :=
  run [Starts (Spawn (exampleParams "a0")); Resume 0; Resume 0; Resume 0;
       Starts (MonitorTicks "a0" 4242)] (idle emptyIsolation).

Example ticking_shape :
  suspended ticking = [Sampling "a0" 4242] /\
  activeProcesses (world ticking) = {[ "a0" := mkChild (Some 4242%Z) ]} /\
  resourceMonitors (world ticking) = {[ "a0" := mkMonitor 0 0 [] ]} /\
  getProcessStats 4242 (world ticking) = (Normal (mkStats 600 3), world ticking).
Proof. vm_compute. repeat split; reflexivity. Qed.

Lemma memory_limit_terminates_witness :
  let s := world ticking in
  let exited := world (step (Starts (ChildExits "a0" (Some 1%Z) None)) ticking) in
  (exists s',
     resume (Sampling "a0" 4242) s
     = (Normal (Some (Terminating "a0" "memory_limit_exceeded")), s') /\
     events s' = AgentTerminating "a0" "memory_limit_exceeded" :: events s /\
     calls s' = TerminateAgent "a0" :: calls s /\
     activeProcesses s' = activeProcesses s) /\
  (terminateAgent "a0" "memory_limit_exceeded" exited
   = (Normal (inl (false, "not_found")), exited) /\
   exists s',
     resume (Sampling "a0" 4242) exited = (Normal None, s') /\
     events s' = events exited /\ calls s' = calls exited /\
     activeProcesses s' = activeProcesses exited).
Proof.
  intros s exited. split.
  - assert (Hs : getProcessStats 4242 s = (Normal (mkStats 600 3), s))
      by (vm_compute; reflexivity).
    apply (proj1 (memory_limit_terminates s "a0" 4242 (mkStats 600 3) 600 Hs eq_refl eq_refl)
             (mkChild (Some 4242%Z))).
    vm_compute. reflexivity.
  - assert (Hs : getProcessStats 4242 exited = (Normal (mkStats 600 3), exited))
      by (vm_compute; reflexivity).
    apply (proj2 (memory_limit_terminates exited "a0" 4242 (mkStats 600 3) 600 Hs eq_refl
                    eq_refl)).
    vm_compute. reflexivity.
Defined.

(** The reason is not [memory_limit]. And a worker whose process exits
    while the monitor takes a sample of more than 512 MB is not terminated:
    it was monitored when the sample was asked for, and when the sample
    arrives no termination is announced and the service is not asked for
    one. *)
Lemma memory_limit_differs :
  let sampled := step (Resume 0) ticking in
  let exited := run [Starts (ChildExits "a0" (Some 1%Z) None); Resume 0] ticking in
  (getProcessStats 4242 (world ticking) = (Normal (mkStats 600 3), world ticking) /\
   is_Some (resourceMonitors (world ticking) !! "a0") /\
   head (events (world sampled)) = Some (AgentTerminating "a0" "memory_limit_exceeded") /\
   AgentTerminating "a0" "memory_limit" ∉ events (world sampled))
  /\
  (suspended exited = [StoppingMonitor "a0" (OnExit (Some 1%Z) None)] /\
   (forall reason, AgentTerminating "a0" reason ∉ events (world exited)) /\
   TerminateAgent "a0" ∉ calls (world exited)).
Proof.
  intros sampled exited. split.
  - split; [vm_compute; reflexivity|]. split; [vm_compute; by eexists|].
    assert (He : events (world sampled)
                 = [AgentTerminating "a0" "memory_limit_exceeded";
                    AgentSpawned "a0" "a0" "/repo/.opencode/worktrees/a0" (Some 4242%Z);
                    AgentSpawning "a0" "a0" "/repo/.opencode/worktrees/a0"])
      by (vm_compute; reflexivity).
    rewrite He. split; [done|].
    intros Hin. repeat (apply elem_of_cons in Hin as [Hin|Hin]; [discriminate Hin|]).
    by apply elem_of_nil in Hin.
  - split; [vm_compute; reflexivity|].
    assert (He : events (world exited)
                 = [AgentSpawned "a0" "a0" "/repo/.opencode/worktrees/a0" (Some 4242%Z);
                    AgentSpawning "a0" "a0" "/repo/.opencode/worktrees/a0"])
      by (vm_compute; reflexivity).
    assert (Hc : calls (world exited)
                 = [StartAgentProcess "a0" "node" [] "/repo/.opencode/worktrees/a0"
                      (buildIsolatedEnv ∅ ∅ "a0" "/repo/.opencode/worktrees/a0");
                    spawnCall (exampleParams "a0")])
      by (vm_compute; reflexivity).
    rewrite He, Hc. split.
    + intros reason Hin.
      repeat (apply elem_of_cons in Hin as [Hin|Hin]; [discriminate Hin|]).
      by apply elem_of_nil in Hin.
    + intros Hin. repeat (apply elem_of_cons in Hin as [Hin|Hin]; [discriminate Hin|]).
      by apply elem_of_nil in Hin.
Qed.

(** *** Capacity *)

Definition elevenNames : list string :=
  ["a0"; "a1"; "a2"; "a3"; "a4"; "a5"; "a6"; "a7"; "a8"; "a9"; "a10"].

(** Eleven calls of [spawnAgentInIsolation] made before any of them has
    gone on. *)
Definition elevenStarted : System :=
  run (map (fun name => Starts (Spawn (exampleParams name))) elevenNames) (idle emptyIsolation).

(** C4 fails for calls that overlap: the count of the active processes is
    read before the first await and the process is entered after the
    second, with nothing kept in between. Eleven calls made on a new object
    before any of them has gone on all pass the check, none throws the
    capacity error, and when all have come to their end eleven processes
    are active. *)
Theorem overlapping_spawns_exceed_capacity :
  let sys := run (repeat (Resume 0) 33) elevenStarted in
  suspended elevenStarted = map (fun name => MakingWorktree (exampleParams name)) elevenNames /\
  size (activeProcesses (world elevenStarted)) = 0 /\
  suspended sys = [] /\
  size (activeProcesses (world sys)) = 11 /\
  MAX_CONCURRENT_AGENTS < size (activeProcesses (world sys)) /\
  dom (activeProcesses (world sys)) = list_to_set elevenNames.
Proof.
  intros sys.
  assert (Hsize : size (activeProcesses (world sys)) = 11) by (vm_compute; reflexivity).
  split; [vm_compute; reflexivity|]. split; [vm_compute; reflexivity|].
  split; [vm_compute; reflexivity|]. split; [exact Hsize|].
  split; [rewrite Hsize; unfold MAX_CONCURRENT_AGENTS; lia|].
  vm_compute. reflexivity.
Qed.

(** *** A call run alone *)

(** A call with nothing else in between: its stretches, one after the
    other, at most [fuel] of them. *)
Fixpoint finish (fuel : nat) (task : option Task) : Eff State unit :=
  match task, fuel with
  | Some t, S fuel' => next <- resume t ;; finish fuel' next
  | _, _ => ret tt
  end.

Ltac alone :=
  cbv [bind gets modify ret throw try_catch when call issue settled emit finish resume
       spawnFailed suspension startInWorktree setupProcessHandlers startResourceMonitoring
       stopResourceMonitoring unitAnswer snd fst];
  repeat match goal with
    | |- context [match ?x with _ => _ end] =>
        lazymatch x with
        | context [match _ with _ => _ end] => fail
        | _ => destruct x eqn:?
        end
    end; simplify_eq/=; try done.

(** The methods of the first part are these calls run alone. *)
Lemma start_alone st s : snd ((t <- start st ;; finish 3 t) s) = perform st s.
Proof.
  destruct st as [params|agentId code signal|agentId error|agentId|agentId pid|agentId reason];
    unfold start, perform.
  - unfold spawnAgentInIsolation, Isolation.spawnAgentInIsolation. alone; congruence.
  - unfold onChild, Isolation.onExit. alone.
  - unfold onChild, Isolation.onError. alone.
  - unfold onTimeout, Isolation.onTimeout, terminateAgent, Isolation.terminateAgent. alone.
  - unfold checkResources, Isolation.checkResources.
    cbv [bind ret finish resume try_catch]. destruct (getProcessStats_run pid s) as [stats ->].
    unfold modify, terminateAgent, Isolation.terminateAgent. alone.
  - unfold terminateAgent, Isolation.terminateAgent. alone.
Qed.

(** The stretches a suspended call still has. *)
Definition stretches (t : Task) : nat :=
  match t with
  | MakingWorktree _ => 3
  | StartingProcess _ _ _ | Sampling _ _ | StoppingMonitor _ _ => 2
  | StartingMonitor _ _ _ | FailingAgent _ _ | Terminating _ _ | Reporting _ => 1
  end.

Lemma resume_stretches t s :
  match resume t s with
  | (Normal (Some t'), _) => stretches t' < stretches t
  | _ => True
  end.
Proof.
  destruct t as [params|params agent isolatedEnv|params agent child|agentId e|agentId pid
                |agentId reason|agentId [code signal|error]|agentId]; simpl.
  - cbv [bind gets modify ret throw try_catch settled emit issue spawnFailed].
    destruct (spawnWorktreeAgent _ _ _ _ _ _); simpl; lia.
  - cbv [bind gets modify ret throw try_catch settled emit issue spawnFailed
         setupProcessHandlers startResourceMonitoring].
    destruct (startAgentProcess _ _ _ _ _ _) as [e|child]; simpl.
    + destruct (negb _); simpl; lia.
    + destruct (pid child); simpl; lia.
  - done.
  - cbv [bind gets ret throw settled unitAnswer]. by destruct (failAgent _ _ _).
  - unfold try_catch, bind. destruct (getProcessStats_run pid s) as [stats ->].
    unfold modify. destruct (gt _ _); [|done].
    unfold terminateAgent, bind, gets, emit, issue, modify, ret. simpl.
    destruct (activeProcesses s !! agentId); simpl; lia.
  - done.
  - simpl. lia.
  - simpl. lia.
  - done.
Qed.

Lemma run_cons a actions sys : run (a :: actions) sys = run actions (step a sys).
Proof. done. Qed.

Lemma run_idle n s : run (repeat (Resume 0) n) (idle s) = idle s.
Proof. induction n as [|n IH]; [done|]. simpl repeat. rewrite run_cons. exact IH. Qed.

Lemma step_resume t s :
  step (Resume 0) (mkSystem s [t])
  = mkSystem (snd (resume t s))
      (match fst (resume t s) with
       | Normal (Some t') => [t']
       | _ => []
       end).
Proof.
  unfold step, settle. simpl. by destruct (resume t s) as [[[t'|]|e] s'].
Qed.

Lemma run_resumes n t s :
  stretches t <= n ->
  run (repeat (Resume 0) n) (mkSystem s [t]) = idle (snd (finish n (Some t) s)).
Proof.
  revert t s. induction n as [|n IH]; intros t s Hn; [destruct t; simpl in Hn; lia|].
  simpl repeat. rewrite run_cons, step_resume. simpl finish. unfold bind.
  pose proof (resume_stretches t s) as Hr.
  destruct (resume t s) as [[[t'|]|e] s']; cbn [fst snd].
  - apply IH. lia.
  - change (mkSystem s' []) with (idle s'). rewrite run_idle. by destruct n.
  - apply (run_idle n s').
Qed.

Definition alone (st : Step) : list Action := Starts st :: repeat (Resume 0) 3.

Lemma start_stretches st s :
  match start st s with
  | (Normal (Some t), _) => stretches t <= 3
  | _ => True
  end.
Proof.
  destruct (start st s) as [[[t|]|e] s'] eqn:E; [|done|done].
  destruct t; simpl; try lia.
Qed.

Lemma run_alone_step st s : run (alone st) (idle s) = idle (perform st s).
Proof.
  rewrite <- start_alone. unfold alone. rewrite run_cons.
  unfold step, settle, bind. simpl suspended. simpl world.
  pose proof (start_stretches st s) as Hs.
  destruct (start st s) as [[[t|]|e] s']; cbn [fst snd option_list app].
  - by apply run_resumes.
  - apply (run_idle 3 s').
  - apply (run_idle 3 s').
Qed.

(** A run in which every call comes to its end before the next one starts
    is a history of the first part. *)
Lemma run_alone steps s : run (flat_map alone steps) (idle s) = idle (history steps s).
Proof.
  revert s. induction steps as [|st steps IH]; intros s; [done|].
  change (flat_map alone (st :: steps)) with (alone st ++ flat_map alone steps)%list.
  unfold run at 1. rewrite fold_left_app.
  change (run (flat_map alone steps) (run (alone st) (idle s))
          = idle (history (st :: steps) s)).
  rewrite run_alone_step. apply IH.
Qed.

End Async.

End Isolation.
